(** * backtrader_options: pricing engine and position lifecycles

    A shallow embedding of [utils/options_pricing.py],
    [strategies/iron_condor_strategy.py] and
    [strategies/put_selling_strategy.py].

    Conventions of the embedding.
    - A Python [float] is a real number ([R]); rounding error, overflow,
      infinities and NaN are outside the model.  A Python [int] is a [Z].
    - An operation that can raise returns a [result]: float division by
      zero, [math.log] and [math.sqrt] outside their domain, a negative
      index past the front of a list, subscripting [None].
    - [scipy.stats.norm] is the standard normal law: [norm_pdf] is its
      density and [norm_cdf] the integral of the density.
    - Object fields become record fields; a method takes the record and
      returns the new one, together with the lines it logs. An uncaught
      exception ends the backtest, so a raise carries no state. *)

From Stdlib Require Import Reals Lra Lia ZArith List String Ascii Bool Sorted.
Import ListNotations.
Open Scope R_scope.

(* ================================================================== *)
(** * Python runtime *)
(* ================================================================== *)

Inductive exn : Type :=
| ZeroDivisionError
| ValueError
| TypeError
| IndexError.

Inductive result (A : Type) : Type :=
| Ok (a : A)
| Raise (e : exn).

Arguments Ok {A} a.
Arguments Raise {A} e.

Definition bind {A B : Type} (m : result A) (k : A -> result B) : result B :=
  match m with
  | Ok a => k a
  | Raise e => Raise e
  end.

Notation "x <- m ;; k" := (bind m (fun x => k))
  (at level 61, m at next level, right associativity).
Notation "' pat <- m ;; k" := (bind m (fun x => match x with pat => k end))
  (at level 61, pat pattern, m at next level, right associativity).

Fixpoint mapM {A B : Type} (f : A -> result B) (l : list A) : result (list B) :=
  match l with
  | [] => Ok []
  | a :: l' => b <- f a ;; bs <- mapM f l' ;; Ok (b :: bs)
  end.

(** Comparisons of floats, as booleans. *)
Definition Rleb (x y : R) : bool := if Rle_dec x y then true else false.
Definition Rltb (x y : R) : bool := if Rlt_dec x y then true else false.

Infix "<=?" := Rleb (at level 70, no associativity) : R_scope.
Infix "<?" := Rltb (at level 70, no associativity) : R_scope.

(** [a / b] on floats. *)
Definition py_div (a b : R) : result R :=
  if Req_dec_T b 0 then Raise ZeroDivisionError else Ok (a / b).

(** [math.log], [math.sqrt]. *)
Definition math_log (x : R) : result R :=
  if 0 <? x then Ok (ln x) else Raise ValueError.

Definition math_sqrt (x : R) : result R :=
  if 0 <=? x then Ok (sqrt x) else Raise ValueError.

(** [math.floor]. *)
Definition math_floor (x : R) : Z := Int_part x.

(** The builtins [max(a, b)] and [min(a, b)]: the first argument is kept
    unless the second is strictly greater (smaller). *)
Definition py_max (a b : R) : R := if a <? b then b else a.
Definition py_min (a b : R) : R := if b <? a then b else a.
Definition py_max_int (a b : Z) : Z := if (a <? b)%Z then b else a.

(** The builtin [sum]. *)
Definition py_sum (l : list R) : R := fold_left Rplus l 0.

(** [round(x, ndigits)]: to the nearest multiple of [10^-ndigits], a tie
    going to the even one. *)
Definition round_half_even (y : R) : Z :=
  let f := Int_part y in
  let d := y - IZR f in
  if d <? 1 / 2 then f
  else if 1 / 2 <? d then (f + 1)%Z
  else if Z.even f then f else (f + 1)%Z.

Definition py_round (x : R) (ndigits : nat) : R :=
  IZR (round_half_even (x * 10 ^ ndigits)) / 10 ^ ndigits.

(** [l[-i]] for [i >= 1]. *)
Definition neg_index (l : list R) (i : nat) : result R :=
  if (i <=? List.length l)%nat then
    match nth_error l (List.length l - i) with
    | Some x => Ok x
    | None => Raise IndexError
    end
  else Raise IndexError.

(** [l[-n:]]. *)
Definition last_n {A : Type} (n : nat) (l : list A) : list A :=
  skipn (List.length l - n) l.

(** [str.lower] on the ASCII letters. *)
Definition lower_ascii (c : ascii) : ascii :=
  let n := nat_of_ascii c in
  if ((65 <=? n) && (n <=? 90))%nat then ascii_of_nat (n + 32) else c.

Fixpoint lower (s : string) : string :=
  match s with
  | EmptyString => EmptyString
  | String c s' => String (lower_ascii c) (lower s')
  end.

(** [numpy.linspace(start, stop, num)] with [endpoint=True]: the step is
    [(stop - start) / (num - 1)], the i-th sample [i * step + start], and the
    last sample is set to [stop]. *)
Definition linspace (start stop : R) (num : nat) : list R :=
  match num with
  | O => []
  | 1%nat => [start]
  | _ =>
    let step := (stop - start) / INR (num - 1) in
    map (fun i => INR i * step + start) (seq 0 (num - 1)) ++ [stop]
  end.

(* ------------------------------------------------------------------ *)
(** ** [scipy.stats.norm] *)

Definition norm_pdf (x : R) : R := exp (- (x * x) / 2) / sqrt (2 * PI).

Definition norm_pdf_integrable (a b : R) : Riemann_integrable norm_pdf a b.
Proof.
  assert (C : continuity norm_pdf) by (unfold norm_pdf; intro x; reg).
  destruct (Rle_dec a b) as [Hab | Hab].
  - apply continuity_implies_RiemannInt; [exact Hab | intros; apply C].
  - apply RiemannInt_P1, continuity_implies_RiemannInt; [lra | intros; apply C].
Defined.

(** The integral of the density from [a] to [b]. *)
Definition gauss_int (a b : R) : R := RiemannInt (norm_pdf_integrable a b).

(** The distribution function: one half plus the mass between 0 and [x],
    that is [(1 + erf (x / sqrt 2)) / 2]. *)
Definition norm_cdf (x : R) : R := 1 / 2 + gauss_int 0 x.

(* ================================================================== *)
(** * utils/options_pricing.py *)
(* ================================================================== *)

Definition is_call (option_type : string) : bool :=
  String.eqb (lower option_type) "call".

Definition black_scholes (S K T r sigma : R) (option_type : string) : result R :=
  if (S <=? 0) || (K <=? 0) || (T <=? 0) || (sigma <=? 0) then Ok 0
  else
    q <- py_div S K ;;
    lg <- math_log q ;;
    rt <- math_sqrt T ;;
    d1 <- py_div (lg + (r + sigma ^ 2 / 2) * T) (sigma * rt) ;;
    rt' <- math_sqrt T ;;
    let d2 := d1 - sigma * rt' in
    if is_call option_type then
      Ok (S * norm_cdf d1 - K * exp (- r * T) * norm_cdf d2)
    else
      Ok (K * exp (- r * T) * norm_cdf (- d2) - S * norm_cdf (- d1)).

Module Greeks.
Record t : Type := mk {
  delta : R;
  gamma : R;
  theta : R;
  vega : R;
  rho : R
}.
Definition zero : t := mk 0 0 0 0 0.
End Greeks.

Definition calculate_greeks (S K T r sigma : R) (option_type : string)
  : result Greeks.t :=
  if (S <=? 0) || (K <=? 0) || (T <=? 0) || (sigma <=? 0) then Ok Greeks.zero
  else
    sqrt_t <- math_sqrt T ;;
    q <- py_div S K ;;
    lg <- math_log q ;;
    d1 <- py_div (lg + (r + sigma ^ 2 / 2) * T) (sigma * sqrt_t) ;;
    let d2 := d1 - sigma * sqrt_t in
    let n_d1 := norm_pdf d1 in
    let n_d2 := norm_pdf d2 in
    let delta := if is_call option_type then norm_cdf d1 else - norm_cdf (- d1) in
    gamma <- py_div n_d1 (S * sigma * sqrt_t) ;;
    term1 <- py_div (- (S * sigma * n_d1)) (2 * sqrt_t) ;;
    let theta :=
      if is_call option_type then
        term1 - r * K * exp (- r * T) * norm_cdf d2
      else
        term1 + r * K * exp (- r * T) * norm_cdf (- d2) in
    let theta := theta / 365 in
    let vega := S * sqrt_t * n_d1 / 100 in
    let rho :=
      if is_call option_type then
        K * T * exp (- r * T) * norm_cdf d2 / 100
      else
        - K * T * exp (- r * T) * norm_cdf (- d2) / 100 in
    Ok (Greeks.mk delta gamma theta vega rho).

(** The body of the bisection loop of [calculate_iv], [n] iterations left. *)
Fixpoint bisect (n : nat) (market_price S K T r : R) (option_type : string)
    (precision vol_low vol_high : R) : result R :=
  match n with
  | O => Ok ((vol_low + vol_high) / 2)
  | Datatypes.S n' =>
    let vol_mid := (vol_low + vol_high) / 2 in
    price <- black_scholes S K T r vol_mid option_type ;;
    if Rabs (price - market_price) <? precision then Ok vol_mid
    else if price <? market_price then
      bisect n' market_price S K T r option_type precision vol_mid vol_high
    else
      bisect n' market_price S K T r option_type precision vol_low vol_mid
  end.

Definition default_precision : R := 0.00001.
Definition default_max_iterations : Z := 100.

Definition calculate_iv (market_price S K T r : R) (option_type : string)
    (precision : R) (max_iterations : Z) : result R :=
  let vol_low := 0.001 in
  let vol_high := 5.0 in
  let loop :=
    bisect (Z.to_nat max_iterations) market_price S K T r option_type
           precision vol_low vol_high in
  if is_call option_type then
    let intrinsic := py_max 0 (S - K) in
    if market_price <? intrinsic then Ok 0.0
    else if S <? market_price then Ok vol_high
    else loop
  else
    let intrinsic := py_max 0 (K - S) in
    if market_price <? intrinsic then Ok 0.0
    else if K <? market_price then Ok vol_high
    else loop.

Module Contract.
Record t : Type := mk {
  strike : R;
  price : R;
  delta : R;
  gamma : R;
  theta : R;
  vega : R;
  intrinsic : R
}.
End Contract.

Record OptionChain : Type := mkChain {
  calls : list Contract.t;
  puts : list Contract.t
}.

(** The strike ladder of [simulate_option_chain]. *)
Definition chain_strikes (underlying_price : R) : list R :=
  let strike_range := linspace (underlying_price * 0.8) (underlying_price * 1.2) 9 in
  map (fun strike => py_round strike 2) strike_range.

(** One turn of the [for strike in strikes] loop: the call and the put
    appended at this strike. *)
Definition chain_row (underlying_price T risk_free_rate volatility strike : R)
  : result (Contract.t * Contract.t) :=
  call_price <- black_scholes underlying_price strike T risk_free_rate volatility "call" ;;
  call_greeks <- calculate_greeks underlying_price strike T risk_free_rate volatility "call" ;;
  put_price <- black_scholes underlying_price strike T risk_free_rate volatility "put" ;;
  put_greeks <- calculate_greeks underlying_price strike T risk_free_rate volatility "put" ;;
  Ok (Contract.mk strike
        (py_round call_price 2)
        (py_round (Greeks.delta call_greeks) 4)
        (py_round (Greeks.gamma call_greeks) 4)
        (py_round (Greeks.theta call_greeks) 4)
        (py_round (Greeks.vega call_greeks) 2)
        (py_round (py_max 0 (underlying_price - strike)) 2),
      Contract.mk strike
        (py_round put_price 2)
        (py_round (Greeks.delta put_greeks) 4)
        (py_round (Greeks.gamma put_greeks) 4)
        (py_round (Greeks.theta put_greeks) 4)
        (py_round (Greeks.vega put_greeks) 2)
        (py_round (py_max 0 (strike - underlying_price)) 2)).

Definition simulate_option_chain (underlying_price : R) (days_to_expiry : Z)
    (volatility risk_free_rate : R) : result OptionChain :=
  let T := IZR days_to_expiry / 365.0 in
  let strikes := chain_strikes underlying_price in
  rows <- mapM (chain_row underlying_price T risk_free_rate volatility) strikes ;;
  Ok (mkChain (map fst rows) (map snd rows)).

(* ================================================================== *)
(** * [datetime.date] *)
(* ================================================================== *)

(** Dates are proleptic Gregorian, as in the standard library: day 1 is
    0001-01-01, a Monday. *)
Module Date.
Record t : Type := mk { year : Z; month : Z; day : Z }.

Definition is_leap (y : Z) : bool :=
  ((y mod 4 =? 0) && (negb (y mod 100 =? 0) || (y mod 400 =? 0)))%Z.

Definition days_before_year (year : Z) : Z :=
  let y := (year - 1)%Z in
  (y * 365 + y / 4 - y / 100 + y / 400)%Z.

Definition days_in_month_table (month : Z) : Z :=
  nth (Z.to_nat month) [-1; 31; 28; 31; 30; 31; 30; 31; 31; 30; 31; 30; 31]%Z 0%Z.

Definition days_before_month_table (month : Z) : Z :=
  nth (Z.to_nat month)
      [-1; 0; 31; 59; 90; 120; 151; 181; 212; 243; 273; 304; 334]%Z 0%Z.

Definition days_before_month (year month : Z) : Z :=
  (days_before_month_table month
   + (if (2 <? month) && is_leap year then 1 else 0))%Z.

Definition toordinal (d : t) : Z :=
  (days_before_year (year d) + days_before_month (year d) (month d) + day d)%Z.

Definition fromordinal (n : Z) : t :=
  let n := (n - 1)%Z in
  let n400 := (n / 146097)%Z in
  let n := (n mod 146097)%Z in
  let year := (n400 * 400 + 1)%Z in
  let n100 := (n / 36524)%Z in
  let n := (n mod 36524)%Z in
  let n4 := (n / 1461)%Z in
  let n := (n mod 1461)%Z in
  let n1 := (n / 365)%Z in
  let n := (n mod 365)%Z in
  let year := (year + n100 * 100 + n4 * 4 + n1)%Z in
  if ((n1 =? 4) || (n100 =? 4))%Z then mk (year - 1) 12 31
  else
    let leapyear := ((n1 =? 3) && (negb (n4 =? 24) || (n100 =? 3)))%Z in
    let month := Z.shiftr (n + 50) 5 in
    let preceding :=
      (days_before_month_table month
       + (if (2 <? month) && leapyear then 1 else 0))%Z in
    if (n <? preceding)%Z then
      let month := (month - 1)%Z in
      let preceding :=
        (preceding
         - (days_in_month_table month
            + (if (month =? 2) && leapyear then 1 else 0)))%Z in
      mk year month (n - preceding + 1)
    else mk year month (n - preceding + 1).

(** Monday is 0. *)
Definition weekday (d : t) : Z := ((toordinal d + 6) mod 7)%Z.

(** [d + timedelta(days=n)] and [(d1 - d2).days]. *)
Definition add_days (d : t) (n : Z) : t := fromordinal (toordinal d + n).
Definition days_between (d1 d2 : t) : Z := (toordinal d1 - toordinal d2)%Z.

(** [_days_in_month]. *)
Definition days_in_month (year month : Z) : Z :=
  if (month =? 2)%Z && is_leap year then 29%Z else days_in_month_table month.
End Date.

(* ================================================================== *)
(** * strategies/iron_condor_strategy.py *)
(* ================================================================== *)

Module IronCondor.

Inductive OptionPositionType : Type :=
| NONE
| IRON_CONDOR
| IRON_BUTTERFLY
| CALENDAR_SPREAD.

Record Params : Type := mkParams {
  put_delta : R;
  put_width : R;
  call_delta : R;
  call_width : R;
  days_to_expiry : Z;
  risk_percentage : R;
  exit_days_left : Z;
  profit_target_pct : R;
  loss_stop_pct : R;
  iv_rank_min : R;
  atr_period : Z
}.

Definition default_params : Params :=
  mkParams 0.3 0.1 0.3 0.1 30 0.02 5 0.5 2.0 0.3 14.

(** The fields of the strategy object. [active_options] is [None] or
    [True]. *)
Record State : Type := mkState {
  close_hist : list R;
  active_options : option bool;
  option_type : OptionPositionType;
  entry_date : option Date.t;
  expiry_date : option Date.t;
  short_put_strike : R;
  long_put_strike : R;
  short_call_strike : R;
  long_call_strike : R;
  max_profit : R;
  max_loss : R;
  entry_credit : R;
  hv_20 : R;
  iv_estimate : R;
  iv_rank : R
}.

(** [__init__]. *)
Definition init : State :=
  mkState [] None NONE None None 0 0 0 0 0 0 0 0 0 0.

(** What the framework supplies on a bar: the date, the close
    ([self.data[0]]), the ATR indicator ([self.atr[0]] and
    [self.atr.array]) and [self.broker.getvalue()]. *)
Record Bar : Type := mkBar {
  bar_date : Date.t;
  bar_close : R;
  bar_atr : R;
  bar_atr_array : list R;
  bar_value : R
}.

Inductive exit_reason : Type :=
| ApproachingExpiration (days_left : Z)
| ProfitTargetReached (profit_pct : R)
| StopLossTriggered (current_profit : R).

(** The lines passed to [self.log]. *)
Inductive log_line : Type :=
| LogMarket (price hv iv rank atr : R)
| LogStatus (days_left : Z) (current_profit profit_pct : R)
| LogClosing (reason : exit_reason)
| LogOpening (short_put long_put short_call long_call : R)
| LogTerms (credit max_risk return_on_risk : R) (num_spreads : Z).

Definition set_close_hist (st : State) (h : list R) : State :=
  mkState h (active_options st) (option_type st) (entry_date st)
          (expiry_date st) (short_put_strike st) (long_put_strike st)
          (short_call_strike st) (long_call_strike st) (max_profit st)
          (max_loss st) (entry_credit st) (hv_20 st) (iv_estimate st)
          (iv_rank st).

Definition set_hv_20 (st : State) (v : R) : State :=
  mkState (close_hist st) (active_options st) (option_type st) (entry_date st)
          (expiry_date st) (short_put_strike st) (long_put_strike st)
          (short_call_strike st) (long_call_strike st) (max_profit st)
          (max_loss st) (entry_credit st) v (iv_estimate st) (iv_rank st).

Definition set_iv_estimate (st : State) (v : R) : State :=
  mkState (close_hist st) (active_options st) (option_type st) (entry_date st)
          (expiry_date st) (short_put_strike st) (long_put_strike st)
          (short_call_strike st) (long_call_strike st) (max_profit st)
          (max_loss st) (entry_credit st) (hv_20 st) v (iv_rank st).

Definition set_iv_rank (st : State) (v : R) : State :=
  mkState (close_hist st) (active_options st) (option_type st) (entry_date st)
          (expiry_date st) (short_put_strike st) (long_put_strike st)
          (short_call_strike st) (long_call_strike st) (max_profit st)
          (max_loss st) (entry_credit st) (hv_20 st) (iv_estimate st) v.

(** The position-tracking fields, set together at entry and at close. *)
Definition set_position (st : State) (active : option bool)
    (ty : OptionPositionType) (entry expiry : option Date.t)
    (sp lp sc lc mp ml credit : R) : State :=
  mkState (close_hist st) active ty entry expiry sp lp sc lc mp ml credit
          (hv_20 st) (iv_estimate st) (iv_rank st).

(** The log returns of [calculate_historical_volatility]:
    [math.log(close_hist[-i] / close_hist[-(i+1)])] for [i] in
    [range(1, 20)]. *)
Definition daily_returns (h : list R) : result (list R) :=
  mapM (fun i =>
          a <- neg_index h i ;;
          b <- neg_index h (i + 1) ;;
          q <- py_div a b ;;
          math_log q)
       (seq 1 19).

Definition calculate_historical_volatility (st : State) : result State :=
  if (List.length (close_hist st) <? 20)%nat then Ok st
  else
    returns <- daily_returns (close_hist st) ;;
    mean_return <- py_div (py_sum returns) (INR (List.length returns)) ;;
    variance <-
      py_div (py_sum (map (fun r => (r - mean_return) ^ 2) returns))
             (INR (List.length returns)) ;;
    daily_vol <- math_sqrt variance ;;
    annual <- math_sqrt 252 ;;
    Ok (set_hv_20 st (daily_vol * annual)).

Definition estimate_implied_volatility (st : State) (bar : Bar) : result State :=
  if (List.length (close_hist st) <? 20)%nat then Ok st
  else
    atr_vol <- py_div (bar_atr bar) (bar_close bar) ;;
    annual <- math_sqrt 252 ;;
    let st := set_iv_estimate st (atr_vol * annual * 0.5 + hv_20 st * 0.5) in
    if (252 <=? List.length (close_hist st))%nat then
      let avg_atr := py_sum (last_n 20 (bar_atr_array bar)) / 20 in
      ratio <- py_div (bar_atr bar) (2 * avg_atr) ;;
      Ok (set_iv_rank st (py_min 1.0 (py_max 0.0 ratio)))
    else Ok st.

Definition find_closest_option (options_list : list Contract.t)
    (key : Contract.t -> R) (target_value : R) : option Contract.t :=
  match options_list with
  | [] => None
  | first :: _ =>
    Some (fst (fold_left
                 (fun (acc : Contract.t * R) option =>
                    let diff := Rabs (key option - target_value) in
                    if diff <? snd acc then (option, diff) else acc)
                 options_list
                 (first, Rabs (key first - target_value))))
  end.

(** Subscripting the result of [find_closest_option]: [None[...]] is a
    [TypeError]. *)
Definition subscript (o : option Contract.t) : result Contract.t :=
  match o with
  | Some c => Ok c
  | None => Raise TypeError
  end.

Definition close_iron_condor (st : State) : State :=
  set_position st None NONE None None 0 0 0 0 0 0 0.

(** The [if / elif / elif] chain of [manage_iron_condor] that sets
    [should_exit] and [exit_reason]. *)
Definition exit_decision (p : Params) (st : State) (days_left : Z)
    (current_profit profit_pct : R) : option exit_reason :=
  if (days_left <=? exit_days_left p)%Z then
    Some (ApproachingExpiration days_left)
  else if profit_target_pct p <=? profit_pct then
    Some (ProfitTargetReached profit_pct)
  else if (current_profit <? 0)
          && (max_profit st * loss_stop_pct p <? Rabs current_profit) then
    Some (StopLossTriggered current_profit)
  else None.

(** The first part of [manage_iron_condor]: the days left, the current
    profit and the profit as a fraction of the maximum profit, from a
    fresh chain. *)
Definition position_status (st : State) (current_date : Date.t)
    (current_price : R) : result (Z * R * R) :=
  expiry <- match expiry_date st with
            | Some e => Ok e
            | None => Raise TypeError
            end ;;
  let days_left := Date.days_between expiry current_date in
  let days_to_expiry := py_max_int 1 days_left in
  let risk_free_rate := 0.02 in
  options_chain <-
    simulate_option_chain current_price days_to_expiry (iv_estimate st)
                          risk_free_rate ;;
  let short_put_option :=
    find_closest_option (puts options_chain) Contract.strike (short_put_strike st) in
  let long_put_option :=
    find_closest_option (puts options_chain) Contract.strike (long_put_strike st) in
  let short_call_option :=
    find_closest_option (calls options_chain) Contract.strike (short_call_strike st) in
  let long_call_option :=
    find_closest_option (calls options_chain) Contract.strike (long_call_strike st) in
  sp <- subscript short_put_option ;;
  lp <- subscript long_put_option ;;
  sc <- subscript short_call_option ;;
  lc <- subscript long_call_option ;;
  let current_value :=
    - Contract.price sp + Contract.price lp
    - Contract.price sc + Contract.price lc in
  let current_profit := entry_credit st - current_value in
  profit_pct <- (if 0 <? max_profit st
                 then py_div current_profit (max_profit st)
                 else Ok 0) ;;
  Ok (days_left, current_profit, profit_pct).

Definition manage_iron_condor (p : Params) (st : State)
    (current_date : Date.t) (current_price : R)
  : result (State * list log_line) :=
  '(days_left, current_profit, profit_pct) <-
    position_status st current_date current_price ;;
  let status := LogStatus days_left current_profit profit_pct in
  match exit_decision p st days_left current_profit profit_pct with
  | Some reason => Ok (close_iron_condor st, [status; LogClosing reason])
  | None => Ok (st, [status])
  end.

Definition get_next_monthly_expiration (current_date : Date.t) : Date.t :=
  let '(year, month) :=
    if (Date.month current_date =? 12)%Z
    then ((Date.year current_date + 1)%Z, 1%Z)
    else (Date.year current_date, (Date.month current_date + 1)%Z) in
  let first_day := Date.mk year month 1 in
  let days_to_add := ((4 - Date.weekday first_day) mod 7)%Z in
  let first_friday := Date.add_days first_day days_to_add in
  let third_friday := Date.add_days first_friday 14 in
  third_friday.

Definition consider_new_iron_condor (p : Params) (st : State)
    (current_date : Date.t) (current_price portfolio_value : R)
  : result (State * list log_line) :=
  if iv_rank st <? iv_rank_min p then Ok (st, [])
  else
    let expiry_date := get_next_monthly_expiration current_date in
    let days_to_expiry := Date.days_between expiry_date current_date in
    let '(expiry_date, days_to_expiry) :=
      if (days_to_expiry <? IronCondor.days_to_expiry p)%Z then
        let e := get_next_monthly_expiration (Date.add_days current_date 35) in
        (e, Date.days_between e current_date)
      else (expiry_date, days_to_expiry) in
    options_chain <-
      simulate_option_chain current_price days_to_expiry (iv_estimate st) 0.02 ;;
    match find (fun put => Rabs (Contract.delta put) <=? put_delta p)
               (puts options_chain) with
    | None => Ok (st, [])
    | Some short_put =>
      let long_put_strike := Contract.strike short_put * (1 - put_width p) in
      let long_put :=
        find_closest_option (puts options_chain) Contract.strike long_put_strike in
      match find (fun call => Rabs (Contract.delta call) <=? call_delta p)
                 (calls options_chain) with
      | None => Ok (st, [])
      | Some short_call =>
        let long_call_strike := Contract.strike short_call * (1 + call_width p) in
        let long_call :=
          find_closest_option (calls options_chain) Contract.strike long_call_strike in
        long_put <- subscript long_put ;;
        long_call <- subscript long_call ;;
        let credit :=
          Contract.price short_put - Contract.price long_put
          + Contract.price short_call - Contract.price long_call in
        let put_spread_width := Contract.strike short_put - Contract.strike long_put in
        let call_spread_width := Contract.strike long_call - Contract.strike short_call in
        let max_risk := py_max put_spread_width call_spread_width - credit in
        let max_return := credit in
        let margin_requirement := py_max put_spread_width call_spread_width in
        return_on_risk <- (if 0 <? margin_requirement
                           then py_div max_return margin_requirement
                           else Ok 0) ;;
        if return_on_risk <? 0.15 then Ok (st, [])
        else
          let max_risk_dollars := portfolio_value * risk_percentage p in
          q <- py_div max_risk_dollars (max_risk * 100) ;;
          let num_spreads := math_floor q in
          let num_spreads := py_max_int 1 num_spreads in
          Ok (set_position st (Some true) IRON_CONDOR
                (Some current_date) (Some expiry_date)
                (Contract.strike short_put) (Contract.strike long_put)
                (Contract.strike short_call) (Contract.strike long_call)
                (credit * IZR num_spreads * 100)
                (max_risk * IZR num_spreads * 100)
                credit,
              [LogOpening (Contract.strike short_put) (Contract.strike long_put)
                          (Contract.strike short_call) (Contract.strike long_call);
               LogTerms credit max_risk return_on_risk num_spreads])
      end
    end.

(** The rolling window of [next]: append, and drop the oldest close once
    more than 252 are held. *)
Definition push_close (h : list R) (current_price : R) : list R :=
  let h := h ++ [current_price] in
  if (252 <? List.length h)%nat then tl h else h.

(** The first part of [next]: the rolling window and the volatility
    readings. *)
Definition update_volatility (st : State) (bar : Bar) : result State :=
  let current_price := bar_close bar in
  let st := set_close_hist st (push_close (close_hist st) current_price) in
  st <- (if (20 <=? List.length (close_hist st))%nat
         then calculate_historical_volatility st
         else Ok st) ;;
  estimate_implied_volatility st bar.

Definition next (p : Params) (st : State) (bar : Bar)
  : result (State * list log_line) :=
  let current_date := bar_date bar in
  let current_price := bar_close bar in
  st <- update_volatility st bar ;;
  let market :=
    LogMarket current_price (hv_20 st) (iv_estimate st) (iv_rank st) (bar_atr bar) in
  '(st', lines) <-
    match active_options st with
    | Some true => manage_iron_condor p st current_date current_price
    | _ => consider_new_iron_condor p st current_date current_price (bar_value bar)
    end ;;
  Ok (st', market :: lines).

(** The driver calling [next] once per bar. *)
Fixpoint run (p : Params) (st : State) (bars : list Bar) : result State :=
  match bars with
  | [] => Ok st
  | bar :: bars' => '(st', _) <- next p st bar ;; run p st' bars'
  end.

End IronCondor.

(* ================================================================== *)
(** * strategies/put_selling_strategy.py *)
(* ================================================================== *)

Module PutSelling.

Inductive OptionPositionType : Type :=
| NONE
| SHORT_PUT
| LONG_PUT
| SHORT_CALL
| LONG_CALL.

Record Params : Type := mkParams {
  ma_period : Z;
  put_delta : R;
  days_to_expiry : Z;
  risk_percentage : R;
  profit_target_pct : R
}.

Definition default_params : Params := mkParams 20 0.3 30 0.02 0.50.

Record TradeInfo : Type := mkTrade {
  trade_entry_date : option Date.t;
  trade_exit_date : Date.t;
  trade_days_held : Z;
  trade_strike : R;
  trade_premium : R;
  trade_profit : R;
  trade_profit_pct : R;
  trade_contracts : Z;
  trade_total_profit : R
}.

(** The fields of the strategy object. [active_option] is [None] or
    [True]; the lifecycle is idle when it is [None]. *)
Record State : Type := mkState {
  active_option : option bool;
  option_type : OptionPositionType;
  entry_price : R;
  strike_price : R;
  expiry_date : option Date.t;
  entry_date : option Date.t;
  num_contracts : Z;
  trades : list TradeInfo;
  total_premium : R;
  trade_count : Z;
  winning_trades : Z;
  losing_trades : Z;
  equity_curve : list R;
  returns : list R;
  dates : list Date.t
}.

(** [__init__]. *)
Definition init : State :=
  mkState None NONE 0 0 None None 0 [] 0 0 0 0 [] [] [].

(** What the framework supplies to [consider_new_position]: the moving
    average [self.sma[0]], [self.broker.getcash()],
    [self.broker.getvalue()] and [self.data.datetime.date()]. *)
Record Market : Type := mkMarket {
  sma : R;
  cash : R;
  value : R;
  today : Date.t
}.

Inductive log_line : Type :=
| LogSell (num_contracts : Z) (strike_price option_premium : R)
| LogInsufficientCash (margin_requirement : R).

Definition consider_new_position (p : Params) (st : State) (m : Market)
    (current_price : R) : result (State * list log_line) :=
  if sma m <? current_price then
    let cash := cash m in
    let portfolio_value := value m in
    let strike_price := current_price * (1 - put_delta p) in
    let implied_vol := 0.2 in
    let time_factor := 1.0 in
    let option_premium := current_price * implied_vol * time_factor * put_delta p in
    let max_risk := portfolio_value * risk_percentage p in
    let max_loss_per_contract := (strike_price - option_premium) * 100 in
    q <- py_div max_risk max_loss_per_contract ;;
    let num_contracts := py_max_int 1 (math_floor q) in
    let today := today m in
    let expiry_date := Date.add_days today (days_to_expiry p) in
    let sell := LogSell num_contracts strike_price option_premium in
    let margin_requirement := strike_price * IZR num_contracts * 100 in
    if margin_requirement <=? cash then
      Ok (mkState (Some true) SHORT_PUT option_premium strike_price
                  (Some expiry_date) (Some today) num_contracts
                  (trades st)
                  (total_premium st + option_premium * IZR num_contracts)
                  (trade_count st) (winning_trades st) (losing_trades st)
                  (equity_curve st) (returns st) (dates st),
          [sell])
    else Ok (st, [sell; LogInsufficientCash margin_requirement])
  else Ok (st, []).

(** The calls made on the framework while a position is managed and a
    bar is processed: the lines passed to [self.log] and the amounts
    passed to [self.broker.add_cash]. *)
Inductive cash_reason : Type :=
| PremiumProfit
| AssignmentWithLoss
| EarlyClose.

Inductive event : Type :=
| LogBar (current_date : Date.t) (current_price ma : R)
| LogExpiredWorthless (strike : R)
| LogAssigned (strike loss : R)
| LogProfitTarget (profit_percent : R)
| AddCash (amount : R)
| LogAddedCash (amount : R) (reason : cash_reason)
| LogEntry (line : log_line).

Definition set_tracking (st : State) (equity returns : list R)
    (dates : list Date.t) : State :=
  mkState (active_option st) (option_type st) (entry_price st) (strike_price st)
          (expiry_date st) (entry_date st) (num_contracts st) (trades st)
          (total_premium st) (trade_count st) (winning_trades st)
          (losing_trades st) equity returns dates.

(** [self.active_option = None; self.option_type = OptionPositionType.NONE]. *)
Definition reset_position (st : State) : State :=
  mkState None NONE (entry_price st) (strike_price st)
          (expiry_date st) (entry_date st) (num_contracts st) (trades st)
          (total_premium st) (trade_count st) (winning_trades st)
          (losing_trades st) (equity_curve st) (returns st) (dates st).

(** [start]. *)
Definition start (st : State) (value : R) (date : Date.t) : State :=
  set_tracking st [value] [0.0] [date].

Definition record_trade (st : State) (exit_date : Date.t)
    (profit profit_pct : R) (days_held : Z) : State :=
  let trade_info :=
    mkTrade (entry_date st) exit_date days_held (strike_price st)
            (entry_price st) profit (profit_pct * 100) (num_contracts st)
            (profit * IZR (num_contracts st) * 100) in
  mkState (active_option st) (option_type st) (entry_price st) (strike_price st)
          (expiry_date st) (entry_date st) (num_contracts st)
          (trades st ++ [trade_info])
          (total_premium st) (trade_count st + 1)%Z
          (if 0 <? profit then (winning_trades st + 1)%Z else winning_trades st)
          (if 0 <? profit then losing_trades st else (losing_trades st + 1)%Z)
          (equity_curve st) (returns st) (dates st).

Definition manage_active_position (p : Params) (st : State)
    (current_date : Date.t) (current_price : R) : result (State * list event) :=
  match option_type st with
  | SHORT_PUT =>
    expiry <- match expiry_date st with
              | Some e => Ok e
              | None => Raise TypeError
              end ;;
    let days_left := Date.days_between expiry current_date in
    if (days_left <=? 0)%Z then
      '(st, events) <-
        (if strike_price st <? current_price then
           let profit := entry_price st * IZR (num_contracts st) * 100 in
           let trade_profit := entry_price st in
           Ok (record_trade st current_date trade_profit 1.0 (days_to_expiry p),
               [LogExpiredWorthless (strike_price st);
                AddCash profit;
                LogAddedCash profit PremiumProfit])
         else
           let loss := strike_price st - current_price in
           let net_profit := (entry_price st - loss) * IZR (num_contracts st) * 100 in
           let trade_profit := entry_price st - loss in
           profit_pct <- py_div trade_profit (entry_price st) ;;
           Ok (record_trade st current_date trade_profit profit_pct (days_to_expiry p),
               [LogAssigned (strike_price st) loss;
                AddCash net_profit;
                LogAddedCash net_profit AssignmentWithLoss])) ;;
      Ok (reset_position st, events)
    else
      let intrinsic := py_max 0 (strike_price st - current_price) in
      time_factor <- py_div (IZR days_left) (IZR (days_to_expiry p)) ;;
      let vol_factor := 0.8 in
      let time_value := vol_factor * time_factor * (current_price * 0.05) in
      let current_option_value := intrinsic + time_value in
      let profit := entry_price st - current_option_value in
      profit_pct <- py_div profit (entry_price st) ;;
      if profit_target_pct p <=? profit_pct then
        let net_profit := profit * IZR (num_contracts st) * 100 in
        entry <- match entry_date st with
                 | Some d => Ok d
                 | None => Raise TypeError
                 end ;;
        let days_held := Date.days_between current_date entry in
        Ok (reset_position (record_trade st current_date profit profit_pct days_held),
            [LogProfitTarget (profit_pct * 100);
             AddCash net_profit;
             LogAddedCash net_profit EarlyClose])
      else Ok (st, [])
  | _ => Ok (st, [])
  end.

(** [next]: [m] holds what the framework reports on the bar and
    [current_price] is [self.data[0]]. *)
Definition next (p : Params) (st : State) (m : Market) (current_price : R)
  : result (State * list event) :=
  let current_date := today m in
  let equity := equity_curve st ++ [value m] in
  rets <- (if (1 <? List.length equity)%nat then
             a <- neg_index equity 1 ;;
             b <- neg_index equity 2 ;;
             q <- py_div a b ;;
             Ok (returns st ++ [q - 1])
           else Ok (returns st)) ;;
  let st := set_tracking st equity rets (dates st ++ [current_date]) in
  let line := LogBar current_date current_price (sma m) in
  '(st', events) <-
    match active_option st with
    | Some _ => manage_active_position p st current_date current_price
    | None =>
      '(st', lines) <- consider_new_position p st m current_price ;;
      Ok (st', map LogEntry lines)
    end ;;
  Ok (st', line :: events).

(** The lines of the summary logged by [stop]. *)
Inductive summary_line : Type :=
| LogSummaryHeader
| LogTotalTrades (n : Z)
| LogWinningTrades (n : Z) (win_rate : R)
| LogLosingTrades (n : Z)
| LogAverageProfit (x : R)
| LogAverageProfitPct (x : R)
| LogAverageDaysHeld (x : R)
| LogTotalTradeProfit (x : R)
| LogTotalPremium (x : R)
| LogSummaryFooter.

Definition stop (st : State) : result (list summary_line) :=
  body <-
    (if (0 <? trade_count st)%Z then
       q <- py_div (IZR (winning_trades st)) (IZR (trade_count st)) ;;
       let win_rate := q * 100 in
       let lines :=
         [LogWinningTrades (winning_trades st) win_rate;
          LogLosingTrades (losing_trades st)] in
       match trades st with
       | [] => Ok lines
       | _ :: _ =>
         let n := INR (List.length (trades st)) in
         avg_profit <- py_div (py_sum (map trade_profit (trades st))) n ;;
         avg_profit_pct <- py_div (py_sum (map trade_profit_pct (trades st))) n ;;
         avg_days_held <-
           py_div (IZR (fold_left Z.add (map trade_days_held (trades st)) 0%Z)) n ;;
         let total_trade_profit := py_sum (map trade_total_profit (trades st)) in
         Ok (lines ++ [LogAverageProfit avg_profit;
                       LogAverageProfitPct avg_profit_pct;
                       LogAverageDaysHeld avg_days_held;
                       LogTotalTradeProfit total_trade_profit])
       end
     else Ok []) ;;
  Ok ([LogSummaryHeader; LogTotalTrades (trade_count st)]
      ++ body
      ++ [LogTotalPremium (total_premium st * 100); LogSummaryFooter]).

(** One bar as the strategy sees it. *)
Record Bar : Type := mkBar {
  bar_market : Market;
  bar_price : R
}.

(** The driver: [next] once per bar, the calls on the framework
    collected in order. *)
Fixpoint run_next (p : Params) (st : State) (bars : list Bar)
  : result (State * list event) :=
  match bars with
  | [] => Ok (st, [])
  | bar :: bars' =>
    '(st1, events1) <- next p st (bar_market bar) (bar_price bar) ;;
    '(st2, events2) <- run_next p st1 bars' ;;
    Ok (st2, events1 ++ events2)
  end.

(** [__init__], [start] with the opening value and date, then the bars. *)
Definition run (p : Params) (value : R) (date : Date.t) (bars : list Bar)
  : result (State * list event) :=
  run_next p (start init value date) bars.

End PutSelling.

(* ================================================================== *)
(** * Closed forms and reference values used in the statements *)
(* ================================================================== *)

(** The closed forms the code computes once its guard has passed. *)
Definition bs_d1 (S K T r sigma : R) : R :=
  (ln (S / K) + (r + sigma ^ 2 / 2) * T) / (sigma * sqrt T).

Definition bs_d2 (S K T r sigma : R) : R :=
  bs_d1 S K T r sigma - sigma * sqrt T.

Definition call_price (S K T r sigma : R) : R :=
  S * norm_cdf (bs_d1 S K T r sigma)
  - K * exp (- r * T) * norm_cdf (bs_d2 S K T r sigma).

Definition put_price (S K T r sigma : R) : R :=
  K * exp (- r * T) * norm_cdf (- bs_d2 S K T r sigma)
  - S * norm_cdf (- bs_d1 S K T r sigma).

Definition greeks_closed_form (S K T r sigma : R) (call : bool) : Greeks.t :=
  let d1 := bs_d1 S K T r sigma in
  let d2 := bs_d2 S K T r sigma in
  let term1 := - (S * sigma * norm_pdf d1) / (2 * sqrt T) in
  Greeks.mk
    (if call then norm_cdf d1 else - norm_cdf (- d1))
    (norm_pdf d1 / (S * sigma * sqrt T))
    ((if call then term1 - r * K * exp (- r * T) * norm_cdf d2
      else term1 + r * K * exp (- r * T) * norm_cdf (- d2)) / 365)
    (S * sqrt T * norm_pdf d1 / 100)
    (if call then K * T * exp (- r * T) * norm_cdf d2 / 100
     else - K * T * exp (- r * T) * norm_cdf (- d2) / 100).

(** The intrinsic value and the price cap that [calculate_iv] tests. *)
Definition iv_intrinsic (S K : R) (option_type : string) : R :=
  if is_call option_type then Rmax 0 (S - K) else Rmax 0 (K - S).

Definition iv_cap (S K : R) (option_type : string) : R :=
  if is_call option_type then S else K.

(** The price [black_scholes] returns on valid inputs, by style. *)
Definition bs_price (S K T r : R) (option_type : string) (sigma : R) : R :=
  if is_call option_type then call_price S K T r sigma
  else put_price S K T r sigma.

(** The ladder, sample by sample: start, eight equal steps, stop. *)
Definition ladder_point (underlying_price : R) (i : nat) : R :=
  py_round (0.8 * underlying_price + INR i * (0.05 * underlying_price)) 2.

(** The mean, the sum of squared deviations, and two standard deviations
    of a list of values. [population_std] divides by the number of values,
    as [calculate_historical_volatility] does. [sample_std] is the sample
    standard deviation the specification names: it divides by that number
    less one. *)
Definition mean (l : list R) : R := py_sum l / INR (List.length l).

Definition sum_sq_dev (l : list R) : R :=
  py_sum (map (fun r => (r - mean l) ^ 2) l).

Definition population_std (l : list R) : R :=
  sqrt (sum_sq_dev l / INR (List.length l)).

Definition sample_std (l : list R) : R :=
  sqrt (sum_sq_dev l / (INR (List.length l) - 1)).

(** The 19 log returns between the 20 most recent closes of a window,
    newest first. *)
Definition log_returns_20 (w : list R) : list R :=
  map (fun i => ln (nth (List.length w - i) w 0 / nth (List.length w - (i + 1)) w 0))
      (seq 1 19).

(** An open iron condor entered on 2024-01-15 and expiring on
    2024-02-16, used to exercise the monitoring step. *)
Definition open_condor_example : IronCondor.State :=
  IronCondor.mkState [] (Some true) IronCondor.IRON_CONDOR
    (Some (Date.mk 2024 1 15)) (Some (Date.mk 2024 2 16))
    90 80 110 120 150 850 1.5 0.2 0.2 0.5.

(** Two states of the iron condor with the same volatility readings. *)
Definition same_readings (st st' : IronCondor.State) : Prop :=
  IronCondor.close_hist st' = IronCondor.close_hist st /\
  IronCondor.hv_20 st' = IronCondor.hv_20 st /\
  IronCondor.iv_estimate st' = IronCondor.iv_estimate st /\
  IronCondor.iv_rank st' = IronCondor.iv_rank st.

(** The IV rank stored by an update: the current ATR over twice the
    average of the last 20 ATR values, clamped to the unit interval. *)
Definition clamped_atr_ratio (bar : IronCondor.Bar) : R :=
  Rmin 1 (Rmax 0 (IronCondor.bar_atr bar
                  / (2 * (py_sum (last_n 20 (IronCondor.bar_atr_array bar)) / 20)))).

(** Nineteen closes at 100, then a bar closing at 200: an idle strategy
    whose window reaches 20 closes on that bar. *)
Definition flat_history_example : IronCondor.State :=
  IronCondor.mkState (repeat 100 19) None IronCondor.NONE None None
                     0 0 0 0 0 0 0 0 0 0.

Definition jump_bar_example : IronCondor.Bar :=
  IronCondor.mkBar (Date.mk 2024 1 15) 200 2 [] 100000.

(** An open iron condor holding 251 closes, and a bar whose ATR is three
    times the average of the last 20: the window reaches a full year. *)
Definition year_history_example : IronCondor.State :=
  IronCondor.mkState (repeat 100 251) (Some true) IronCondor.IRON_CONDOR
    (Some (Date.mk 2024 1 15)) (Some (Date.mk 2024 2 16))
    90 80 110 120 150 850 1.5 0 0 0.

Definition high_atr_bar_example : IronCondor.Bar :=
  IronCondor.mkBar (Date.mk 2024 1 16) 100 3 (repeat 1 20) 100000.

(** The position-tracking fields of the iron condor: the same in two
    states, as [__init__] and [close_iron_condor] leave them, and as an
    entry leaves them. *)
Definition same_position (st st' : IronCondor.State) : Prop :=
  IronCondor.active_options st' = IronCondor.active_options st /\
  IronCondor.option_type st' = IronCondor.option_type st /\
  IronCondor.entry_date st' = IronCondor.entry_date st /\
  IronCondor.expiry_date st' = IronCondor.expiry_date st /\
  IronCondor.short_put_strike st' = IronCondor.short_put_strike st /\
  IronCondor.long_put_strike st' = IronCondor.long_put_strike st /\
  IronCondor.short_call_strike st' = IronCondor.short_call_strike st /\
  IronCondor.long_call_strike st' = IronCondor.long_call_strike st /\
  IronCondor.max_profit st' = IronCondor.max_profit st /\
  IronCondor.max_loss st' = IronCondor.max_loss st /\
  IronCondor.entry_credit st' = IronCondor.entry_credit st.

Definition idle_position (st : IronCondor.State) : Prop :=
  same_position IronCondor.init st.

Definition open_position (st : IronCondor.State) : Prop :=
  IronCondor.active_options st = Some true /\
  IronCondor.option_type st = IronCondor.IRON_CONDOR /\
  (exists entry expiry,
     IronCondor.entry_date st = Some entry /\
     IronCondor.expiry_date st = Some expiry) /\
  0 < IronCondor.entry_credit st /\
  0 < IronCondor.max_profit st.

(** The historical volatility of a window of closes: zero until 20 closes
    are held, then the annualised population standard deviation of the 19
    most recent log returns. *)
Definition window_volatility (w : list R) : R :=
  if (20 <=? List.length w)%nat
  then population_std (log_returns_20 w) * sqrt 252
  else 0.

(** A bar closing at 100 with an ATR of 2, used to build quiet runs. *)
Definition quiet_bar_example : IronCondor.Bar :=
  IronCondor.mkBar (Date.mk 2024 1 15) 100 2 [] 100000.

(** The position fields of the put seller agree: no position, or a short
    put with its entry and expiry dates. *)
Definition put_position_consistent (st : PutSelling.State) : Prop :=
  (PutSelling.active_option st = None /\
   PutSelling.option_type st = PutSelling.NONE) \/
  (PutSelling.active_option st = Some true /\
   PutSelling.option_type st = PutSelling.SHORT_PUT /\
   exists entry expiry,
     PutSelling.entry_date st = Some entry /\
     PutSelling.expiry_date st = Some expiry).

(** A recorded trade counts as a win when its profit is positive. *)
Definition is_winner (t : PutSelling.TradeInfo) : bool :=
  0 <? PutSelling.trade_profit t.

(** The amounts passed to [broker.add_cash], in order. *)
Definition cash_added (events : list PutSelling.event) : list R :=
  flat_map (fun e => match e with
                     | PutSelling.AddCash amount => [amount]
                     | _ => []
                     end) events.

(** The day-over-day returns of an equity series. *)
Fixpoint simple_returns (equity : list R) : list R :=
  match equity with
  | previous :: ((current :: _) as rest) =>
    (current / previous - 1) :: simple_returns rest
  | _ => []
  end.

(** A bar in a downtrend: the price is under its moving average. *)
Definition downtrend_bar_example : PutSelling.Bar :=
  PutSelling.mkBar (PutSelling.mkMarket 110 100000 100000 (Date.mk 2024 1 15)) 100.

(** A put sold in an uptrend on 2024-01-15 and the bar of its expiry, 30
    days later, with the price above the strike. *)
Definition entry_bar_example : PutSelling.Bar :=
  PutSelling.mkBar (PutSelling.mkMarket 90 100000 100000 (Date.mk 2024 1 15)) 100.

Definition expiry_bar_example : PutSelling.Bar :=
  PutSelling.mkBar (PutSelling.mkMarket 90 100000 100000 (Date.mk 2024 2 14)) 100.

(** The dates [datetime.date] accepts: a year from 1 to 9999, a month
    from 1 to 12 and a day of that month. *)
Definition valid_dateb (d : Date.t) : bool :=
  ((1 <=? Date.month d) && (Date.month d <=? 12)
   && (1 <=? Date.day d)
   && (Date.day d <=? Date.days_in_month (Date.year d) (Date.month d)))%Z.

Definition valid_date (d : Date.t) : Prop :=
  (1 <= Date.year d <= 9999)%Z /\ valid_dateb d = true.

Definition date_eqb (d1 d2 : Date.t) : bool :=
  ((Date.year d1 =? Date.year d2) && (Date.month d1 =? Date.month d2)
   && (Date.day d1 =? Date.day d2))%Z.

(** The date [d] moved by [k] cycles of 400 years. *)
Definition shift_cycles (k : Z) (d : Date.t) : Date.t :=
  Date.mk (Date.year d + 400 * k) (Date.month d) (Date.day d).

(** A test on every integer from [lo] to [lo + n - 1]. *)
Fixpoint forall_range (f : Z -> bool) (lo : Z) (n : positive) : bool :=
  match n with
  | xH => f lo
  | xO q => forall_range f lo q && forall_range f (lo + Zpos q) q
  | xI q => f lo && forall_range f (lo + 1) q && forall_range f (lo + 1 + Zpos q) q
  end.

(** The checks made over one cycle of 400 years: every ordinal of the
    cycle is the ordinal of its date, which is a day of a month; and every
    day of the cycle is the date of its ordinal. *)
Definition ordinal_round_trip (n : Z) : bool :=
  ((Date.toordinal (Date.fromordinal n) =? n)%Z
   && valid_dateb (Date.fromordinal n)).

Definition date_round_trip (k : Z) : bool :=
  let d := Date.mk (k / 372 + 1) (k mod 372 / 31 + 1) (k mod 31 + 1) in
  implb (valid_dateb d) (date_eqb (Date.fromordinal (Date.toordinal d)) d).

(* ================================================================== *)
(** * Properties *)
(* ================================================================== *)

(** ** Runtime lemmas *)

Lemma Rleb_true x y : x <= y -> (x <=? y) = true.
Proof. intros H. unfold Rleb. destruct (Rle_dec x y); [reflexivity | contradiction]. Qed.

Lemma Rleb_false x y : y < x -> (x <=? y) = false.
Proof. intros H. unfold Rleb. destruct (Rle_dec x y); [lra | reflexivity]. Qed.

Lemma Rltb_true x y : x < y -> (x <? y) = true.
Proof. intros H. unfold Rltb. destruct (Rlt_dec x y); [reflexivity | contradiction]. Qed.

Lemma Rltb_false x y : y <= x -> (x <? y) = false.
Proof. intros H. unfold Rltb. destruct (Rlt_dec x y); [lra | reflexivity]. Qed.

Lemma Rleb_spec x y : reflect (x <= y) (x <=? y).
Proof. unfold Rleb. destruct (Rle_dec x y); constructor; assumption. Qed.

Lemma Rltb_spec x y : reflect (x < y) (x <? y).
Proof. unfold Rltb. destruct (Rlt_dec x y); constructor; assumption. Qed.

Lemma py_div_ok a b : b <> 0 -> py_div a b = Ok (a / b).
Proof. intros H. unfold py_div. destruct (Req_dec_T b 0); [contradiction | reflexivity]. Qed.

Lemma math_log_ok x : 0 < x -> math_log x = Ok (ln x).
Proof. intros H. unfold math_log. rewrite Rltb_true; auto. Qed.

Lemma math_sqrt_ok x : 0 <= x -> math_sqrt x = Ok (sqrt x).
Proof. intros H. unfold math_sqrt. rewrite Rleb_true; auto. Qed.

Lemma py_max_Rmax a b : py_max a b = Rmax a b.
Proof.
  unfold py_max, Rmax. destruct (Rltb_spec a b); destruct (Rle_dec a b); lra.
Qed.

Lemma py_min_Rmin a b : py_min a b = Rmin a b.
Proof.
  unfold py_min, Rmin. destruct (Rltb_spec b a); destruct (Rle_dec a b); lra.
Qed.


(** ** The standard normal law *)

Lemma norm_pdf_continuity : continuity norm_pdf.
Proof. unfold norm_pdf. intro x. reg. Qed.

Lemma norm_pdf_even x : norm_pdf (- x) = norm_pdf x.
Proof. unfold norm_pdf. f_equal. f_equal. lra. Qed.

Lemma sqrt_2PI_pos : 0 < sqrt (2 * PI).
Proof. apply sqrt_lt_R0. generalize PI_RGT_0. lra. Qed.

Lemma norm_pdf_pos x : 0 < norm_pdf x.
Proof.
  unfold norm_pdf. apply Rdiv_lt_0_compat; [apply exp_pos | apply sqrt_2PI_pos].
Qed.

Lemma gauss_int_chasles a b c : gauss_int a b + gauss_int b c = gauss_int a c.
Proof. unfold gauss_int. apply RiemannInt_P26. Qed.

Lemma gauss_int_swap a b : gauss_int a b = - gauss_int b a.
Proof. unfold gauss_int. apply RiemannInt_P8. Qed.

Lemma gauss_int_refl a : gauss_int a a = 0.
Proof. generalize (gauss_int_swap a a). lra. Qed.

(** The density is even, so its integral over [[-c, 0]] is the one over
    [[0, c]]: both [y |-> int_(-c)^y] and [y |-> - int_(-c)^(-y)] are
    primitives of the density on [[-c, c]], hence differ by a constant. *)
Lemma gauss_int_symmetric c : 0 <= c -> gauss_int 0 (- c) = - gauss_int 0 c.
Proof.
  intros c_nonneg.
  assert (lo_le_hi : - c <= c) by lra.
  assert (C0 : forall x : R, - c <= x <= c -> continuity_pt norm_pdf x)
    by (intros; apply norm_pdf_continuity).
  pose (P := primitive lo_le_hi (FTC_P1 lo_le_hi C0)).
  assert (P_gauss : forall y, - c <= y <= c -> P y = gauss_int (- c) y).
  { intros y [H1 H2]. unfold P, primitive.
    destruct (Rle_dec (- c) y); [| lra].
    destruct (Rle_dec y c); [| lra].
    unfold gauss_int. apply RiemannInt_P5. }
  pose (Q := opp_fct (mirr_fct P)).
  assert (Q_primitive : antiderivative norm_pdf Q (- c) c).
  { split; [| exact lo_le_hi].
    intros x Hx.
    assert (Hd : derivable_pt_lim Q x (norm_pdf x)).
    { unfold Q. apply derivable_pt_lim_opp_fwd, derivable_pt_lim_mirr_fwd.
      rewrite Ropp_involutive, <- norm_pdf_even.
      apply RiemannInt_P28. lra. }
    exists (exist _ _ Hd). reflexivity. }
  pose proof (RiemannInt_P29 lo_le_hi C0) as HP. fold P in HP.
  destruct (antiderivative_Ucte _ _ _ _ _ HP Q_primitive) as [k Hk].
  assert (Hc := Hk c ltac:(lra)).
  assert (H0 := Hk 0 ltac:(lra)).
  unfold Q, opp_fct, mirr_fct in Hc, H0.
  rewrite Ropp_0 in H0.
  rewrite (P_gauss c), (P_gauss (- c)) in Hc by lra.
  rewrite (P_gauss 0) in H0 by lra.
  rewrite gauss_int_refl in Hc.
  pose proof (gauss_int_chasles (- c) 0 c).
  pose proof (gauss_int_swap 0 (- c)).
  lra.
Qed.

Lemma gauss_int_odd x : gauss_int 0 (- x) = - gauss_int 0 x.
Proof.
  destruct (Rle_dec 0 x) as [H | H].
  - apply gauss_int_symmetric; exact H.
  - assert (Hx : 0 <= - x) by lra.
    pose proof (gauss_int_symmetric (- x) Hx) as Hs.
    rewrite Ropp_involutive in Hs. lra.
Qed.

Lemma norm_cdf_symmetric x : norm_cdf (- x) = 1 - norm_cdf x.
Proof. unfold norm_cdf. rewrite gauss_int_odd. lra. Qed.


(** ** The pricing formulas on valid inputs *)

Lemma guard_valid S K T sigma :
  0 < S -> 0 < K -> 0 < T -> 0 < sigma ->
  (S <=? 0) || (K <=? 0) || (T <=? 0) || (sigma <=? 0) = false.
Proof. intros. rewrite !Rleb_false by assumption. reflexivity. Qed.

Lemma guard_degenerate S K T sigma :
  S <= 0 \/ K <= 0 \/ T <= 0 \/ sigma <= 0 ->
  (S <=? 0) || (K <=? 0) || (T <=? 0) || (sigma <=? 0) = true.
Proof.
  intros [H | [H | [H | H]]]; rewrite (Rleb_true _ _ H);
    rewrite ?orb_true_r; reflexivity.
Qed.

Lemma black_scholes_valid S K T r sigma option_type :
  0 < S -> 0 < K -> 0 < T -> 0 < sigma ->
  black_scholes S K T r sigma option_type =
  Ok (if is_call option_type then call_price S K T r sigma
      else put_price S K T r sigma).
Proof.
  intros HS HK HT Hs. unfold black_scholes.
  rewrite guard_valid by assumption.
  assert (Hrt : 0 < sqrt T) by (apply sqrt_lt_R0; assumption).
  rewrite py_div_ok by lra. cbn [bind].
  rewrite math_log_ok by (apply Rdiv_lt_0_compat; assumption). cbn [bind].
  rewrite math_sqrt_ok by lra. cbn [bind].
  rewrite py_div_ok by (apply Rgt_not_eq, Rmult_lt_0_compat; assumption).
  cbn [bind]. destruct (is_call option_type); reflexivity.
Qed.

Lemma black_scholes_total S K T r sigma option_type :
  exists price, black_scholes S K T r sigma option_type = Ok price.
Proof.
  destruct (Rle_dec S 0); [| destruct (Rle_dec K 0);
    [| destruct (Rle_dec T 0); [| destruct (Rle_dec sigma 0)]]];
    try (exists 0; unfold black_scholes; rewrite guard_degenerate; [reflexivity | tauto]).
  eexists. apply black_scholes_valid; lra.
Qed.

Lemma is_call_literal : is_call "call" = true.
Proof. reflexivity. Qed.

Lemma is_call_put_literal : is_call "put" = false.
Proof. reflexivity. Qed.

Lemma is_call_iff option_type : is_call option_type = true <-> lower option_type = "call"%string.
Proof. unfold is_call. apply String.eqb_eq. Qed.

Lemma is_call_false_iff option_type :
  is_call option_type = false <-> lower option_type <> "call"%string.
Proof. unfold is_call. apply String.eqb_neq. Qed.

Lemma calculate_greeks_valid S K T r sigma option_type :
  0 < S -> 0 < K -> 0 < T -> 0 < sigma ->
  calculate_greeks S K T r sigma option_type =
  Ok (greeks_closed_form S K T r sigma (is_call option_type)).
Proof.
  intros HS HK HT Hs. unfold calculate_greeks.
  rewrite guard_valid by assumption.
  assert (Hrt : 0 < sqrt T) by (apply sqrt_lt_R0; assumption).
  assert (Hsr : 0 < sigma * sqrt T) by (apply Rmult_lt_0_compat; assumption).
  rewrite math_sqrt_ok by lra. cbn [bind].
  rewrite py_div_ok by lra. cbn [bind].
  rewrite math_log_ok by (apply Rdiv_lt_0_compat; assumption). cbn [bind].
  rewrite py_div_ok by lra. cbn [bind].
  rewrite py_div_ok.
  2:{ apply Rgt_not_eq. rewrite Rmult_assoc. apply Rmult_lt_0_compat; assumption. }
  cbn [bind]. rewrite py_div_ok by lra. cbn [bind].
  unfold greeks_closed_form. destruct (is_call option_type); reflexivity.
Qed.

Lemma calculate_greeks_total S K T r sigma option_type :
  exists g, calculate_greeks S K T r sigma option_type = Ok g.
Proof.
  destruct (Rle_dec S 0); [| destruct (Rle_dec K 0);
    [| destruct (Rle_dec T 0); [| destruct (Rle_dec sigma 0)]]];
    try (exists Greeks.zero; unfold calculate_greeks;
         rewrite guard_degenerate; [reflexivity | tauto]).
  eexists. apply calculate_greeks_valid; lra.
Qed.

(* ------------------------------------------------------------------ *)
(** ** C1: put-call parity *)

Lemma parity_exact S K T r sigma :
  call_price S K T r sigma - put_price S K T r sigma = S - K * exp (- r * T).
Proof.
  unfold call_price, put_price. rewrite !norm_cdf_symmetric. ring.
Qed.

(** C1. On every valid input the call price minus the put price returned
    by [black_scholes] is [S - K * exp (- r * T)]: neither call raises, the
    difference is exact over the reals, hence within 1e-6. *)
Theorem put_call_parity (S K T r sigma : R) :
  0 < S -> 0 < K -> 0 < T -> 0 < sigma ->
  exists c p,
    black_scholes S K T r sigma "call" = Ok c /\
    black_scholes S K T r sigma "put" = Ok p /\
    c - p = S - K * exp (- r * T) /\
    Rabs ((c - p) - (S - K * exp (- r * T))) < 0.000001.
Proof.
  intros HS HK HT Hs.
  exists (call_price S K T r sigma), (put_price S K T r sigma).
  rewrite !black_scholes_valid by assumption.
  rewrite is_call_literal, is_call_put_literal.
  repeat split; try reflexivity.
  - apply parity_exact.
  - rewrite parity_exact, Rminus_diag, Rabs_R0. lra.
Qed.

Lemma put_call_parity_witness :
  (0 < 100 /\ 0 < 100 /\ 0 < 30 / 365 /\ 0 < 0.2) /\
  exists c p,
    black_scholes 100 100 (30 / 365) 0.02 0.2 "call" = Ok c /\
    black_scholes 100 100 (30 / 365) 0.02 0.2 "put" = Ok p /\
    c - p = 100 - 100 * exp (- (0.02) * (30 / 365)) /\
    Rabs ((c - p) - (100 - 100 * exp (- (0.02) * (30 / 365)))) < 0.000001.
Proof.
  split; [lra |].
  apply (put_call_parity 100 100 (30 / 365) 0.02 0.2); lra.
Defined.

(* ------------------------------------------------------------------ *)
(** ** C3: degenerate inputs *)

(** C3. When the spot, the strike, the time to expiry or the volatility is
    not positive, [black_scholes] returns exactly 0 and [calculate_greeks]
    a bundle whose five entries are exactly 0, whatever the rate and the
    style; both return normally. *)
Theorem degenerate_inputs_zero (S K T r sigma : R) (option_type : string) :
  S <= 0 \/ K <= 0 \/ T <= 0 \/ sigma <= 0 ->
  black_scholes S K T r sigma option_type = Ok 0 /\
  exists g,
    calculate_greeks S K T r sigma option_type = Ok g /\
    Greeks.delta g = 0 /\ Greeks.gamma g = 0 /\ Greeks.theta g = 0 /\
    Greeks.vega g = 0 /\ Greeks.rho g = 0.
Proof.
  intros H. unfold black_scholes, calculate_greeks.
  rewrite (guard_degenerate _ _ _ _ H). split; [reflexivity |].
  exists Greeks.zero. repeat split.
Qed.

Lemma degenerate_inputs_zero_witness :
  (100 <= 0 \/ 100 <= 0 \/ 0 <= 0 \/ 0.2 <= 0) /\
  black_scholes 100 100 0 0.02 0.2 "put" = Ok 0 /\
  exists g,
    calculate_greeks 100 100 0 0.02 0.2 "put" = Ok g /\
    Greeks.delta g = 0 /\ Greeks.gamma g = 0 /\ Greeks.theta g = 0 /\
    Greeks.vega g = 0 /\ Greeks.rho g = 0.
Proof.
  assert (H : 100 <= 0 \/ 100 <= 0 \/ 0 <= 0 \/ 0.2 <= 0) by (right; right; left; lra).
  split; [exact H |].
  exact (degenerate_inputs_zero 100 100 0 0.02 0.2 "put" H).
Defined.

(* ------------------------------------------------------------------ *)
(** ** C10: dispatch on the option type *)

Example lower_Call : lower "Call" = "call"%string.
Proof. reflexivity. Qed.

Example lower_CALL : lower "CALL" = "call"%string.
Proof. reflexivity. Qed.

Example is_call_Put : is_call "Put" = false.
Proof. reflexivity. Qed.

Example is_call_PUT : is_call "PUT" = false.
Proof. reflexivity. Qed.

Example is_call_empty : is_call "" = false.
Proof. reflexivity. Qed.

Example is_call_unrecognized : is_call "straddle" = false.
Proof. reflexivity. Qed.

(** Both functions look at the option type through [is_call] only. *)
Lemma black_scholes_by_style S K T r sigma option_type option_type' :
  is_call option_type = is_call option_type' ->
  black_scholes S K T r sigma option_type = black_scholes S K T r sigma option_type'.
Proof. intros H. unfold black_scholes. rewrite H. reflexivity. Qed.

Lemma calculate_greeks_by_style S K T r sigma option_type option_type' :
  is_call option_type = is_call option_type' ->
  calculate_greeks S K T r sigma option_type = calculate_greeks S K T r sigma option_type'.
Proof. intros H. unfold calculate_greeks. rewrite H. reflexivity. Qed.

(** C10. The call branch of [black_scholes] and [calculate_greeks] is taken
    exactly when the lowercased option type is ["call"]. Any other string
    is handled as ["put"] and no error is raised: on valid inputs the price
    is the put price, and delta, theta and rho are the put ones. ["Put"],
    ["PUT"], the empty string and an unrecognized word are such strings. *)
Theorem option_type_dispatch (S K T r sigma : R) (option_type : string) :
  (lower option_type = "call"%string ->
   black_scholes S K T r sigma option_type = black_scholes S K T r sigma "call" /\
   calculate_greeks S K T r sigma option_type = calculate_greeks S K T r sigma "call") /\
  (lower option_type <> "call"%string ->
   black_scholes S K T r sigma option_type = black_scholes S K T r sigma "put" /\
   calculate_greeks S K T r sigma option_type = calculate_greeks S K T r sigma "put" /\
   exists price g,
     black_scholes S K T r sigma option_type = Ok price /\
     calculate_greeks S K T r sigma option_type = Ok g) /\
  (0 < S -> 0 < K -> 0 < T -> 0 < sigma ->
   (lower option_type = "call"%string ->
    black_scholes S K T r sigma option_type = Ok (call_price S K T r sigma) /\
    calculate_greeks S K T r sigma option_type =
    Ok (greeks_closed_form S K T r sigma true)) /\
   (lower option_type <> "call"%string ->
    black_scholes S K T r sigma option_type = Ok (put_price S K T r sigma) /\
    exists g,
      calculate_greeks S K T r sigma option_type = Ok g /\
      Greeks.delta g = - norm_cdf (- bs_d1 S K T r sigma) /\
      Greeks.theta g =
        (- (S * sigma * norm_pdf (bs_d1 S K T r sigma)) / (2 * sqrt T)
         + r * K * exp (- r * T) * norm_cdf (- bs_d2 S K T r sigma)) / 365 /\
      Greeks.rho g =
        - K * T * exp (- r * T) * norm_cdf (- bs_d2 S K T r sigma) / 100)) /\
  lower "Put" <> "call"%string /\ lower "PUT" <> "call"%string /\
  lower "" <> "call"%string /\ lower "straddle" <> "call"%string.
Proof.
  split; [| split; [| split]].
  - intros Hc. apply is_call_iff in Hc.
    split; [apply black_scholes_by_style | apply calculate_greeks_by_style];
      rewrite Hc; reflexivity.
  - intros Hc. apply is_call_false_iff in Hc.
    split; [| split].
    + apply black_scholes_by_style. rewrite Hc. reflexivity.
    + apply calculate_greeks_by_style. rewrite Hc. reflexivity.
    + destruct (black_scholes_total S K T r sigma option_type) as [price Hp].
      destruct (calculate_greeks_total S K T r sigma option_type) as [g Hg].
      exists price, g. split; assumption.
  - intros HS HK HT Hs. split.
    + intros Hc. apply is_call_iff in Hc.
      rewrite black_scholes_valid, calculate_greeks_valid by assumption.
      rewrite Hc. split; reflexivity.
    + intros Hc. apply is_call_false_iff in Hc.
      rewrite black_scholes_valid, calculate_greeks_valid by assumption.
      rewrite Hc. split; [reflexivity |].
      eexists. split; [reflexivity |]. cbn. repeat split.
  - repeat split; discriminate.
Qed.

Lemma option_type_dispatch_witness :
  lower "PUT" <> "call"%string /\
  black_scholes 100 100 1 0.02 0.2 "PUT" = black_scholes 100 100 1 0.02 0.2 "put" /\
  calculate_greeks 100 100 1 0.02 0.2 "PUT" = calculate_greeks 100 100 1 0.02 0.2 "put" /\
  black_scholes 100 100 1 0.02 0.2 "PUT" = Ok (put_price 100 100 1 0.02 0.2).
Proof.
  assert (Hne : lower "PUT" <> "call"%string) by discriminate.
  split; [exact Hne |].
  destruct (option_type_dispatch 100 100 1 0.02 0.2 "PUT") as [_ [Hput [Hvalid _]]].
  destruct (Hput Hne) as [Hbs [Hg _]].
  destruct (Hvalid ltac:(lra) ltac:(lra) ltac:(lra) ltac:(lra)) as [_ Hform].
  destruct (Hform Hne) as [Hprice _].
  repeat split; assumption.
Defined.

(* ------------------------------------------------------------------ *)
(** ** C4: boundary policy of the implied-volatility solver *)

Lemma calculate_iv_below_intrinsic market_price S K T r option_type precision n :
  market_price < iv_intrinsic S K option_type ->
  calculate_iv market_price S K T r option_type precision n = Ok 0.
Proof.
  unfold iv_intrinsic, calculate_iv. rewrite !py_max_Rmax.
  destruct (is_call option_type); intros H; rewrite (Rltb_true _ _ H);
    f_equal; lra.
Qed.

Lemma calculate_iv_above_cap market_price S K T r option_type precision n :
  iv_intrinsic S K option_type <= market_price ->
  iv_cap S K option_type < market_price ->
  calculate_iv market_price S K T r option_type precision n = Ok 5.
Proof.
  unfold iv_intrinsic, iv_cap, calculate_iv. rewrite !py_max_Rmax.
  destruct (is_call option_type); intros H1 H2;
    rewrite (Rltb_false _ _ H1), (Rltb_true _ _ H2); f_equal; lra.
Qed.

(** With a non-negative spot and strike the cap is never below the
    intrinsic value, so the two boundary tests cannot both fire. *)
Lemma iv_intrinsic_le_cap S K option_type :
  0 <= S -> 0 <= K -> iv_intrinsic S K option_type <= iv_cap S K option_type.
Proof.
  intros HS HK. unfold iv_intrinsic, iv_cap.
  destruct (is_call option_type); apply Rmax_lub; lra.
Qed.

(** C4, as the code has it. The intrinsic-value test comes first: a market
    price strictly below the intrinsic value gives 0; a market price that
    is not below the intrinsic value and strictly above the spot (call) or
    the strike (put) gives the upper bound 5.0. Neither case raises. When
    spot and strike are non-negative the second case needs no side
    condition. *)
Theorem calculate_iv_boundary_policy
    (market_price S K T r : R) (option_type : string) (precision : R)
    (max_iterations : Z) :
  (market_price < iv_intrinsic S K option_type ->
   calculate_iv market_price S K T r option_type precision max_iterations = Ok 0) /\
  (iv_intrinsic S K option_type <= market_price ->
   iv_cap S K option_type < market_price ->
   calculate_iv market_price S K T r option_type precision max_iterations = Ok 5) /\
  (0 <= S -> 0 <= K ->
   iv_cap S K option_type < market_price ->
   calculate_iv market_price S K T r option_type precision max_iterations = Ok 5).
Proof.
  split; [| split].
  - apply calculate_iv_below_intrinsic.
  - apply calculate_iv_above_cap.
  - intros HS HK Hcap. apply calculate_iv_above_cap; [| exact Hcap].
    pose proof (iv_intrinsic_le_cap S K option_type HS HK). lra.
Qed.

Lemma calculate_iv_boundary_policy_witness :
  (3 < iv_intrinsic 110 100 "call" /\
   calculate_iv 3 110 100 1 0.02 "call" default_precision default_max_iterations = Ok 0) /\
  (iv_intrinsic 100 110 "put" <= 120 /\ iv_cap 100 110 "put" < 120 /\
   calculate_iv 120 100 110 1 0.02 "put" default_precision default_max_iterations = Ok 5).
Proof.
  assert (H1 : 3 < iv_intrinsic 110 100 "call").
  { unfold iv_intrinsic. rewrite is_call_literal. unfold Rmax.
    destruct (Rle_dec 0 (110 - 100)); lra. }
  assert (H2 : iv_intrinsic 100 110 "put" <= 120).
  { unfold iv_intrinsic. rewrite is_call_put_literal. unfold Rmax.
    destruct (Rle_dec 0 (110 - 100)); lra. }
  assert (H3 : iv_cap 100 110 "put" < 120).
  { unfold iv_cap. rewrite is_call_put_literal. lra. }
  split.
  - split; [exact H1 |].
    exact (proj1 (calculate_iv_boundary_policy 3 110 100 1 0.02 "call"
                    default_precision default_max_iterations) H1).
  - split; [exact H2 |]. split; [exact H3 |].
    exact (proj1 (proj2 (calculate_iv_boundary_policy 120 100 110 1 0.02 "put"
                           default_precision default_max_iterations)) H2 H3).
Defined.

(** The claim as worded fails where both tests would fire: a call at spot
    10 and strike -5 quoted at 12 is above the spot, yet below the
    intrinsic value 15, and the solver answers 0, not 5.0. *)
Lemma calculate_iv_cap_counterexample :
  iv_cap 10 (-5) "call" < 12 /\
  calculate_iv 12 10 (-5) 1 0.02 "call" default_precision default_max_iterations = Ok 0 /\
  calculate_iv 12 10 (-5) 1 0.02 "call" default_precision default_max_iterations <> Ok 5.
Proof.
  assert (H : calculate_iv 12 10 (-5) 1 0.02 "call" default_precision
                default_max_iterations = Ok 0).
  { apply calculate_iv_below_intrinsic. unfold iv_intrinsic.
    rewrite is_call_literal. unfold Rmax. destruct (Rle_dec 0 (10 - -5)); lra. }
  split; [unfold iv_cap; rewrite is_call_literal; lra |].
  split; [exact H |].
  rewrite H. intros E. inversion E. lra.
Qed.

(** ** Monotonicity of the price in the volatility *)

Lemma norm_cdf_derivative x : derivable_pt_lim norm_cdf x (norm_pdf x).
Proof.
  assert (h : x - 1 <= x + 1) by lra.
  assert (C0 : forall y : R, x - 1 <= y <= x + 1 -> continuity_pt norm_pdf y)
    by (intros; apply norm_pdf_continuity).
  pose (P := primitive h (FTC_P1 h C0)).
  pose (k := 1 / 2 + gauss_int 0 (x - 1)).
  apply (derivable_pt_lim_locally_ext (fct_cte k + P)%F norm_cdf x (x - 1) (x + 1));
    [lra | |].
  - intros z Hz. unfold plus_fct, fct_cte, P, primitive, k, norm_cdf.
    destruct (Rle_dec (x - 1) z); [| lra].
    destruct (Rle_dec z (x + 1)); [| lra].
    rewrite <- (gauss_int_chasles 0 (x - 1) z). unfold gauss_int at 3.
    rewrite (RiemannInt_P5 (norm_pdf_integrable (x - 1) z) (FTC_P1 h C0 r r0)).
    ring.
  - replace (norm_pdf x) with (0 + norm_pdf x) by ring.
    apply derivable_pt_lim_plus.
    + apply derivable_pt_lim_const.
    + apply RiemannInt_P28. lra.
Qed.

Section Vega.
Variables S K T r : R.
Hypothesis S_pos : 0 < S.
Hypothesis K_pos : 0 < K.
Hypothesis T_pos : 0 < T.

Lemma sqrt_T_pos : 0 < sqrt T.
Proof. apply sqrt_lt_R0; exact T_pos. Qed.

Lemma sqrt_T_sqr : sqrt T * sqrt T = T.
Proof. apply sqrt_sqrt. lra. Qed.

Lemma bs_d1_split sigma :
  0 < sigma ->
  bs_d1 S K T r sigma
  = (ln (S / K) + r * T) / sqrt T / sigma + sqrt T / 2 * sigma.
Proof.
  intros Hs. unfold bs_d1. pose proof sqrt_T_pos as Hp.
  pose proof sqrt_T_sqr as Hq. set (s := sqrt T) in *.
  rewrite <- Hq. field. lra.
Qed.

(** [K * exp(-rT) * pdf(d2) = S * pdf(d1)]. *)
Lemma pdf_d1_d2 sigma :
  0 < sigma ->
  K * exp (- r * T) * norm_pdf (bs_d2 S K T r sigma)
  = S * norm_pdf (bs_d1 S K T r sigma).
Proof.
  intros Hs.
  assert (Hc := sqrt_2PI_pos).
  pose proof sqrt_T_pos as Hp. pose proof sqrt_T_sqr as Hq.
  assert (Hd1 : bs_d1 S K T r sigma * (sigma * sqrt T)
                = ln S - ln K + r * T + sigma * sigma * T / 2).
  { rewrite (bs_d1_split sigma Hs).
    replace (ln (S / K)) with (ln S - ln K).
    2:{ unfold Rdiv. rewrite ln_mult, ln_Rinv
          by (try apply Rinv_0_lt_compat; assumption). ring. }
    set (s := sqrt T) in *. rewrite <- Hq. field. lra. }
  unfold bs_d2.
  set (d1 := bs_d1 S K T r sigma) in *. set (s := sqrt T) in *.
  assert (E : exp (ln K) * exp (- r * T)
              * exp (- ((d1 - sigma * s) * (d1 - sigma * s)) / 2)
              = exp (ln S) * exp (- (d1 * d1) / 2)).
  { rewrite <- !exp_plus. f_equal.
    replace ((d1 - sigma * s) * (d1 - sigma * s))
      with (d1 * d1 - 2 * (d1 * (sigma * s)) + sigma * sigma * (s * s)) by ring.
    rewrite Hd1, Hq. lra. }
  rewrite !exp_ln in E by assumption.
  unfold norm_pdf.
  transitivity
    (K * exp (- r * T) * exp (- ((d1 - sigma * s) * (d1 - sigma * s)) / 2)
     / sqrt (2 * PI)); [field; lra |].
  rewrite E. field. lra.
Qed.

(** The derivative of the call price in the volatility: the raw vega
    [S * pdf(d1) * sqrt T]. *)
Lemma call_price_derivative sigma :
  0 < sigma ->
  derivable_pt_lim (call_price S K T r) sigma
    (S * norm_pdf (bs_d1 S K T r sigma) * sqrt T).
Proof.
  intros Hs.
  pose (a := ln (S / K) + r * T). pose (s := sqrt T).
  pose (u := (fct_cte (a / s) / id + mult_real_fct (s / 2) id)%F).
  pose (v := (u - mult_real_fct s id)%F).
  pose (g := (mult_real_fct S (comp norm_cdf u)
              - mult_real_fct (K * exp (- r * T)) (comp norm_cdf v))%F).
  assert (Hu : forall x, 0 < x -> u x = bs_d1 S K T r x).
  { intros x Hx. rewrite (bs_d1_split x Hx). reflexivity. }
  assert (Hv : forall x, 0 < x -> v x = bs_d2 S K T r x).
  { intros x Hx. unfold v, minus_fct, bs_d2. rewrite (Hu x Hx).
    unfold mult_real_fct, id, s. ring. }
  apply (derivable_pt_lim_locally_ext g (call_price S K T r) sigma
           (sigma / 2) (sigma + 1)); [lra | |].
  - intros z Hz. assert (0 < z) by lra.
    unfold g, minus_fct, mult_real_fct, comp, call_price.
    rewrite Hu, Hv by assumption. reflexivity.
  - assert (Du : derivable_pt_lim u sigma
                   ((0 * id sigma - 1 * fct_cte (a / s) sigma) / Rsqr (id sigma)
                    + s / 2 * 1)).
    { unfold u. apply derivable_pt_lim_plus.
      - apply derivable_pt_lim_div;
          [apply derivable_pt_lim_const | apply derivable_pt_lim_id | unfold id; lra].
      - apply derivable_pt_lim_scal, derivable_pt_lim_id. }
    assert (Dv : derivable_pt_lim v sigma
                   ((0 * id sigma - 1 * fct_cte (a / s) sigma) / Rsqr (id sigma)
                    + s / 2 * 1 - s * 1)).
    { unfold v. apply derivable_pt_lim_minus; [exact Du |].
      apply derivable_pt_lim_scal, derivable_pt_lim_id. }
    pose proof (pdf_d1_d2 sigma Hs) as Hid.
    rewrite <- (Hu sigma Hs), <- (Hv sigma Hs) in Hid.
    rewrite <- (Hu sigma Hs). fold s.
    replace (S * norm_pdf (u sigma) * s) with
      (S * (norm_pdf (u sigma)
            * ((0 * id sigma - 1 * fct_cte (a / s) sigma) / Rsqr (id sigma)
               + s / 2 * 1))
       - K * exp (- r * T)
         * (norm_pdf (v sigma)
            * ((0 * id sigma - 1 * fct_cte (a / s) sigma) / Rsqr (id sigma)
               + s / 2 * 1 - s * 1))).
    2:{ rewrite <- !Rmult_assoc, Hid. ring. }
    unfold g. apply derivable_pt_lim_minus; apply derivable_pt_lim_scal;
      apply derivable_pt_lim_comp; try assumption; apply norm_cdf_derivative.
Qed.

Lemma call_price_increasing sigma1 sigma2 :
  0 < sigma1 -> sigma1 < sigma2 ->
  call_price S K T r sigma1 < call_price S K T r sigma2.
Proof.
  intros H1 H2.
  destruct (MVT_cor2 (call_price S K T r)
              (fun x => S * norm_pdf (bs_d1 S K T r x) * sqrt T) sigma1 sigma2 H2)
    as [c [Hc Hin]].
  { intros x Hx. apply call_price_derivative. lra. }
  assert (0 < S * norm_pdf (bs_d1 S K T r c) * sqrt T).
  { apply Rmult_lt_0_compat; [apply Rmult_lt_0_compat |];
      [exact S_pos | apply norm_pdf_pos | exact sqrt_T_pos]. }
  assert (0 < S * norm_pdf (bs_d1 S K T r c) * sqrt T * (sigma2 - sigma1))
    by (apply Rmult_lt_0_compat; lra).
  lra.
Qed.

Lemma put_price_increasing sigma1 sigma2 :
  0 < sigma1 -> sigma1 < sigma2 ->
  put_price S K T r sigma1 < put_price S K T r sigma2.
Proof.
  intros H1 H2.
  pose proof (call_price_increasing sigma1 sigma2 H1 H2).
  pose proof (parity_exact S K T r sigma1).
  pose proof (parity_exact S K T r sigma2).
  lra.
Qed.
End Vega.

(* ------------------------------------------------------------------ *)
(** ** C2: pricing followed by the implied-volatility solver *)

Lemma bs_price_increasing S K T r option_type sigma1 sigma2 :
  0 < S -> 0 < K -> 0 < T -> 0 < sigma1 -> sigma1 < sigma2 ->
  bs_price S K T r option_type sigma1 < bs_price S K T r option_type sigma2.
Proof.
  intros. unfold bs_price. destruct (is_call option_type);
    [apply call_price_increasing | apply put_price_increasing]; assumption.
Qed.

Lemma bisect_step n market_price S K T r option_type precision vol_low vol_high :
  bisect (Datatypes.S n) market_price S K T r option_type precision vol_low vol_high =
  (price <- black_scholes S K T r ((vol_low + vol_high) / 2) option_type ;;
   if Rabs (price - market_price) <? precision then Ok ((vol_low + vol_high) / 2)
   else if price <? market_price then
     bisect n market_price S K T r option_type precision
            ((vol_low + vol_high) / 2) vol_high
   else
     bisect n market_price S K T r option_type precision
            vol_low ((vol_low + vol_high) / 2)).
Proof. reflexivity. Qed.


Lemma calculate_iv_in_range market_price S K T r option_type precision n :
  iv_intrinsic S K option_type <= market_price <= iv_cap S K option_type ->
  calculate_iv market_price S K T r option_type precision n =
  bisect (Z.to_nat n) market_price S K T r option_type precision 0.001 5.0.
Proof.
  unfold iv_intrinsic, iv_cap, calculate_iv. rewrite !py_max_Rmax.
  destruct (is_call option_type); intros [H1 H2];
    rewrite (Rltb_false _ _ H1), (Rltb_false _ _ H2); reflexivity.
Qed.













(* ------------------------------------------------------------------ *)
(** ** C7: the strike ladder *)

Lemma round_half_even_bounds y :
  IZR (round_half_even y) - 1 / 2 <= y <= IZR (round_half_even y) + 1 / 2.
Proof.
  unfold round_half_even.
  destruct (base_Int_part y) as [Hlo Hhi].
  set (f := Int_part y) in *.
  destruct (Rltb_spec (y - IZR f) (1 / 2)).
  - lra.
  - destruct (Rltb_spec (1 / 2) (y - IZR f)).
    + rewrite plus_IZR. lra.
    + destruct (Z.even f); [| rewrite plus_IZR]; lra.
Qed.

Lemma IZR_within_one m n : IZR m - IZR n < 1 -> IZR n - IZR m < 1 -> m = n.
Proof.
  intros H1 H2.
  assert (m < n + 1)%Z by (apply lt_IZR; rewrite plus_IZR; lra).
  assert (n < m + 1)%Z by (apply lt_IZR; rewrite plus_IZR; lra).
  lia.
Qed.

Lemma round_half_even_near y n :
  IZR n - 1 / 2 < y < IZR n + 1 / 2 -> round_half_even y = n.
Proof.
  intros H. pose proof (round_half_even_bounds y).
  apply IZR_within_one; lra.
Qed.

Lemma round_half_even_mono x y : x <= y -> (round_half_even x <= round_half_even y)%Z.
Proof.
  intros [Hlt | Heq]; [| subst; lia].
  pose proof (round_half_even_bounds x). pose proof (round_half_even_bounds y).
  assert (round_half_even x < round_half_even y + 1)%Z; [| lia].
  apply lt_IZR. rewrite plus_IZR. lra.
Qed.





Lemma chain_strikes_points underlying_price :
  chain_strikes underlying_price = map (ladder_point underlying_price) (seq 0 9).
Proof.
  unfold chain_strikes, linspace, ladder_point.
  cbn [Nat.sub seq map app].
  repeat (f_equal; [f_equal; simpl INR; lra |]).
  f_equal. f_equal. simpl INR. lra.
Qed.

Lemma chain_strikes_length underlying_price :
  List.length (chain_strikes underlying_price) = 9%nat.
Proof. rewrite chain_strikes_points. reflexivity. Qed.




Lemma mapM_total {A B : Type} (f : A -> result B) (P : A -> B -> Prop) (l : list A) :
  (forall a, exists b, f a = Ok b /\ P a b) ->
  exists bs, mapM f l = Ok bs /\ Forall2 P l bs.
Proof.
  intros Hf. induction l as [| a l IH]; cbn [mapM].
  - exists []. split; [reflexivity | constructor].
  - destruct (Hf a) as [b [Hb HP]]. destruct IH as [bs [Hbs HF]].
    exists (b :: bs). rewrite Hb, Hbs. split; [reflexivity | constructor; assumption].
Qed.

Lemma chain_row_total underlying_price T risk_free_rate volatility strike :
  exists row,
    chain_row underlying_price T risk_free_rate volatility strike = Ok row /\
    Contract.strike (fst row) = strike /\ Contract.strike (snd row) = strike.
Proof.
  unfold chain_row.
  destruct (black_scholes_total underlying_price strike T risk_free_rate volatility "call")
    as [cp ->].
  destruct (calculate_greeks_total underlying_price strike T risk_free_rate volatility "call")
    as [cg ->].
  destruct (black_scholes_total underlying_price strike T risk_free_rate volatility "put")
    as [pp ->].
  destruct (calculate_greeks_total underlying_price strike T risk_free_rate volatility "put")
    as [pg ->].
  cbn [bind]. eexists. split; [reflexivity |]. split; reflexivity.
Qed.

(** [simulate_option_chain] always returns, with the ladder as the strikes
    of its calls and of its puts. *)
Lemma simulate_option_chain_total underlying_price days_to_expiry volatility risk_free_rate :
  exists chain,
    simulate_option_chain underlying_price days_to_expiry volatility risk_free_rate
    = Ok chain /\
    map Contract.strike (calls chain) = chain_strikes underlying_price /\
    map Contract.strike (puts chain) = chain_strikes underlying_price.
Proof.
  unfold simulate_option_chain.
  destruct (mapM_total
              (chain_row underlying_price (IZR days_to_expiry / 365.0)
                         risk_free_rate volatility)
              (fun k row => Contract.strike (fst row) = k /\ Contract.strike (snd row) = k)
              (chain_strikes underlying_price))
    as [rows [-> HF]].
  { intros k. apply chain_row_total. }
  cbn [bind]. eexists. split; [reflexivity |]. cbn [calls puts].
  induction HF as [| k row ks rows' [H1 H2] _ [IH1 IH2]]; cbn [map].
  - split; reflexivity.
  - rewrite H1, H2, IH1, IH2. split; reflexivity.
Qed.






(* ------------------------------------------------------------------ *)
(** ** C5: exit priority of the iron condor *)

Section IronCondorExit.
Import IronCondor.

Lemma find_closest_option_nonempty (l : list Contract.t) key target :
  l <> [] -> exists c, find_closest_option l key target = Some c.
Proof.
  destruct l as [| first l']; [congruence | intros _].
  cbn [find_closest_option]. eexists. reflexivity.
Qed.

Lemma chain_sides_nonempty underlying_price chain :
  map Contract.strike (calls chain) = chain_strikes underlying_price ->
  map Contract.strike (puts chain) = chain_strikes underlying_price ->
  calls chain <> [] /\ puts chain <> [].
Proof.
  intros Hc Hp.
  split; intros E; [rewrite E in Hc | rewrite E in Hp];
    [apply (f_equal (@List.length R)) in Hc | apply (f_equal (@List.length R)) in Hp];
    rewrite chain_strikes_length in *; discriminate.
Qed.

(** With an expiry date recorded, the status of the position is always
    computed: the chain is never empty and no lookup fails. *)
Lemma position_status_total st current_date current_price expiry :
  expiry_date st = Some expiry ->
  exists current_profit profit_pct,
    position_status st current_date current_price
    = Ok (Date.days_between expiry current_date, current_profit, profit_pct).
Proof.
  intros He. unfold position_status. rewrite He. cbn [bind].
  destruct (simulate_option_chain_total current_price
              (py_max_int 1 (Date.days_between expiry current_date))
              (iv_estimate st) 0.02) as [chain [-> [Hcs Hps]]].
  cbn [bind].
  destruct (chain_sides_nonempty _ _ Hcs Hps) as [Hc Hp].
  destruct (find_closest_option_nonempty (puts chain) Contract.strike
              (short_put_strike st) Hp) as [sp ->].
  destruct (find_closest_option_nonempty (puts chain) Contract.strike
              (long_put_strike st) Hp) as [lp ->].
  destruct (find_closest_option_nonempty (calls chain) Contract.strike
              (short_call_strike st) Hc) as [sc ->].
  destruct (find_closest_option_nonempty (calls chain) Contract.strike
              (long_call_strike st) Hc) as [lc ->].
  cbn [subscript bind].
  destruct (Rltb_spec 0 (max_profit st)) as [Hpos | Hneg].
  - rewrite py_div_ok by lra. cbn [bind]. eexists. eexists. reflexivity.
  - cbn [bind]. eexists. eexists. reflexivity.
Qed.

Lemma manage_iron_condor_decision p st current_date current_price
      days_left current_profit profit_pct :
  position_status st current_date current_price
  = Ok (days_left, current_profit, profit_pct) ->
  manage_iron_condor p st current_date current_price =
  match exit_decision p st days_left current_profit profit_pct with
  | Some reason =>
    Ok (close_iron_condor st,
        [LogStatus days_left current_profit profit_pct; LogClosing reason])
  | None => Ok (st, [LogStatus days_left current_profit profit_pct])
  end.
Proof. intros H. unfold manage_iron_condor. rewrite H. reflexivity. Qed.
End IronCondorExit.

(** C5. Let the monitoring step of an open iron condor see [days_left]
    days to expiry, a current profit and a profit fraction. The three exit
    triggers are tried in a fixed order and the first that holds decides:
    the days left being at most the exit threshold closes the position for
    approaching expiration, whatever the profit; failing that, a profit
    fraction at or above the target closes it for the profit target;
    failing that, a loss larger than the stop multiple of the maximum
    profit closes it for the stop loss; otherwise the position stays. In
    particular, when expiry proximity and profit target hold together, only
    the expiry branch fires. *)
Theorem exit_priority (p : IronCondor.Params) (st : IronCondor.State)
    (current_date : Date.t) (current_price : R)
    (days_left : Z) (current_profit profit_pct : R) :
  IronCondor.position_status st current_date current_price
  = Ok (days_left, current_profit, profit_pct) ->
  let status := IronCondor.LogStatus days_left current_profit profit_pct in
  let closed reason :=
    Ok (IronCondor.close_iron_condor st, [status; IronCondor.LogClosing reason]) in
  let result := IronCondor.manage_iron_condor p st current_date current_price in
  ((days_left <= IronCondor.exit_days_left p)%Z ->
   result = closed (IronCondor.ApproachingExpiration days_left)) /\
  ((days_left <= IronCondor.exit_days_left p)%Z ->
   IronCondor.profit_target_pct p <= profit_pct ->
   result = closed (IronCondor.ApproachingExpiration days_left) /\
   result <> closed (IronCondor.ProfitTargetReached profit_pct)) /\
  ((IronCondor.exit_days_left p < days_left)%Z ->
   IronCondor.profit_target_pct p <= profit_pct ->
   result = closed (IronCondor.ProfitTargetReached profit_pct)) /\
  ((IronCondor.exit_days_left p < days_left)%Z ->
   profit_pct < IronCondor.profit_target_pct p ->
   current_profit < 0 ->
   IronCondor.max_profit st * IronCondor.loss_stop_pct p < Rabs current_profit ->
   result = closed (IronCondor.StopLossTriggered current_profit)) /\
  ((IronCondor.exit_days_left p < days_left)%Z ->
   profit_pct < IronCondor.profit_target_pct p ->
   ~ (current_profit < 0 /\
      IronCondor.max_profit st * IronCondor.loss_stop_pct p < Rabs current_profit) ->
   result = Ok (st, [status])).
Proof.
  intros Hstatus status closed result.
  unfold result. rewrite (manage_iron_condor_decision _ _ _ _ _ _ _ Hstatus).
  unfold IronCondor.exit_decision, closed, status.
  assert (Hexp : (days_left <= IronCondor.exit_days_left p)%Z ->
                 (days_left <=? IronCondor.exit_days_left p)%Z = true)
    by (intros; apply Z.leb_le; assumption).
  assert (Hnexp : (IronCondor.exit_days_left p < days_left)%Z ->
                  (days_left <=? IronCondor.exit_days_left p)%Z = false)
    by (intros; apply Z.leb_gt; assumption).
  split; [| split; [| split; [| split]]].
  - intros H. rewrite (Hexp H). reflexivity.
  - intros H _. rewrite (Hexp H). split; [reflexivity |].
    intros E. inversion E.
  - intros H1 H2. rewrite (Hnexp H1), (Rleb_true _ _ H2). reflexivity.
  - intros H1 H2 H3 H4.
    rewrite (Hnexp H1), (Rleb_false _ _ H2), (Rltb_true _ _ H3), (Rltb_true _ _ H4).
    reflexivity.
  - intros H1 H2 H3.
    rewrite (Hnexp H1), (Rleb_false _ _ H2).
    destruct (Rltb_spec current_profit 0) as [Hneg | Hneg]; [| reflexivity].
    destruct (Rltb_spec (IronCondor.max_profit st * IronCondor.loss_stop_pct p)
                        (Rabs current_profit)) as [Hloss | Hloss]; [| reflexivity].
    exfalso. apply H3. split; assumption.
Qed.

Lemma open_condor_status :
  exists current_profit profit_pct,
    IronCondor.position_status open_condor_example (Date.mk 2024 2 14) 100
    = Ok (2%Z, current_profit, profit_pct).
Proof.
  exact (position_status_total open_condor_example (Date.mk 2024 2 14) 100
           (Date.mk 2024 2 16) eq_refl).
Qed.

Lemma exit_priority_witness :
  exists current_profit profit_pct,
    IronCondor.position_status open_condor_example (Date.mk 2024 2 14) 100
    = Ok (2%Z, current_profit, profit_pct) /\
    (2 <= IronCondor.exit_days_left IronCondor.default_params)%Z /\
    IronCondor.manage_iron_condor IronCondor.default_params open_condor_example
                                  (Date.mk 2024 2 14) 100
    = Ok (IronCondor.close_iron_condor open_condor_example,
          [IronCondor.LogStatus 2 current_profit profit_pct;
           IronCondor.LogClosing (IronCondor.ApproachingExpiration 2)]).
Proof.
  destruct (open_condor_status) as [cp [pct H]].
  exists cp, pct.
  assert (Hd : (2 <= IronCondor.exit_days_left IronCondor.default_params)%Z)
    by (cbn; lia).
  split; [exact H |]. split; [exact Hd |].
  exact (proj1 (exit_priority IronCondor.default_params open_condor_example
                  (Date.mk 2024 2 14) 100 2 cp pct H) Hd).
Defined.

(* ------------------------------------------------------------------ *)
(** ** C6: sizing and margin check of the short put *)


(** Outside an uptrend nothing is attempted. *)
Lemma consider_new_position_no_trend p st m current_price :
  current_price <= PutSelling.sma m ->
  PutSelling.consider_new_position p st m current_price = Ok (st, []).
Proof.
  intros H. unfold PutSelling.consider_new_position.
  rewrite (Rltb_false _ _ H). reflexivity.
Qed.

(** With a zero risk per contract the sizing division fails and the entry
    raises: the case the sizing formula leaves undefined. *)
Lemma consider_new_position_zero_risk p st m current_price :
  PutSelling.sma m < current_price ->
  (current_price * (1 - PutSelling.put_delta p)
   - current_price * 0.2 * 1.0 * PutSelling.put_delta p) * 100 = 0 ->
  PutSelling.consider_new_position p st m current_price = Raise ZeroDivisionError.
Proof.
  intros Htrend Hzero. unfold PutSelling.consider_new_position.
  rewrite (Rltb_true _ _ Htrend). unfold py_div.
  destruct (Req_dec_T _ 0) as [_ | Hne]; [reflexivity | contradiction].
Qed.


(* ------------------------------------------------------------------ *)
(** ** The volatility estimator inside [next] *)

Lemma mapM_ok {A B : Type} (f : A -> result B) (g : A -> B) (l : list A) :
  (forall a, In a l -> f a = Ok (g a)) -> mapM f l = Ok (map g l).
Proof.
  induction l as [| a l IH]; intros Hf; cbn [mapM map]; [reflexivity |].
  rewrite (Hf a (or_introl eq_refl)). cbn [bind].
  rewrite IH by (intros; apply Hf; right; assumption). reflexivity.
Qed.

Lemma mapM_inv {A B : Type} (f : A -> result B) (g : A -> B) (l : list A) bs :
  (forall a b, In a l -> f a = Ok b -> b = g a) ->
  mapM f l = Ok bs -> bs = map g l.
Proof.
  revert bs. induction l as [| a l IH]; intros bs Hf H; cbn [mapM map] in *.
  - inversion H. reflexivity.
  - destruct (f a) as [b |] eqn:Hb; cbn [bind] in H; [| discriminate].
    destruct (mapM f l) as [bs' |] eqn:Hbs; cbn [bind] in H; [| discriminate].
    inversion H; subst. f_equal.
    + apply Hf; [left; reflexivity | exact Hb].
    + apply IH; [| reflexivity]. intros; apply Hf; [right |]; assumption.
Qed.

Lemma neg_index_ok l i :
  (1 <= i <= List.length l)%nat -> neg_index l i = Ok (nth (List.length l - i) l 0).
Proof.
  intros Hi. unfold neg_index.
  destruct (Nat.leb_spec i (List.length l)); [| lia].
  rewrite (nth_error_nth' l 0) by lia. reflexivity.
Qed.

Lemma neg_index_inv l i x :
  neg_index l i = Ok x -> x = nth (List.length l - i) l 0.
Proof.
  unfold neg_index. destruct (Nat.leb_spec i (List.length l)) as [Hi | Hi];
    [| discriminate].
  destruct (nth_error l (List.length l - i)) as [y |] eqn:E; [| discriminate].
  intros Hx. inversion Hx; subst. symmetry. apply nth_error_nth. exact E.
Qed.

Lemma py_div_inv a b q : py_div a b = Ok q -> q = a / b /\ b <> 0.
Proof.
  unfold py_div. destruct (Req_dec_T b 0); [discriminate |].
  intros H. inversion H. split; [reflexivity | assumption].
Qed.

Lemma math_log_inv x y : math_log x = Ok y -> y = ln x /\ 0 < x.
Proof.
  unfold math_log. destruct (Rltb_spec 0 x); [| discriminate].
  intros H. inversion H. split; [reflexivity | assumption].
Qed.

Lemma math_sqrt_inv x y : math_sqrt x = Ok y -> y = sqrt x /\ 0 <= x.
Proof.
  unfold math_sqrt. destruct (Rleb_spec 0 x); [| discriminate].
  intros H. inversion H. split; [reflexivity | assumption].
Qed.

Lemma py_sum_shift l a : fold_left Rplus l a = a + py_sum l.
Proof.
  unfold py_sum. revert a. induction l as [| x l IH]; intros a; cbn [fold_left].
  - ring.
  - rewrite (IH (a + x)), (IH (0 + x)). ring.
Qed.

Lemma py_sum_cons x l : py_sum (x :: l) = x + py_sum l.
Proof. unfold py_sum at 1. cbn [fold_left]. rewrite py_sum_shift. ring. Qed.

Lemma py_sum_nonneg l : Forall (fun x => 0 <= x) l -> 0 <= py_sum l.
Proof.
  induction 1 as [| x l Hx _ IH]; [unfold py_sum; cbn; lra |].
  rewrite py_sum_cons. lra.
Qed.

Lemma py_sum_ge_elem l x : Forall (fun y => 0 <= y) l -> In x l -> x <= py_sum l.
Proof.
  induction 1 as [| y l Hy Hl IH]; intros Hin; [contradiction |].
  rewrite py_sum_cons. pose proof (py_sum_nonneg l Hl).
  destruct Hin as [-> | Hin]; [lra |]. specialize (IH Hin). lra.
Qed.

Section IronCondorVolatility.
Import IronCondor.

Lemma daily_returns_total h :
  (20 <= List.length h)%nat -> Forall (fun x => 0 < x) h ->
  daily_returns h = Ok (log_returns_20 h).
Proof.
  intros Hlen Hpos. unfold daily_returns, log_returns_20.
  apply mapM_ok. intros i Hi. apply in_seq in Hi.
  assert (Hnth : forall k, (k < List.length h)%nat -> 0 < nth k h 0).
  { intros k Hk. rewrite Forall_forall in Hpos. apply Hpos, nth_In, Hk. }
  rewrite !neg_index_ok by lia. cbn [bind].
  pose proof (Hnth (List.length h - i)%nat ltac:(lia)).
  pose proof (Hnth (List.length h - (i + 1))%nat ltac:(lia)).
  rewrite py_div_ok by lra. cbn [bind].
  apply math_log_ok. apply Rdiv_lt_0_compat; assumption.
Qed.

Lemma daily_returns_inv h rets :
  daily_returns h = Ok rets -> rets = log_returns_20 h.
Proof.
  unfold daily_returns, log_returns_20. apply mapM_inv.
  intros i b _ H.
  destruct (neg_index h i) as [x |] eqn:Hx; cbn [bind] in H; [| discriminate].
  destruct (neg_index h (i + 1)) as [y |] eqn:Hy; cbn [bind] in H; [| discriminate].
  destruct (py_div x y) as [q |] eqn:Hq; cbn [bind] in H; [| discriminate].
  apply neg_index_inv in Hx. apply neg_index_inv in Hy.
  apply py_div_inv in Hq. apply math_log_inv in H.
  destruct Hq as [-> _]. destruct H as [-> _]. subst. reflexivity.
Qed.

Lemma log_returns_20_length h : List.length (log_returns_20 h) = 19%nat.
Proof. unfold log_returns_20. rewrite length_map, length_seq. reflexivity. Qed.

Lemma sum_sq_dev_nonneg l : 0 <= sum_sq_dev l.
Proof.
  unfold sum_sq_dev. apply py_sum_nonneg. apply Forall_forall.
  intros y Hy. apply in_map_iff in Hy. destruct Hy as [x [<- _]].
  apply pow2_ge_0.
Qed.

(** What [calculate_historical_volatility] stores, when it returns. *)
Lemma calculate_historical_volatility_inv st st' :
  calculate_historical_volatility st = Ok st' ->
  ((List.length (close_hist st) < 20)%nat /\ st' = st) \/
  ((20 <= List.length (close_hist st))%nat /\
   st' = set_hv_20 st (population_std (log_returns_20 (close_hist st)) * sqrt 252)).
Proof.
  unfold calculate_historical_volatility.
  destruct (Nat.ltb_spec (List.length (close_hist st)) 20) as [Hlt | Hge].
  - intros H. injection H as <-. left. split; [assumption | reflexivity].
  - intros H. right. split; [assumption |].
    destruct (daily_returns (close_hist st)) as [rets |] eqn:Hr;
      cbn [bind] in H; [| discriminate].
    apply daily_returns_inv in Hr. subst rets.
    destruct (py_div (py_sum (log_returns_20 (close_hist st))) _)
      as [mu |] eqn:Hmu; cbn [bind] in H; [| discriminate].
    apply py_div_inv in Hmu. destruct Hmu as [-> _].
    fold (mean (log_returns_20 (close_hist st))) in H.
    fold (sum_sq_dev (log_returns_20 (close_hist st))) in H.
    destruct (py_div (sum_sq_dev (log_returns_20 (close_hist st))) _)
      as [var |] eqn:Hvar; cbn [bind] in H; [| discriminate].
    apply py_div_inv in Hvar. destruct Hvar as [-> _].
    destruct (math_sqrt (sum_sq_dev _ / _)) as [dv |] eqn:Hdv;
      cbn [bind] in H; [| discriminate].
    apply math_sqrt_inv in Hdv. destruct Hdv as [-> _].
    destruct (math_sqrt 252) as [an |] eqn:Han; cbn [bind] in H; [| discriminate].
    apply math_sqrt_inv in Han. destruct Han as [-> _].
    injection H as <-. reflexivity.
Qed.

Lemma calculate_historical_volatility_total st :
  Forall (fun x => 0 < x) (close_hist st) ->
  exists st', calculate_historical_volatility st = Ok st'.
Proof.
  intros Hpos. unfold calculate_historical_volatility.
  destruct (Nat.ltb_spec (List.length (close_hist st)) 20) as [Hlt | Hge];
    [eexists; reflexivity |].
  rewrite daily_returns_total by assumption. cbn [bind].
  rewrite log_returns_20_length.
  assert (H19 : INR 19 <> 0) by (apply not_0_INR; lia).
  rewrite py_div_ok by exact H19. cbn [bind].
  rewrite py_div_ok by exact H19. cbn [bind].
  rewrite math_sqrt_ok; cbn [bind].
  - rewrite math_sqrt_ok by lra. cbn [bind]. eexists; reflexivity.
  - pose proof (sum_sq_dev_nonneg (log_returns_20 (close_hist st))) as Hs.
    unfold sum_sq_dev, mean in Hs. rewrite log_returns_20_length in Hs.
    apply Rmult_le_pos; [exact Hs |].
    left. apply Rinv_0_lt_compat. apply lt_0_INR. lia.
Qed.
End IronCondorVolatility.

(** Case analysis on a computation known to return: every [bind], [if]
    and [match] on the way is split, and the cases that raise are
    dismissed. *)
Ltac returns_inv H :=
  repeat
    match type of H with
    | Ok _ = Ok _ => injection H as H
    | Raise _ = Ok _ => discriminate H
    | bind ?m _ = Ok _ =>
      let E := fresh "E" in
      destruct m eqn:E; cbn [bind] in H; [| discriminate H]
    | (if ?c then _ else _) = Ok _ =>
      let E := fresh "E" in destruct c eqn:E
    | match ?x with _ => _ end = Ok _ =>
      let E := fresh "E" in destruct x eqn:E
    end.

Section IronCondorFrame.
Import IronCondor.

Lemma same_readings_refl st : same_readings st st.
Proof. repeat split. Qed.

Lemma estimate_implied_volatility_inv st bar st' :
  estimate_implied_volatility st bar = Ok st' ->
  close_hist st' = close_hist st /\ hv_20 st' = hv_20 st /\
  (active_options st' = active_options st /\
   expiry_date st' = expiry_date st) /\
  ((List.length (close_hist st) < 252)%nat -> iv_rank st' = iv_rank st) /\
  ((252 <= List.length (close_hist st))%nat ->
   iv_rank st' = clamped_atr_ratio bar).
Proof.
  unfold estimate_implied_volatility. intros H.
  destruct (Nat.ltb_spec (List.length (close_hist st)) 20) as [Hlt | Hge].
  - injection H as <-. repeat split; intros; lia.
  - destruct (py_div (bar_atr bar) (bar_close bar)) as [atr_vol |];
      cbn [bind] in H; [| discriminate].
    destruct (math_sqrt 252) as [annual |]; cbn [bind] in H; [| discriminate].
    cbn [close_hist set_iv_estimate] in H.
    destruct (Nat.leb_spec 252 (List.length (close_hist st))) as [Hyear | Hyear].
    + destruct (py_div (bar_atr bar) _) as [ratio |] eqn:Hratio;
        cbn [bind] in H; [| discriminate].
      apply py_div_inv in Hratio. destruct Hratio as [-> _].
      injection H as <-. cbn. rewrite py_min_Rmin, py_max_Rmax.
      repeat split; intros; try lia.
      unfold clamped_atr_ratio. f_equal; [lra | f_equal; lra].
    + injection H as <-. cbn. repeat split; intros; lia.
Qed.

Lemma manage_iron_condor_frame p st current_date current_price st' log :
  manage_iron_condor p st current_date current_price = Ok (st', log) ->
  same_readings st st'.
Proof.
  unfold manage_iron_condor. intros H.
  destruct (position_status st current_date current_price)
    as [[[days_left current_profit] profit_pct] |]; cbn [bind] in H;
    [| discriminate].
  destruct (exit_decision p st days_left current_profit profit_pct);
    injection H as <- _; repeat split.
Qed.

Lemma consider_new_iron_condor_frame p st current_date current_price value st' log :
  consider_new_iron_condor p st current_date current_price value = Ok (st', log) ->
  same_readings st st'.
Proof.
  unfold consider_new_iron_condor. intros H.
  returns_inv H; subst; repeat split.
Qed.

Lemma update_volatility_inv st bar st1 :
  update_volatility st bar = Ok st1 ->
  let w := push_close (close_hist st) (bar_close bar) in
  close_hist st1 = w /\
  (active_options st1 = active_options st /\
   expiry_date st1 = expiry_date st) /\
  ((List.length w < 20)%nat -> hv_20 st1 = hv_20 st) /\
  ((20 <= List.length w)%nat ->
   hv_20 st1 = population_std (log_returns_20 w) * sqrt 252) /\
  ((List.length w < 252)%nat -> iv_rank st1 = iv_rank st) /\
  ((252 <= List.length w)%nat -> iv_rank st1 = clamped_atr_ratio bar).
Proof.
  intros H w. unfold update_volatility in H.
  cbn [close_hist set_close_hist] in H. fold w in H.
  destruct (Nat.leb_spec 20 (List.length w)) as [Hge | Hlt].
  - destruct (calculate_historical_volatility (set_close_hist st w))
      as [st0 |] eqn:Hhv; cbn [bind] in H; [| discriminate].
    apply calculate_historical_volatility_inv in Hhv.
    cbn [close_hist set_close_hist] in Hhv.
    destruct Hhv as [[Hlt _] | [_ ->]]; [lia |].
    apply estimate_implied_volatility_inv in H.
    cbn [close_hist hv_20 set_hv_20 set_close_hist active_options expiry_date iv_rank] in H.
    destruct H as [H1 [H2 [[H3 H3'] [H4 H5]]]].
    repeat split; auto; intros; lia.
  - cbn [bind] in H.
    apply estimate_implied_volatility_inv in H.
    cbn [close_hist hv_20 set_close_hist active_options expiry_date iv_rank] in H.
    destruct H as [H1 [H2 [[H3 H3'] [H4 H5]]]].
    repeat split; auto; intros; lia.
Qed.

Lemma next_inv p st bar st' log :
  next p st bar = Ok (st', log) ->
  exists st1, update_volatility st bar = Ok st1 /\ same_readings st1 st'.
Proof.
  unfold next. intros H.
  destruct (update_volatility st bar) as [st1 |]; cbn [bind] in H; [| discriminate].
  exists st1. split; [reflexivity |].
  destruct (active_options st1) as [[|] |].
  - destruct (manage_iron_condor p st1 (bar_date bar) (bar_close bar))
      as [[st2 lines] |] eqn:Hm; cbn [bind] in H; [| discriminate].
    injection H as <- _. eapply manage_iron_condor_frame; eassumption.
  - destruct (consider_new_iron_condor p st1 (bar_date bar) (bar_close bar)
                                       (bar_value bar))
      as [[st2 lines] |] eqn:Hm; cbn [bind] in H; [| discriminate].
    injection H as <- _. eapply consider_new_iron_condor_frame; eassumption.
  - destruct (consider_new_iron_condor p st1 (bar_date bar) (bar_close bar)
                                       (bar_value bar))
      as [[st2 lines] |] eqn:Hm; cbn [bind] in H; [| discriminate].
    injection H as <- _. eapply consider_new_iron_condor_frame; eassumption.
Qed.

(** With positive closes, a non-zero current close and, once a full year
    is held, a non-zero average ATR, the readings are always computed. *)
Lemma update_volatility_total st bar :
  let w := push_close (close_hist st) (bar_close bar) in
  Forall (fun x => 0 < x) w -> bar_close bar <> 0 ->
  ((252 <= List.length w)%nat ->
   2 * (py_sum (last_n 20 (bar_atr_array bar)) / 20) <> 0) ->
  exists st1, update_volatility st bar = Ok st1.
Proof.
  intros w Hpos Hclose Hatr. unfold update_volatility.
  cbn [close_hist set_close_hist]. fold w.
  assert (Hest : forall s, close_hist s = w ->
                      exists st1, estimate_implied_volatility s bar = Ok st1).
  { intros s Hs. unfold estimate_implied_volatility. rewrite Hs.
    destruct (Nat.ltb_spec (List.length w) 20); [eexists; reflexivity |].
    rewrite py_div_ok by assumption. cbn [bind].
    rewrite math_sqrt_ok by lra. cbn [bind close_hist set_iv_estimate].
    rewrite Hs.
    destruct (Nat.leb_spec 252 (List.length w)) as [Hy | Hy].
    - rewrite py_div_ok by (apply Hatr; assumption). cbn [bind].
      eexists; reflexivity.
    - eexists; reflexivity. }
  destruct (Nat.leb_spec 20 (List.length w)) as [Hge | Hlt].
  - destruct (calculate_historical_volatility_total (set_close_hist st w) Hpos)
      as [st0 Hst0].
    rewrite Hst0. cbn [bind]. apply Hest.
    apply calculate_historical_volatility_inv in Hst0.
    destruct Hst0 as [[_ ->] | [_ ->]]; reflexivity.
  - cbn [bind]. apply Hest. reflexivity.
Qed.

(** An idle strategy whose IV rank is under the entry threshold only
    updates its readings. *)
Lemma next_idle p st bar st1 :
  update_volatility st bar = Ok st1 ->
  active_options st1 = None ->
  iv_rank st1 < iv_rank_min p ->
  next p st bar =
  Ok (st1, [LogMarket (bar_close bar) (hv_20 st1) (iv_estimate st1)
                      (iv_rank st1) (bar_atr bar)]).
Proof.
  intros Hu Ha Hr. unfold next. rewrite Hu. cbn [bind]. rewrite Ha.
  unfold consider_new_iron_condor. rewrite (Rltb_true _ _ Hr). reflexivity.
Qed.
End IronCondorFrame.

(* ------------------------------------------------------------------ *)
(** ** C8: the 20-period historical volatility *)

Lemma sum_sq_dev_pos l x y : In x l -> In y l -> x <> y -> 0 < sum_sq_dev l.
Proof.
  intros Hx Hy Hne.
  assert (Hall : Forall (fun z => 0 <= z) (map (fun r => (r - mean l) ^ 2) l)).
  { apply Forall_forall. intros z Hz. apply in_map_iff in Hz.
    destruct Hz as [r [<- _]]. apply pow2_ge_0. }
  assert (Hxs : (x - mean l) ^ 2 <= sum_sq_dev l).
  { apply py_sum_ge_elem; [exact Hall |]. apply in_map_iff. exists x. tauto. }
  assert (Hys : (y - mean l) ^ 2 <= sum_sq_dev l).
  { apply py_sum_ge_elem; [exact Hall |]. apply in_map_iff. exists y. tauto. }
  assert (0 < (x - mean l) ^ 2 + (y - mean l) ^ 2); [| lra].
  assert (x - mean l <> 0 \/ y - mean l <> 0) as [H | H].
  { destruct (Req_dec (x - mean l) 0); [right; lra | left; assumption]. }
  - pose proof (pow2_ge_0 (y - mean l)). pose proof (pow_nonzero _ 2 H).
    pose proof (pow2_ge_0 (x - mean l)). lra.
  - pose proof (pow2_ge_0 (x - mean l)). pose proof (pow_nonzero _ 2 H).
    pose proof (pow2_ge_0 (y - mean l)). lra.
Qed.

(** Dividing by the number of values gives less than dividing by that
    number less one, unless all values agree. *)
Lemma population_lt_sample l :
  (2 <= List.length l)%nat -> 0 < sum_sq_dev l -> population_std l < sample_std l.
Proof.
  intros Hlen Hpos. unfold population_std, sample_std.
  assert (Hn : 2 <= INR (List.length l)).
  { replace 2 with (INR 2) by (simpl; lra). apply le_INR. exact Hlen. }
  apply sqrt_lt_1_alt. split.
  - apply Rmult_le_pos; [lra |]. left. apply Rinv_0_lt_compat. lra.
  - unfold Rdiv. apply Rmult_lt_compat_l; [exact Hpos |].
    apply Rinv_lt_contravar; [nra | lra].
Qed.

Lemma flat_history_window :
  IronCondor.push_close (IronCondor.close_hist flat_history_example)
                        (IronCondor.bar_close jump_bar_example)
  = repeat 100 19 ++ [200].
Proof. reflexivity. Qed.

Lemma flat_history_next :
  exists st' log,
    IronCondor.next IronCondor.default_params flat_history_example jump_bar_example
    = Ok (st', log).
Proof.
  destruct (update_volatility_total flat_history_example jump_bar_example)
    as [st1 Hst1].
  - rewrite flat_history_window. cbn [repeat app].
    repeat (constructor; [lra |]). constructor.
  - cbn. lra.
  - rewrite flat_history_window. cbn. lia.
  - pose proof (update_volatility_inv _ _ _ Hst1) as Hinv.
    cbv zeta in Hinv. rewrite flat_history_window in Hinv.
    destruct Hinv as [_ [[Hact _] [_ [_ [Hrank _]]]]].
    eexists. eexists. apply (next_idle _ _ _ st1 Hst1).
    + rewrite Hact. reflexivity.
    + rewrite Hrank by (cbn; lia). cbn. lra.
Qed.

Lemma flat_history_returns_differ :
  0 < sum_sq_dev (log_returns_20 (repeat 100 19 ++ [200])).
Proof.
  apply (sum_sq_dev_pos _ (ln (200 / 100)) (ln (100 / 100))).
  - unfold log_returns_20. cbn. left. reflexivity.
  - unfold log_returns_20. cbn. right. left. reflexivity.
  - replace (200 / 100) with 2 by lra. replace (100 / 100) with 1 by lra.
    rewrite ln_1. pose proof ln_lt_2. lra.
Qed.

(** C8, as the code has it. The 20-period historical volatility starts at
    0. On each bar it is left as it was while the rolling window holds
    fewer than 20 closes; once the window holds 20 it is recomputed as the
    standard deviation of the 19 log returns between the 20 most recent
    closes, the sum of squared deviations being divided by the number of
    returns (the population form, not the sample form that divides by one
    less), multiplied by [sqrt 252]. *)
Theorem historical_volatility_update :
  IronCondor.hv_20 IronCondor.init = 0 /\
  forall (p : IronCondor.Params) (st : IronCondor.State) (bar : IronCondor.Bar)
         (st' : IronCondor.State) (log : list IronCondor.log_line),
    IronCondor.next p st bar = Ok (st', log) ->
    let w := IronCondor.push_close (IronCondor.close_hist st)
                                   (IronCondor.bar_close bar) in
    IronCondor.close_hist st' = w /\
    ((List.length w < 20)%nat -> IronCondor.hv_20 st' = IronCondor.hv_20 st) /\
    ((20 <= List.length w)%nat ->
     IronCondor.hv_20 st' = population_std (log_returns_20 w) * sqrt 252).
Proof.
  split; [reflexivity |].
  intros p st bar st' log H w.
  apply next_inv in H. destruct H as [st1 [Hu [Hc [Hhv _]]]].
  apply update_volatility_inv in Hu. fold w in Hu.
  destruct Hu as [Hw [_ [Hlt [Hge _]]]].
  rewrite Hc, Hhv. repeat split; assumption.
Qed.

Lemma historical_volatility_update_witness :
  exists st' log,
    IronCondor.next IronCondor.default_params flat_history_example jump_bar_example
    = Ok (st', log) /\
    IronCondor.hv_20 st'
    = population_std (log_returns_20 (repeat 100 19 ++ [200])) * sqrt 252.
Proof.
  destruct flat_history_next as [st' [log H]].
  exists st', log. split; [exact H |].
  destruct (proj2 historical_volatility_update _ _ _ _ _ H) as [_ [_ Hge]].
  rewrite flat_history_window in Hge. apply Hge. cbn. lia.
Defined.

(** The claim as worded fails: on the window of nineteen closes at 100
    followed by one at 200 the stored value is strictly below the sample
    standard deviation of the log returns times [sqrt 252]. *)
Lemma historical_volatility_counterexample :
  exists st' log,
    IronCondor.next IronCondor.default_params flat_history_example jump_bar_example
    = Ok (st', log) /\
    IronCondor.hv_20 st'
    <> sample_std (log_returns_20 (repeat 100 19 ++ [200])) * sqrt 252.
Proof.
  destruct flat_history_next as [st' [log H]].
  exists st', log. split; [exact H |].
  apply next_inv in H. destruct H as [st1 [Hu [_ [Hhv _]]]].
  apply update_volatility_inv in Hu. rewrite flat_history_window in Hu.
  destruct Hu as [_ [_ [_ [Hge _]]]].
  rewrite Hhv, Hge by (cbn; lia).
  pose proof (population_lt_sample (log_returns_20 (repeat 100 19 ++ [200]))) as Hlt.
  rewrite log_returns_20_length in Hlt.
  specialize (Hlt ltac:(lia) flat_history_returns_differ).
  assert (0 < sqrt 252) by (apply sqrt_lt_R0; lra).
  nra.
Qed.

(* ------------------------------------------------------------------ *)
(** ** C9: the IV rank stays in the unit interval *)

Lemma clamped_atr_ratio_range bar : 0 <= clamped_atr_ratio bar <= 1.
Proof.
  unfold clamped_atr_ratio, Rmin, Rmax.
  repeat match goal with |- context [Rle_dec ?a ?b] => destruct (Rle_dec a b) end;
    lra.
Qed.

Lemma next_iv_rank p st bar st' log :
  IronCondor.next p st bar = Ok (st', log) ->
  let w := IronCondor.push_close (IronCondor.close_hist st)
                                 (IronCondor.bar_close bar) in
  ((List.length w < 252)%nat -> IronCondor.iv_rank st' = IronCondor.iv_rank st) /\
  ((252 <= List.length w)%nat -> IronCondor.iv_rank st' = clamped_atr_ratio bar).
Proof.
  intros H w.
  apply next_inv in H. destruct H as [st1 [Hu [_ [_ [_ Hr]]]]].
  apply update_volatility_inv in Hu. fold w in Hu.
  destruct Hu as [_ [_ [_ [_ [Hlt Hge]]]]].
  rewrite Hr. split; assumption.
Qed.

Lemma next_iv_rank_range p st bar st' log :
  0 <= IronCondor.iv_rank st <= 1 ->
  IronCondor.next p st bar = Ok (st', log) ->
  0 <= IronCondor.iv_rank st' <= 1.
Proof.
  intros Hst H. apply next_iv_rank in H. destruct H as [Hlt Hge].
  destruct (Nat.lt_ge_cases
              (List.length (IronCondor.push_close (IronCondor.close_hist st)
                                                  (IronCondor.bar_close bar))) 252)
    as [Hc | Hc].
  - rewrite (Hlt Hc). exact Hst.
  - rewrite (Hge Hc). apply clamped_atr_ratio_range.
Qed.

Lemma run_iv_rank_range p bars :
  forall st st',
    0 <= IronCondor.iv_rank st <= 1 ->
    IronCondor.run p st bars = Ok st' ->
    0 <= IronCondor.iv_rank st' <= 1.
Proof.
  induction bars as [| bar bars IH]; intros st st' Hst H; cbn [IronCondor.run] in H.
  - injection H as <-. exact Hst.
  - destruct (IronCondor.next p st bar) as [[st1 lines] |] eqn:Hn;
      cbn [bind] in H; [| discriminate].
    apply (IH st1 st'); [| exact H].
    eapply next_iv_rank_range; eassumption.
Qed.

(** C9. The IV rank of the iron condor lifecycle starts at 0. A bar leaves
    it untouched while the window holds fewer than 252 closes; with 252
    closes it is set to the current ATR over twice the average of the last
    20 ATR values, clamped to [[0, 1]], whatever the ATR values. Hence it
    lies in [[0, 1]] after any run of bars. *)
Theorem iv_rank_unit_interval :
  IronCondor.iv_rank IronCondor.init = 0 /\
  (forall (p : IronCondor.Params) (st : IronCondor.State) (bar : IronCondor.Bar)
          (st' : IronCondor.State) (log : list IronCondor.log_line),
     IronCondor.next p st bar = Ok (st', log) ->
     let w := IronCondor.push_close (IronCondor.close_hist st)
                                    (IronCondor.bar_close bar) in
     ((List.length w < 252)%nat -> IronCondor.iv_rank st' = IronCondor.iv_rank st) /\
     ((252 <= List.length w)%nat ->
      IronCondor.iv_rank st' =
      Rmin 1 (Rmax 0 (IronCondor.bar_atr bar
                      / (2 * (py_sum (last_n 20 (IronCondor.bar_atr_array bar)) / 20))))
      /\ 0 <= IronCondor.iv_rank st' <= 1)) /\
  (forall (p : IronCondor.Params) (bars : list IronCondor.Bar) (st : IronCondor.State),
     IronCondor.run p IronCondor.init bars = Ok st ->
     0 <= IronCondor.iv_rank st <= 1).
Proof.
  split; [reflexivity |]. split.
  - intros p st bar st' log H w.
    apply next_iv_rank in H. fold w in H. destruct H as [Hlt Hge].
    split; [exact Hlt |]. intros Hc. rewrite (Hge Hc).
    split; [reflexivity | apply clamped_atr_ratio_range].
  - intros p bars st H.
    apply (run_iv_rank_range p bars IronCondor.init st); [cbn; lra | exact H].
Qed.

(** With an open position and its expiry date recorded, [next] returns as
    soon as the readings are computed: monitoring never raises. *)
Lemma next_open_total p st bar st1 expiry :
  IronCondor.update_volatility st bar = Ok st1 ->
  IronCondor.active_options st1 = Some true ->
  IronCondor.expiry_date st1 = Some expiry ->
  exists st' log, IronCondor.next p st bar = Ok (st', log).
Proof.
  intros Hu Ha He. unfold IronCondor.next. rewrite Hu. cbn [bind]. rewrite Ha.
  destruct (position_status_total st1 (IronCondor.bar_date bar)
              (IronCondor.bar_close bar) expiry He) as [cp [pct Hs]].
  rewrite (manage_iron_condor_decision p _ _ _ _ _ _ Hs).
  destruct (IronCondor.exit_decision p st1 _ cp pct); cbn [bind];
    eexists; eexists; reflexivity.
Qed.

Lemma year_history_window :
  IronCondor.push_close (IronCondor.close_hist year_history_example)
                        (IronCondor.bar_close high_atr_bar_example)
  = repeat 100 251 ++ [100].
Proof. reflexivity. Qed.

Lemma high_atr_average :
  py_sum (last_n 20 (IronCondor.bar_atr_array high_atr_bar_example)) = 20.
Proof. unfold py_sum, last_n. cbn. lra. Qed.

Lemma year_history_next :
  exists st' log,
    IronCondor.next IronCondor.default_params year_history_example
                    high_atr_bar_example = Ok (st', log).
Proof.
  destruct (update_volatility_total year_history_example high_atr_bar_example)
    as [st1 Hst1].
  - rewrite year_history_window. apply Forall_forall. intros x Hx.
    apply in_app_or in Hx. destruct Hx as [Hx | [<- | []]]; [| lra].
    apply repeat_spec in Hx. subst. lra.
  - cbn. lra.
  - intros _. rewrite high_atr_average. lra.
  - pose proof (update_volatility_inv _ _ _ Hst1) as Hinv.
    cbv zeta in Hinv. destruct Hinv as [_ [[Hact Hexp] _]].
    apply (next_open_total _ _ _ st1 (Date.mk 2024 2 16) Hst1).
    + rewrite Hact. reflexivity.
    + rewrite Hexp. reflexivity.
Qed.

Lemma iv_rank_unit_interval_witness :
  exists st' log,
    IronCondor.next IronCondor.default_params year_history_example
                    high_atr_bar_example = Ok (st', log) /\
    IronCondor.iv_rank st' = 1 /\
    0 <= IronCondor.iv_rank st' <= 1.
Proof.
  destruct year_history_next as [st' [log H]].
  exists st', log. split; [exact H |].
  destruct (proj1 (proj2 iv_rank_unit_interval) _ _ _ _ _ H) as [_ Hge].
  rewrite year_history_window in Hge.
  destruct Hge as [Hval Hrange].
  { rewrite length_app, repeat_length. cbn. lia. }
  split; [| exact Hrange].
  rewrite Hval, high_atr_average. cbn [IronCondor.bar_atr high_atr_bar_example].
  unfold Rmin, Rmax.
  repeat match goal with |- context [Rle_dec ?a ?b] => destruct (Rle_dec a b) end;
    lra.
Defined.


(* ================================================================== *)
(** * Further properties: the Greeks against the pricing model *)
(* ================================================================== *)

(** The derivative of a function shaped like the Black-Scholes price,
    [a * cdf u - c * cdf v], in whichever variable [a], [c], [u] and [v]
    depend on. *)
Lemma bs_shape_derivative (a c u v : R -> R) (x a' c' u' v' : R) :
  derivable_pt_lim a x a' -> derivable_pt_lim c x c' ->
  derivable_pt_lim u x u' -> derivable_pt_lim v x v' ->
  derivable_pt_lim (a * comp norm_cdf u - c * comp norm_cdf v)%F x
    ((a' * norm_cdf (u x) + a x * (norm_pdf (u x) * u'))
     - (c' * norm_cdf (v x) + c x * (norm_pdf (v x) * v'))).
Proof.
  intros Ha Hc Hu Hv.
  apply derivable_pt_lim_minus.
  - apply (derivable_pt_lim_mult a (comp norm_cdf u)); [exact Ha |].
    apply derivable_pt_lim_comp; [exact Hu | apply norm_cdf_derivative].
  - apply (derivable_pt_lim_mult c (comp norm_cdf v)); [exact Hc |].
    apply derivable_pt_lim_comp; [exact Hv | apply norm_cdf_derivative].
Qed.

Lemma derivable_pt_lim_value f x l m :
  derivable_pt_lim f x l -> l = m -> derivable_pt_lim f x m.
Proof. intros H <-. exact H. Qed.

(** The put is the call less [S - K * exp (- r * T)], in every variable. *)
Lemma put_price_from_call S K T r sigma :
  put_price S K T r sigma = call_price S K T r sigma - (S - K * exp (- r * T)).
Proof. pose proof (parity_exact S K T r sigma). lra. Qed.

Lemma call_price_spot_derivative S K T r sigma :
  0 < S -> 0 < K -> 0 < T -> 0 < sigma ->
  derivable_pt_lim (fun s => call_price s K T r sigma) S
                   (norm_cdf (bs_d1 S K T r sigma)).
Proof.
  intros HS HK HT Hs.
  pose proof (sqrt_T_pos T HT) as Hrt.
  pose (b := (r + sigma ^ 2 / 2) * T). pose (c := sigma * sqrt T).
  assert (Hc : 0 < c) by (apply Rmult_lt_0_compat; assumption).
  pose (u := ((ln - fct_cte (ln K) + fct_cte b) / fct_cte c)%F).
  pose (v := (u - fct_cte c)%F).
  pose (g := (id * comp norm_cdf u - fct_cte (K * exp (- r * T)) * comp norm_cdf v)%F).
  assert (Hu : forall s, 0 < s -> u s = bs_d1 s K T r sigma).
  { intros s Hpos. unfold u, div_fct, plus_fct, minus_fct, fct_cte, bs_d1, b, c.
    f_equal. f_equal. unfold Rdiv. rewrite ln_mult, ln_Rinv
      by (try apply Rinv_0_lt_compat; assumption). ring. }
  assert (Hv : forall s, 0 < s -> v s = bs_d2 s K T r sigma).
  { intros s Hpos. unfold v, minus_fct, bs_d2. rewrite (Hu s Hpos). reflexivity. }
  apply (derivable_pt_lim_locally_ext g (fun s => call_price s K T r sigma) S
           (S / 2) (S + 1)); [lra | |].
  - intros z Hz. assert (0 < z) by lra.
    unfold g, minus_fct, mult_fct, comp, call_price, id, fct_cte.
    rewrite Hu, Hv by assumption. reflexivity.
  - assert (Du : derivable_pt_lim u S
                   (((/ S - 0 + 0) * fct_cte c S
                     - 0 * (ln - fct_cte (ln K) + fct_cte b)%F S)
                    / Rsqr (fct_cte c S))).
    { unfold u. apply derivable_pt_lim_div.
      - apply derivable_pt_lim_plus; [apply derivable_pt_lim_minus |].
        + apply derivable_pt_lim_ln; exact HS.
        + apply derivable_pt_lim_const.
        + apply derivable_pt_lim_const.
      - apply derivable_pt_lim_const.
      - unfold fct_cte. lra. }
    assert (Dv : derivable_pt_lim v S
                   (((/ S - 0 + 0) * fct_cte c S
                     - 0 * (ln - fct_cte (ln K) + fct_cte b)%F S)
                    / Rsqr (fct_cte c S) - 0)).
    { unfold v. apply derivable_pt_lim_minus; [exact Du | apply derivable_pt_lim_const]. }
    pose proof (bs_shape_derivative id (fct_cte (K * exp (- r * T))) u v S _ _ _ _
                  (derivable_pt_lim_id S) (derivable_pt_lim_const _ S) Du Dv) as D.
    fold g in D.
    pose proof (pdf_d1_d2 S K T r HS HK HT sigma Hs) as Hid.
    rewrite <- (Hu S HS), <- (Hv S HS) in Hid. rewrite <- (Hu S HS).
    match type of D with derivable_pt_lim _ _ ?l =>
      replace (norm_cdf (u S)) with l; [exact D |] end.
    unfold id, fct_cte in *. unfold Rsqr.
    transitivity (norm_cdf (u S)
                  + (S * norm_pdf (u S) - K * exp (- r * T) * norm_pdf (v S))
                    / (S * c)); [field; lra |].
    rewrite Hid. field. lra.
Qed.

Lemma bs_d1_spot_derivative S K T r sigma :
  0 < S -> 0 < K -> 0 < T -> 0 < sigma ->
  derivable_pt_lim (fun s => bs_d1 s K T r sigma) S (/ (S * sigma * sqrt T)).
Proof.
  intros HS HK HT Hs.
  pose proof (sqrt_T_pos T HT) as Hrt.
  pose (b := (r + sigma ^ 2 / 2) * T). pose (c := sigma * sqrt T).
  assert (Hc : 0 < c) by (apply Rmult_lt_0_compat; assumption).
  pose (u := ((ln - fct_cte (ln K) + fct_cte b) / fct_cte c)%F).
  apply (derivable_pt_lim_locally_ext u (fun s => bs_d1 s K T r sigma) S
           (S / 2) (S + 1)); [lra | |].
  - intros s Hz. assert (Hpos : 0 < s) by lra.
    unfold u, div_fct, plus_fct, minus_fct, fct_cte, bs_d1, b, c.
    f_equal. f_equal. unfold Rdiv. rewrite ln_mult, ln_Rinv
      by (try apply Rinv_0_lt_compat; assumption). ring.
  - replace (/ (S * sigma * sqrt T))
      with (((/ S - 0 + 0) * fct_cte c S
             - 0 * (ln - fct_cte (ln K) + fct_cte b)%F S) / Rsqr (fct_cte c S)).
    2:{ unfold fct_cte, Rsqr, c. field. lra. }
    unfold u. apply derivable_pt_lim_div.
    + apply derivable_pt_lim_plus; [apply derivable_pt_lim_minus |].
      * apply derivable_pt_lim_ln; exact HS.
      * apply derivable_pt_lim_const.
      * apply derivable_pt_lim_const.
    + apply derivable_pt_lim_const.
    + unfold fct_cte. lra.
Qed.

Lemma call_price_rate_derivative S K T r sigma :
  0 < S -> 0 < K -> 0 < T -> 0 < sigma ->
  derivable_pt_lim (fun x => call_price S K T x sigma) r
                   (K * T * exp (- r * T) * norm_cdf (bs_d2 S K T r sigma)).
Proof.
  intros HS HK HT Hs.
  pose proof (sqrt_T_pos T HT) as Hrt.
  pose (c := sigma * sqrt T).
  assert (Hc : 0 < c) by (apply Rmult_lt_0_compat; assumption).
  pose (u := (fun x => (ln (S / K) + (x + sigma ^ 2 / 2) * T) / c)).
  pose (v := (u - fct_cte c)%F).
  pose (disc := (fun x => K * exp (- x * T))).
  assert (Du : derivable_pt_lim u r (T / c)).
  { apply (derivable_pt_lim_ext
             (fct_cte ((ln (S / K) + sigma ^ 2 / 2 * T) / c) + mult_real_fct (T / c) id)%F).
    - intros x. unfold u, plus_fct, fct_cte, mult_real_fct, id. field. lra.
    - eapply derivable_pt_lim_value.
      + apply derivable_pt_lim_plus; [apply derivable_pt_lim_const |].
        apply derivable_pt_lim_scal, derivable_pt_lim_id.
      + ring. }
  assert (Dv : derivable_pt_lim v r (T / c - 0)).
  { unfold v. apply derivable_pt_lim_minus; [exact Du | apply derivable_pt_lim_const]. }
  assert (Dd : derivable_pt_lim disc r (K * (exp (- r * T) * (- T)))).
  { apply (derivable_pt_lim_ext (mult_real_fct K (comp exp (mult_real_fct (- T) id)))).
    - intros x. unfold disc, mult_real_fct, comp, id. f_equal. f_equal. ring.
    - apply derivable_pt_lim_scal.
      replace (- r * T) with (mult_real_fct (- T) id r)
        by (unfold mult_real_fct, id; ring).
      apply derivable_pt_lim_comp.
      + eapply derivable_pt_lim_value;
          [apply derivable_pt_lim_scal, derivable_pt_lim_id | ring].
      + apply derivable_pt_lim_exp. }
  pose proof (bs_shape_derivative (fct_cte S) disc u v r _ _ _ _
                (derivable_pt_lim_const S r) Dd Du Dv) as D.
  apply (derivable_pt_lim_ext _ (fun x => call_price S K T x sigma)) in D.
  2:{ intros x. unfold minus_fct, mult_fct, comp, fct_cte, call_price, bs_d2, bs_d1,
        u, v, disc, minus_fct, fct_cte, c. reflexivity. }
  pose proof (pdf_d1_d2 S K T r HS HK HT sigma Hs) as Hid.
  match type of D with derivable_pt_lim _ _ ?l =>
    replace (K * T * exp (- r * T) * norm_cdf (bs_d2 S K T r sigma)) with l;
      [exact D |] end.
  change (v r) with (bs_d2 S K T r sigma). change (u r) with (bs_d1 S K T r sigma).
  unfold fct_cte, disc.
  transitivity (K * T * exp (- r * T) * norm_cdf (bs_d2 S K T r sigma)
                + (S * norm_pdf (bs_d1 S K T r sigma)
                   - K * exp (- r * T) * norm_pdf (bs_d2 S K T r sigma)) * (T / c));
    [field; lra |].
  rewrite Hid. ring.
Qed.

Lemma call_price_time_derivative S K T r sigma :
  0 < S -> 0 < K -> 0 < T -> 0 < sigma ->
  derivable_pt_lim (fun t => call_price S K t r sigma) T
    (S * sigma * norm_pdf (bs_d1 S K T r sigma) / (2 * sqrt T)
     + r * K * exp (- r * T) * norm_cdf (bs_d2 S K T r sigma)).
Proof.
  intros HS HK HT Hs.
  pose proof (sqrt_T_pos T HT) as Hrt.
  pose (num := (fun t => ln (S / K) + (r + sigma ^ 2 / 2) * t)).
  pose (den := mult_real_fct sigma sqrt).
  pose (u := (num / den)%F).
  pose (v := (u - den)%F).
  pose (disc := (fun t => K * exp (- r * t))).
  assert (Dn : derivable_pt_lim num T (r + sigma ^ 2 / 2)).
  { apply (derivable_pt_lim_ext
             (fct_cte (ln (S / K)) + mult_real_fct (r + sigma ^ 2 / 2) id)%F).
    - intros t. reflexivity.
    - eapply derivable_pt_lim_value.
      + apply derivable_pt_lim_plus; [apply derivable_pt_lim_const |].
        apply derivable_pt_lim_scal, derivable_pt_lim_id.
      + ring. }
  assert (Dden : derivable_pt_lim den T (sigma * / (2 * sqrt T))).
  { unfold den. apply derivable_pt_lim_scal, derivable_pt_lim_sqrt. exact HT. }
  assert (Hden : den T <> 0).
  { unfold den, mult_real_fct. apply Rgt_not_eq, Rmult_lt_0_compat; assumption. }
  assert (Du : derivable_pt_lim u T
                 (((r + sigma ^ 2 / 2) * den T - sigma * / (2 * sqrt T) * num T)
                  / Rsqr (den T))).
  { unfold u. apply derivable_pt_lim_div; assumption. }
  assert (Dv : derivable_pt_lim v T
                 (((r + sigma ^ 2 / 2) * den T - sigma * / (2 * sqrt T) * num T)
                  / Rsqr (den T) - sigma * / (2 * sqrt T))).
  { unfold v. apply derivable_pt_lim_minus; assumption. }
  assert (Dd : derivable_pt_lim disc T (K * (exp (- r * T) * (- r)))).
  { apply (derivable_pt_lim_ext (mult_real_fct K (comp exp (mult_real_fct (- r) id)))).
    - intros x. reflexivity.
    - apply derivable_pt_lim_scal.
      change (- r * T) with (mult_real_fct (- r) id T).
      apply derivable_pt_lim_comp.
      + eapply derivable_pt_lim_value;
          [apply derivable_pt_lim_scal, derivable_pt_lim_id | ring].
      + apply derivable_pt_lim_exp. }
  pose proof (bs_shape_derivative (fct_cte S) disc u v T _ _ _ _
                (derivable_pt_lim_const S T) Dd Du Dv) as D.
  apply (derivable_pt_lim_ext _ (fun t => call_price S K t r sigma)) in D.
  2:{ intros t. reflexivity. }
  pose proof (pdf_d1_d2 S K T r HS HK HT sigma Hs) as Hid.
  match type of D with derivable_pt_lim _ _ ?l =>
    match goal with |- derivable_pt_lim _ _ ?m => replace m with l; [exact D |] end
  end.
  change (v T) with (bs_d2 S K T r sigma). change (u T) with (bs_d1 S K T r sigma).
  unfold fct_cte, disc.
  set (q := ((r + sigma ^ 2 / 2) * den T - sigma * / (2 * sqrt T) * num T)
            / Rsqr (den T)).
  transitivity (S * sigma * norm_pdf (bs_d1 S K T r sigma) / (2 * sqrt T)
                + r * K * exp (- r * T) * norm_cdf (bs_d2 S K T r sigma)
                + (S * norm_pdf (bs_d1 S K T r sigma)
                   - K * exp (- r * T) * norm_pdf (bs_d2 S K T r sigma))
                  * (q - sigma * / (2 * sqrt T)));
    [field; lra |].
  rewrite Hid. ring.
Qed.

Lemma put_price_derivative_from_call (call put carry : R -> R) (x l m : R) :
  (forall z, put z = call z - carry z) ->
  derivable_pt_lim call x l -> derivable_pt_lim carry x m ->
  derivable_pt_lim put x (l - m).
Proof.
  intros Hput Hc Hk.
  apply (derivable_pt_lim_ext (call - carry)%F).
  - intros z. unfold minus_fct. symmetry. apply Hput.
  - apply derivable_pt_lim_minus; assumption.
Qed.

Lemma black_scholes_closed_form S K T r sigma option_type :
  0 < S -> 0 < K -> 0 < T -> 0 < sigma ->
  black_scholes S K T r sigma option_type = Ok (bs_price S K T r option_type sigma).
Proof. intros. unfold bs_price. apply black_scholes_valid; assumption. Qed.

(** X1. Delta is the sensitivity of the price to the spot: on valid inputs
    the delta returned by [calculate_greeks] is the derivative, in the
    spot, of the price returned by [black_scholes], for calls and for
    puts. *)
Theorem delta_is_spot_derivative (S K T r sigma : R) (option_type : string) :
  0 < S -> 0 < K -> 0 < T -> 0 < sigma ->
  (forall s, 0 < s ->
     black_scholes s K T r sigma option_type
     = Ok (bs_price s K T r option_type sigma)) /\
  exists g,
    calculate_greeks S K T r sigma option_type = Ok g /\
    derivable_pt_lim (fun s => bs_price s K T r option_type sigma) S (Greeks.delta g).
Proof.
  intros HS HK HT Hs. split.
  - intros s Hpos. apply black_scholes_closed_form; assumption.
  - eexists. split; [apply calculate_greeks_valid; assumption |].
    pose proof (call_price_spot_derivative S K T r sigma HS HK HT Hs) as Dc.
    unfold bs_price, greeks_closed_form. cbn [Greeks.delta].
    destruct (is_call option_type); [exact Dc |].
    eapply derivable_pt_lim_value.
    + eapply (put_price_derivative_from_call
               (fun s => call_price s K T r sigma) _
               (id - fct_cte (K * exp (- r * T)))%F S _ (1 - 0)).
      * intros z. apply put_price_from_call.
      * exact Dc.
      * apply derivable_pt_lim_minus;
          [apply derivable_pt_lim_id | apply derivable_pt_lim_const].
    + rewrite norm_cdf_symmetric. ring.
Qed.

Lemma delta_is_spot_derivative_witness :
  exists g,
    calculate_greeks 100 100 1 0.02 0.2 "put" = Ok g /\
    derivable_pt_lim (fun s => bs_price s 100 1 0.02 "put" 0.2) 100 (Greeks.delta g).
Proof.
  exact (proj2 (delta_is_spot_derivative 100 100 1 0.02 0.2 "put"
                  ltac:(lra) ltac:(lra) ltac:(lra) ltac:(lra))).
Defined.

(** X2. Gamma is the sensitivity of delta to the spot: on valid inputs the
    gamma returned by [calculate_greeks] is the derivative, in the spot, of
    the delta it returns, for calls and for puts. *)
Theorem gamma_is_delta_derivative (S K T r sigma : R) (option_type : string) :
  0 < S -> 0 < K -> 0 < T -> 0 < sigma ->
  exists delta_at : R -> R,
    (forall s, 0 < s ->
       exists g, calculate_greeks s K T r sigma option_type = Ok g /\
                 Greeks.delta g = delta_at s) /\
    exists g,
      calculate_greeks S K T r sigma option_type = Ok g /\
      derivable_pt_lim delta_at S (Greeks.gamma g).
Proof.
  intros HS HK HT Hs.
  exists (fun s => Greeks.delta (greeks_closed_form s K T r sigma (is_call option_type))).
  split.
  - intros s Hpos. eexists. split; [apply calculate_greeks_valid; assumption |].
    reflexivity.
  - eexists. split; [apply calculate_greeks_valid; assumption |].
    pose proof (bs_d1_spot_derivative S K T r sigma HS HK HT Hs) as Du.
    pose proof (derivable_pt_lim_comp _ _ _ _ _ Du
                  (norm_cdf_derivative (bs_d1 S K T r sigma))) as Dc.
    unfold greeks_closed_form. cbn [Greeks.delta Greeks.gamma].
    assert (Hg : norm_pdf (bs_d1 S K T r sigma) * / (S * sigma * sqrt T)
                 = norm_pdf (bs_d1 S K T r sigma) / (S * sigma * sqrt T))
      by reflexivity.
    destruct (is_call option_type).
    + eapply derivable_pt_lim_value; [exact Dc | exact Hg].
    + apply (derivable_pt_lim_ext
               (comp norm_cdf (fun s => bs_d1 s K T r sigma) - fct_cte 1)%F).
      * intros s. unfold minus_fct, comp, fct_cte.
        rewrite norm_cdf_symmetric. ring.
      * eapply derivable_pt_lim_value.
        -- apply derivable_pt_lim_minus; [exact Dc | apply derivable_pt_lim_const].
        -- rewrite <- Hg. ring.
Qed.

Lemma gamma_is_delta_derivative_witness :
  exists delta_at : R -> R,
    (forall s, 0 < s ->
       exists g, calculate_greeks s 100 1 0.02 0.2 "call" = Ok g /\
                 Greeks.delta g = delta_at s) /\
    exists g,
      calculate_greeks 100 100 1 0.02 0.2 "call" = Ok g /\
      derivable_pt_lim delta_at 100 (Greeks.gamma g).
Proof.
  exact (gamma_is_delta_derivative 100 100 1 0.02 0.2 "call"
           ltac:(lra) ltac:(lra) ltac:(lra) ltac:(lra)).
Defined.

(** X3. Vega is the sensitivity of the price to the volatility per
    percentage point: on valid inputs 100 times the vega returned by
    [calculate_greeks] is the derivative, in the volatility, of the price
    returned by [black_scholes], for calls and for puts. *)
Theorem vega_is_volatility_derivative (S K T r sigma : R) (option_type : string) :
  0 < S -> 0 < K -> 0 < T -> 0 < sigma ->
  (forall v, 0 < v ->
     black_scholes S K T r v option_type = Ok (bs_price S K T r option_type v)) /\
  exists g,
    calculate_greeks S K T r sigma option_type = Ok g /\
    derivable_pt_lim (bs_price S K T r option_type) sigma (100 * Greeks.vega g).
Proof.
  intros HS HK HT Hs. split.
  - intros v Hpos. apply black_scholes_closed_form; assumption.
  - eexists. split; [apply calculate_greeks_valid; assumption |].
    pose proof (call_price_derivative S K T r HS HK HT sigma Hs) as Dc.
    unfold greeks_closed_form. cbn [Greeks.vega].
    apply (derivable_pt_lim_ext
             (if is_call option_type then call_price S K T r else put_price S K T r)).
    { intros v. unfold bs_price. destruct (is_call option_type); reflexivity. }
    destruct (is_call option_type).
    + eapply derivable_pt_lim_value; [exact Dc | field].
    + eapply derivable_pt_lim_value.
      * eapply (put_price_derivative_from_call (call_price S K T r) _
                 (fct_cte (S - K * exp (- r * T))) sigma _ 0).
        -- intros z. apply put_price_from_call.
        -- exact Dc.
        -- apply derivable_pt_lim_const.
      * field.
Qed.

Lemma vega_is_volatility_derivative_witness :
  exists g,
    calculate_greeks 100 100 1 0.02 0.2 "call" = Ok g /\
    derivable_pt_lim (bs_price 100 100 1 0.02 "call") 0.2 (100 * Greeks.vega g).
Proof.
  exact (proj2 (vega_is_volatility_derivative 100 100 1 0.02 0.2 "call"
                  ltac:(lra) ltac:(lra) ltac:(lra) ltac:(lra))).
Defined.

(** X4. Rho is the sensitivity of the price to the rate per percentage
    point: on valid inputs 100 times the rho returned by
    [calculate_greeks] is the derivative, in the rate, of the price
    returned by [black_scholes], for calls and for puts. *)
Theorem rho_is_rate_derivative (S K T r sigma : R) (option_type : string) :
  0 < S -> 0 < K -> 0 < T -> 0 < sigma ->
  (forall x, black_scholes S K T x sigma option_type
             = Ok (bs_price S K T x option_type sigma)) /\
  exists g,
    calculate_greeks S K T r sigma option_type = Ok g /\
    derivable_pt_lim (fun x => bs_price S K T x option_type sigma) r
                     (100 * Greeks.rho g).
Proof.
  intros HS HK HT Hs. split.
  - intros x. apply black_scholes_closed_form; assumption.
  - eexists. split; [apply calculate_greeks_valid; assumption |].
    pose proof (call_price_rate_derivative S K T r sigma HS HK HT Hs) as Dc.
    unfold bs_price, greeks_closed_form. cbn [Greeks.rho].
    destruct (is_call option_type).
    + eapply derivable_pt_lim_value; [exact Dc | field].
    + eapply derivable_pt_lim_value.
      * eapply (put_price_derivative_from_call
                 (fun x => call_price S K T x sigma) _
                 (fct_cte S - mult_real_fct K (comp exp (mult_real_fct (- T) id)))%F
                 r _ (0 - K * (exp (mult_real_fct (- T) id r) * (- T * 1)))).
        -- intros z. rewrite put_price_from_call.
           unfold minus_fct, fct_cte, mult_real_fct, comp, id.
           replace (- T * z) with (- z * T) by ring. reflexivity.
        -- exact Dc.
        -- apply derivable_pt_lim_minus; [apply derivable_pt_lim_const |].
           apply derivable_pt_lim_scal, derivable_pt_lim_comp;
             [apply derivable_pt_lim_scal, derivable_pt_lim_id
             | apply derivable_pt_lim_exp].
      * unfold mult_real_fct, id. replace (- T * r) with (- r * T) by ring.
        rewrite norm_cdf_symmetric. field.
Qed.

Lemma rho_is_rate_derivative_witness :
  exists g,
    calculate_greeks 100 100 1 0.02 0.2 "put" = Ok g /\
    derivable_pt_lim (fun x => bs_price 100 100 1 x "put" 0.2) 0.02
                     (100 * Greeks.rho g).
Proof.
  exact (proj2 (rho_is_rate_derivative 100 100 1 0.02 0.2 "put"
                  ltac:(lra) ltac:(lra) ltac:(lra) ltac:(lra))).
Defined.

(** X5. Theta is the daily time decay: on valid inputs 365 times the theta
    returned by [calculate_greeks] is minus the derivative, in the time to
    expiry, of the price returned by [black_scholes], for calls and for
    puts. *)
Theorem theta_is_daily_time_decay (S K T r sigma : R) (option_type : string) :
  0 < S -> 0 < K -> 0 < T -> 0 < sigma ->
  (forall t, 0 < t ->
     black_scholes S K t r sigma option_type
     = Ok (bs_price S K t r option_type sigma)) /\
  exists g,
    calculate_greeks S K T r sigma option_type = Ok g /\
    derivable_pt_lim (fun t => bs_price S K t r option_type sigma) T
                     (- (365 * Greeks.theta g)).
Proof.
  intros HS HK HT Hs. split.
  - intros t Hpos. apply black_scholes_closed_form; assumption.
  - eexists. split; [apply calculate_greeks_valid; assumption |].
    pose proof (sqrt_T_pos T HT) as Hrt.
    pose proof (call_price_time_derivative S K T r sigma HS HK HT Hs) as Dc.
    unfold bs_price, greeks_closed_form. cbn [Greeks.theta].
    destruct (is_call option_type).
    + eapply derivable_pt_lim_value; [exact Dc | field; lra].
    + eapply derivable_pt_lim_value.
      * eapply (put_price_derivative_from_call
                 (fun t => call_price S K t r sigma) _
                 (fct_cte S - mult_real_fct K (comp exp (mult_real_fct (- r) id)))%F
                 T _ (0 - K * (exp (mult_real_fct (- r) id T) * (- r * 1)))).
        -- intros z. rewrite put_price_from_call. reflexivity.
        -- exact Dc.
        -- apply derivable_pt_lim_minus; [apply derivable_pt_lim_const |].
           apply derivable_pt_lim_scal, derivable_pt_lim_comp;
             [apply derivable_pt_lim_scal, derivable_pt_lim_id
             | apply derivable_pt_lim_exp].
      * unfold mult_real_fct, id. rewrite norm_cdf_symmetric. field. lra.
Qed.

Lemma theta_is_daily_time_decay_witness :
  exists g,
    calculate_greeks 100 100 1 0.02 0.2 "call" = Ok g /\
    derivable_pt_lim (fun t => bs_price 100 100 t 0.02 "call" 0.2) 1
                     (- (365 * Greeks.theta g)).
Proof.
  exact (proj2 (theta_is_daily_time_decay 100 100 1 0.02 0.2 "call"
                  ltac:(lra) ltac:(lra) ltac:(lra) ltac:(lra))).
Defined.

(** X6. The Greeks of a call and of a put on the same valid inputs are
    tied by put-call parity: the deltas differ by 1, gamma and vega agree,
    the daily thetas differ by [- r * K * exp (- r * T) / 365] and the
    rhos by [K * T * exp (- r * T) / 100]. *)
Theorem greeks_put_call_relations (S K T r sigma : R) :
  0 < S -> 0 < K -> 0 < T -> 0 < sigma ->
  exists gc gp,
    calculate_greeks S K T r sigma "call" = Ok gc /\
    calculate_greeks S K T r sigma "put" = Ok gp /\
    Greeks.delta gc - Greeks.delta gp = 1 /\
    Greeks.gamma gc = Greeks.gamma gp /\
    Greeks.vega gc = Greeks.vega gp /\
    Greeks.theta gc - Greeks.theta gp = - (r * K * exp (- r * T)) / 365 /\
    Greeks.rho gc - Greeks.rho gp = K * T * exp (- r * T) / 100.
Proof.
  intros HS HK HT Hs.
  exists (greeks_closed_form S K T r sigma true), (greeks_closed_form S K T r sigma false).
  rewrite !calculate_greeks_valid by assumption.
  rewrite is_call_literal, is_call_put_literal.
  split; [reflexivity |]. split; [reflexivity |].
  pose proof (sqrt_T_pos T HT).
  unfold greeks_closed_form.
  cbn [Greeks.delta Greeks.gamma Greeks.vega Greeks.theta Greeks.rho].
  rewrite !norm_cdf_symmetric.
  repeat split; try reflexivity; field; lra.
Qed.

Lemma greeks_put_call_relations_witness :
  exists gc gp,
    calculate_greeks 100 100 1 0.02 0.2 "call" = Ok gc /\
    calculate_greeks 100 100 1 0.02 0.2 "put" = Ok gp /\
    Greeks.delta gc - Greeks.delta gp = 1 /\
    Greeks.gamma gc = Greeks.gamma gp /\
    Greeks.vega gc = Greeks.vega gp /\
    Greeks.theta gc - Greeks.theta gp = - (0.02 * 100 * exp (- (0.02) * 1)) / 365 /\
    Greeks.rho gc - Greeks.rho gp = 100 * 1 * exp (- (0.02) * 1) / 100.
Proof.
  exact (greeks_put_call_relations 100 100 1 0.02 0.2
           ltac:(lra) ltac:(lra) ltac:(lra) ltac:(lra)).
Defined.

(** X7. On valid inputs gamma and vega are strictly positive, whatever the
    style. *)
Theorem gamma_vega_positive (S K T r sigma : R) (option_type : string) :
  0 < S -> 0 < K -> 0 < T -> 0 < sigma ->
  exists g,
    calculate_greeks S K T r sigma option_type = Ok g /\
    0 < Greeks.gamma g /\ 0 < Greeks.vega g.
Proof.
  intros HS HK HT Hs. eexists.
  split; [apply calculate_greeks_valid; assumption |].
  pose proof (sqrt_T_pos T HT) as Hrt.
  pose proof (norm_pdf_pos (bs_d1 S K T r sigma)) as Hpdf.
  unfold greeks_closed_form. cbn [Greeks.gamma Greeks.vega]. split.
  - apply Rdiv_lt_0_compat; [exact Hpdf |].
    apply Rmult_lt_0_compat; [apply Rmult_lt_0_compat |]; assumption.
  - apply Rdiv_lt_0_compat; [| lra].
    apply Rmult_lt_0_compat; [apply Rmult_lt_0_compat |]; assumption.
Qed.

Lemma gamma_vega_positive_witness :
  exists g,
    calculate_greeks 100 90 (30 / 365) 0.02 0.2 "put" = Ok g /\
    0 < Greeks.gamma g /\ 0 < Greeks.vega g.
Proof.
  exact (gamma_vega_positive 100 90 (30 / 365) 0.02 0.2 "put"
           ltac:(lra) ltac:(lra) ltac:(lra) ltac:(lra)).
Defined.

(** X8. On a valid contract the price returned by [black_scholes] is
    strictly increasing in the volatility, for calls and for puts: the
    fact the bisection of [calculate_iv] relies on. *)
Theorem price_increasing_in_volatility
    (S K T r sigma1 sigma2 : R) (option_type : string) :
  0 < S -> 0 < K -> 0 < T -> 0 < sigma1 -> sigma1 < sigma2 ->
  exists p1 p2,
    black_scholes S K T r sigma1 option_type = Ok p1 /\
    black_scholes S K T r sigma2 option_type = Ok p2 /\
    p1 < p2.
Proof.
  intros HS HK HT H1 H2.
  exists (bs_price S K T r option_type sigma1), (bs_price S K T r option_type sigma2).
  rewrite !black_scholes_closed_form by (try assumption; lra).
  split; [reflexivity |]. split; [reflexivity |].
  apply bs_price_increasing; assumption.
Qed.

Lemma price_increasing_in_volatility_witness :
  exists p1 p2,
    black_scholes 100 110 (30 / 365) 0.02 0.2 "put" = Ok p1 /\
    black_scholes 100 110 (30 / 365) 0.02 0.25 "put" = Ok p2 /\
    p1 < p2.
Proof.
  exact (price_increasing_in_volatility 100 110 (30 / 365) 0.02 0.2 0.25 "put"
           ltac:(lra) ltac:(lra) ltac:(lra) ltac:(lra) ltac:(lra)).
Defined.

(* ================================================================== *)
(** * Further properties: the implied-volatility solver *)
(* ================================================================== *)

Lemma bisect_total market_price S K T r option_type precision :
  forall n vol_low vol_high,
    vol_low < vol_high ->
    exists v,
      bisect n market_price S K T r option_type precision vol_low vol_high = Ok v /\
      vol_low < v < vol_high.
Proof.
  induction n as [| n IH]; intros lo hi Hlt.
  - exists ((lo + hi) / 2). split; [reflexivity | lra].
  - rewrite bisect_step.
    destruct (black_scholes_total S K T r ((lo + hi) / 2) option_type) as [price ->].
    cbn [bind].
    destruct (Rabs _ <? precision).
    + exists ((lo + hi) / 2). split; [reflexivity | lra].
    + destruct (_ <? market_price).
      * destruct (IH ((lo + hi) / 2) hi) as [v [Hv Hb]]; try lra.
        exists v. split; [exact Hv | lra].
      * destruct (IH lo ((lo + hi) / 2)) as [v [Hv Hb]]; try lra.
        exists v. split; [exact Hv | lra].
Qed.

(** X9. [calculate_iv] never raises, whatever its arguments (degenerate
    contracts, negative prices, a non-positive precision or iteration
    count included), and what it returns is 0, the upper bound 5.0, or a
    volatility strictly between the bounds 0.001 and 5.0. *)
Theorem calculate_iv_total_and_bounded
    (market_price S K T r : R) (option_type : string) (precision : R)
    (max_iterations : Z) :
  exists v,
    calculate_iv market_price S K T r option_type precision max_iterations = Ok v /\
    (v = 0 \/ v = 5 \/ 0.001 < v < 5).
Proof.
  destruct (bisect_total market_price S K T r option_type precision
              (Z.to_nat max_iterations) 0.001 5.0 ltac:(lra)) as [v [Hv Hb]].
  unfold calculate_iv.
  destruct (is_call option_type).
  - destruct (market_price <? py_max 0 (S - K)).
    + exists 0. split; [f_equal; lra | left; reflexivity].
    + destruct (S <? market_price).
      * exists 5. split; [f_equal; lra | right; left; reflexivity].
      * exists v. split; [exact Hv | right; right; lra].
  - destruct (market_price <? py_max 0 (K - S)).
    + exists 0. split; [f_equal; lra | left; reflexivity].
    + destruct (K <? market_price).
      * exists 5. split; [f_equal; lra | right; left; reflexivity].
      * exists v. split; [exact Hv | right; right; lra].
Qed.

(** X10. With no iteration allowed ([max_iterations <= 0]) and a market
    price inside the accepted range, [calculate_iv] answers the midpoint
    2.5005 of its bracket without pricing anything. *)
Theorem calculate_iv_no_iterations
    (market_price S K T r : R) (option_type : string) (precision : R)
    (max_iterations : Z) :
  (max_iterations <= 0)%Z ->
  iv_intrinsic S K option_type <= market_price <= iv_cap S K option_type ->
  calculate_iv market_price S K T r option_type precision max_iterations = Ok 2.5005.
Proof.
  intros Hn Hrange. rewrite calculate_iv_in_range by exact Hrange.
  replace (Z.to_nat max_iterations) with 0%nat by lia.
  cbn [bisect]. f_equal. lra.
Qed.

Lemma calculate_iv_no_iterations_witness :
  calculate_iv 5 100 100 1 0.02 "call" default_precision 0 = Ok 2.5005.
Proof.
  apply (calculate_iv_no_iterations 5 100 100 1 0.02 "call" default_precision 0).
  - lia.
  - unfold iv_intrinsic, iv_cap. rewrite is_call_literal.
    unfold Rmax. destruct (Rle_dec 0 (100 - 100)); lra.
Defined.

(* ================================================================== *)
(** * Further properties: the option chain *)
(* ================================================================== *)

Lemma Rabs_le_bounds x a : Rabs x <= a -> - a <= x <= a.
Proof. unfold Rabs. destruct (Rcase_abs x); lra. Qed.

Lemma pow10_pos n : 0 < 10 ^ n.
Proof. apply pow_lt. lra. Qed.

Lemma py_round_zero n : py_round 0 n = 0.
Proof.
  unfold py_round. rewrite Rmult_0_l.
  rewrite (round_half_even_near 0 0) by lra.
  unfold Rdiv. apply Rmult_0_l.
Qed.

Lemma py_round_2_error x : Rabs (py_round x 2 - x) <= 0.005.
Proof.
  unfold py_round. replace (10 ^ 2) with 100 by (simpl; lra).
  pose proof (round_half_even_bounds (x * 100)).
  apply Rabs_le. lra.
Qed.

Lemma py_round_nonneg x n : 0 <= x -> 0 <= py_round x n.
Proof.
  intros Hx. unfold py_round. pose proof (pow10_pos n) as Hp.
  assert (Hz : (round_half_even 0 <= round_half_even (x * 10 ^ n))%Z).
  { apply round_half_even_mono. nra. }
  rewrite (round_half_even_near 0 0) in Hz by lra.
  apply IZR_le in Hz. apply Rmult_le_pos; [exact Hz |].
  left. apply Rinv_0_lt_compat. exact Hp.
Qed.

(** The rows [simulate_option_chain] builds, strike by strike. *)
Lemma simulate_option_chain_rows underlying_price days_to_expiry volatility
      risk_free_rate chain :
  simulate_option_chain underlying_price days_to_expiry volatility risk_free_rate
  = Ok chain ->
  List.length (calls chain) = 9%nat /\ List.length (puts chain) = 9%nat /\
  Forall (fun cp =>
            chain_row underlying_price (IZR days_to_expiry / 365.0) risk_free_rate
                      volatility (Contract.strike (fst cp)) = Ok cp)
         (combine (calls chain) (puts chain)).
Proof.
  unfold simulate_option_chain. intros H.
  destruct (mapM _ (chain_strikes underlying_price)) as [rows |] eqn:Hrows;
    cbn [bind] in H; [| discriminate].
  injection H as <-. cbn [calls puts].
  pose proof (chain_strikes_length underlying_price) as Hlen.
  revert rows Hrows Hlen. generalize (chain_strikes underlying_price) as ks.
  intros ks rows Hrows Hlen.
  assert (Hgen : List.length rows = List.length ks /\
                 Forall (fun cp =>
                           chain_row underlying_price (IZR days_to_expiry / 365.0)
                                     risk_free_rate volatility
                                     (Contract.strike (fst cp)) = Ok cp)
                        (combine (map fst rows) (map snd rows))).
  { clear Hlen. revert rows Hrows.
    induction ks as [| k ks IH]; intros rows Hrows; cbn [mapM] in Hrows.
    - injection Hrows as <-. split; [reflexivity | constructor].
    - destruct (chain_row _ _ _ _ k) as [row |] eqn:Hrow; cbn [bind] in Hrows;
        [| discriminate].
      destruct (mapM _ ks) as [rows' |] eqn:Hrest; cbn [bind] in Hrows;
        [| discriminate].
      injection Hrows as <-. destruct (IH rows' eq_refl) as [Hl HF].
      split; [cbn; lia |]. cbn [map combine]. constructor; [| exact HF].
      destruct (chain_row_total underlying_price (IZR days_to_expiry / 365.0)
                  risk_free_rate volatility k) as [row' [Hrow' [Hs _]]].
      rewrite Hrow in Hrow'. injection Hrow' as <-.
      destruct row as [c p]. cbn [fst snd] in *. rewrite Hs. exact Hrow. }
  destruct Hgen as [Hl HF]. rewrite !length_map, Hl, Hlen.
  repeat split; assumption.
Qed.

(** What one row holds on a valid contract. *)
Lemma chain_row_valid S T r sigma k row :
  0 < S -> 0 < k -> 0 < T -> 0 < sigma ->
  chain_row S T r sigma k = Ok row ->
  Contract.strike (fst row) = k /\ Contract.strike (snd row) = k /\
  Contract.price (fst row) = py_round (call_price S k T r sigma) 2 /\
  Contract.price (snd row) = py_round (put_price S k T r sigma) 2.
Proof.
  intros HS Hk HT Hs. unfold chain_row.
  rewrite !black_scholes_valid, !calculate_greeks_valid by assumption.
  rewrite is_call_literal, is_call_put_literal. cbn [bind].
  intros H. injection H as <-. cbn. repeat split.
Qed.

(** What one row holds on a degenerate contract. *)
Lemma chain_row_degenerate S T r sigma k row :
  S <= 0 \/ k <= 0 \/ T <= 0 \/ sigma <= 0 ->
  chain_row S T r sigma k = Ok row ->
  (Contract.price (fst row) = 0 /\ Contract.delta (fst row) = 0 /\
   Contract.gamma (fst row) = 0 /\ Contract.theta (fst row) = 0 /\
   Contract.vega (fst row) = 0) /\
  (Contract.price (snd row) = 0 /\ Contract.delta (snd row) = 0 /\
   Contract.gamma (snd row) = 0 /\ Contract.theta (snd row) = 0 /\
   Contract.vega (snd row) = 0).
Proof.
  intros Hdeg. unfold chain_row, black_scholes, calculate_greeks.
  rewrite (guard_degenerate _ _ _ _ Hdeg). cbn [bind].
  intros H. injection H as <-. cbn. rewrite !py_round_zero. repeat split.
Qed.

(** X11. A chain asked for a non-positive spot, a non-positive number of
    days or a non-positive volatility is still produced, with nine calls
    and nine puts, and every price, delta, gamma, theta and vega in it is
    exactly 0. *)
Theorem chain_degenerate_all_zero
    (underlying_price : R) (days_to_expiry : Z) (volatility risk_free_rate : R) :
  underlying_price <= 0 \/ (days_to_expiry <= 0)%Z \/ volatility <= 0 ->
  exists chain,
    simulate_option_chain underlying_price days_to_expiry volatility risk_free_rate
    = Ok chain /\
    List.length (calls chain) = 9%nat /\ List.length (puts chain) = 9%nat /\
    Forall (fun c => Contract.price c = 0 /\ Contract.delta c = 0 /\
                     Contract.gamma c = 0 /\ Contract.theta c = 0 /\
                     Contract.vega c = 0)
           (calls chain ++ puts chain).
Proof.
  intros Hdeg.
  destruct (simulate_option_chain_total underlying_price days_to_expiry volatility
              risk_free_rate) as [chain [Hc _]].
  exists chain. split; [exact Hc |].
  destruct (simulate_option_chain_rows _ _ _ _ _ Hc) as [Hlc [Hlp HF]].
  split; [exact Hlc |]. split; [exact Hlp |].
  assert (Hdeg' : forall k, underlying_price <= 0 \/ k <= 0
                            \/ IZR days_to_expiry / 365.0 <= 0 \/ volatility <= 0).
  { intros k. destruct Hdeg as [H | [H | H]]; [tauto | | tauto].
    right. right. left. apply IZR_le in H. lra. }
  assert (Hboth : Forall (fun cp =>
                            (Contract.price (fst cp) = 0 /\ Contract.delta (fst cp) = 0 /\
                             Contract.gamma (fst cp) = 0 /\ Contract.theta (fst cp) = 0 /\
                             Contract.vega (fst cp) = 0) /\
                            (Contract.price (snd cp) = 0 /\ Contract.delta (snd cp) = 0 /\
                             Contract.gamma (snd cp) = 0 /\ Contract.theta (snd cp) = 0 /\
                             Contract.vega (snd cp) = 0))
                         (combine (calls chain) (puts chain))).
  { eapply Forall_impl; [| exact HF]. intros cp Hrow.
    eapply chain_row_degenerate; [apply Hdeg' | exact Hrow]. }
  assert (Hlen : List.length (calls chain) = List.length (puts chain)) by lia.
  clear - Hboth Hlen. revert Hboth Hlen.
  generalize (calls chain) as cs, (puts chain) as ps.
  induction cs as [| c cs IH]; intros [| p ps] HF Hlen; cbn in Hlen; try discriminate.
  - constructor.
  - cbn [combine] in HF. inversion HF as [| x l [Hc Hp] HF']; subst.
    injection Hlen as Hlen. specialize (IH ps HF' Hlen).
    cbn [app]. constructor; [exact Hc |].
    apply Forall_app in IH. destruct IH as [IH1 IH2].
    apply Forall_app. split; [exact IH1 | constructor; assumption].
Qed.

Lemma chain_degenerate_all_zero_witness :
  exists chain,
    simulate_option_chain 100 0 0.2 0.02 = Ok chain /\
    List.length (calls chain) = 9%nat /\ List.length (puts chain) = 9%nat /\
    Forall (fun c => Contract.price c = 0 /\ Contract.delta c = 0 /\
                     Contract.gamma c = 0 /\ Contract.theta c = 0 /\
                     Contract.vega c = 0)
           (calls chain ++ puts chain).
Proof.
  apply (chain_degenerate_all_zero 100 0 0.2 0.02).
  right. left. lia.
Defined.

(** X12. In every chain the i-th call and the i-th put sit at the same
    strike, and on a valid request their quoted (rounded) prices obey
    put-call parity to within one cent at every positive strike:
    [|call - put - (spot - strike * exp (- rate * T))| <= 0.01] with
    [T = days / 365]. *)
Theorem chain_parity_within_a_cent
    (underlying_price : R) (days_to_expiry : Z) (volatility risk_free_rate : R)
    (chain : OptionChain) :
  0 < underlying_price -> (0 < days_to_expiry)%Z -> 0 < volatility ->
  simulate_option_chain underlying_price days_to_expiry volatility risk_free_rate
  = Ok chain ->
  Forall (fun cp =>
            Contract.strike (fst cp) = Contract.strike (snd cp) /\
            (0 < Contract.strike (fst cp) ->
             Rabs (Contract.price (fst cp) - Contract.price (snd cp)
                   - (underlying_price
                      - Contract.strike (fst cp)
                        * exp (- risk_free_rate * (IZR days_to_expiry / 365))))
             <= 0.01))
         (combine (calls chain) (puts chain)).
Proof.
  intros HS Hd Hv Hc.
  destruct (simulate_option_chain_rows _ _ _ _ _ Hc) as [_ [_ HF]].
  eapply Forall_impl; [| exact HF]. intros cp Hrow.
  assert (HT : 0 < IZR days_to_expiry / 365.0).
  { apply IZR_lt in Hd. lra. }
  destruct (chain_row_total underlying_price (IZR days_to_expiry / 365.0)
              risk_free_rate volatility (Contract.strike (fst cp)))
    as [row [Hrow' [Hs1 Hs2]]].
  rewrite Hrow in Hrow'. injection Hrow' as <-.
  split; [rewrite Hs2; reflexivity |].
  intros Hk.
  destruct (chain_row_valid _ _ _ _ _ _ HS Hk HT Hv Hrow) as [_ [_ [Hpc Hpp]]].
  rewrite Hpc, Hpp.
  pose proof (parity_exact underlying_price (Contract.strike (fst cp))
                (IZR days_to_expiry / 365.0) risk_free_rate volatility) as Hpar.
  pose proof (py_round_2_error
                (call_price underlying_price (Contract.strike (fst cp))
                            (IZR days_to_expiry / 365.0) risk_free_rate volatility)) as E1.
  pose proof (py_round_2_error
                (put_price underlying_price (Contract.strike (fst cp))
                           (IZR days_to_expiry / 365.0) risk_free_rate volatility)) as E2.
  replace (IZR days_to_expiry / 365) with (IZR days_to_expiry / 365.0) by lra.
  rewrite <- Hpar.
  apply Rabs_le. apply Rabs_le_bounds in E1. apply Rabs_le_bounds in E2. lra.
Qed.

Lemma chain_parity_within_a_cent_witness :
  exists chain,
    simulate_option_chain 100 30 0.2 0.02 = Ok chain /\
    Forall (fun cp =>
              Contract.strike (fst cp) = Contract.strike (snd cp) /\
              (0 < Contract.strike (fst cp) ->
               Rabs (Contract.price (fst cp) - Contract.price (snd cp)
                     - (100 - Contract.strike (fst cp)
                              * exp (- (0.02) * (IZR 30 / 365))))
               <= 0.01))
           (combine (calls chain) (puts chain)).
Proof.
  destruct (simulate_option_chain_total 100 30 0.2 0.02) as [chain [Hc _]].
  exists chain. split; [exact Hc |].
  exact (chain_parity_within_a_cent 100 30 0.2 0.02 chain
           ltac:(lra) ltac:(lia) ltac:(lra) Hc).
Defined.

(* ================================================================== *)
(** * Further properties: the iron condor lifecycle *)
(* ================================================================== *)

Lemma find_closest_fold (key : Contract.t -> R) (target : R) :
  forall (l : list Contract.t) (acc : Contract.t * R),
    snd acc = Rabs (key (fst acc) - target) ->
    let res :=
      fold_left (fun (a : Contract.t * R) option =>
                   if Rabs (key option - target) <? snd a
                   then (option, Rabs (key option - target)) else a) l acc in
    snd res = Rabs (key (fst res) - target) /\
    (fst res = fst acc \/ In (fst res) l) /\
    snd res <= snd acc /\
    (forall o, In o l -> snd res <= Rabs (key o - target)).
Proof.
  induction l as [| x l IH]; intros acc Hacc; cbn [fold_left].
  - repeat split; [exact Hacc | left; reflexivity | lra | intros o []].
  - cbv zeta.
    destruct (Rltb_spec (Rabs (key x - target)) (snd acc)) as [Hlt | Hge].
    + destruct (IH (x, Rabs (key x - target)) eq_refl) as [H1 [H2 [H3 H4]]].
      cbn [fst snd] in *.
      repeat split; [exact H1 | | lra |].
      * right. destruct H2 as [-> | H2]; [left; reflexivity | right; exact H2].
      * intros o [<- | Ho]; [exact H3 | apply H4; exact Ho].
    + destruct (IH acc Hacc) as [H1 [H2 [H3 H4]]].
      repeat split; [exact H1 | | exact H3 |].
      * destruct H2 as [H2 | H2]; [left; exact H2 | right; right; exact H2].
      * intros o [<- | Ho]; [lra | apply H4; exact Ho].
Qed.

(** X13. [find_closest_option] returns [None] exactly on an empty list;
    otherwise it returns a contract of the list none of whose contracts is
    strictly closer to the target on the given key. *)
Theorem find_closest_option_minimizes
    (options_list : list Contract.t) (key : Contract.t -> R) (target_value : R) :
  (IronCondor.find_closest_option options_list key target_value = None
   <-> options_list = []) /\
  (forall c,
     IronCondor.find_closest_option options_list key target_value = Some c ->
     In c options_list /\
     forall o, In o options_list ->
               Rabs (key c - target_value) <= Rabs (key o - target_value)).
Proof.
  split.
  - destruct options_list as [| first l]; cbn [IronCondor.find_closest_option].
    + split; reflexivity.
    + split; discriminate.
  - intros c H. destruct options_list as [| first l];
      unfold IronCondor.find_closest_option in H; [discriminate |].
    cbv zeta in H. injection H as <-.
    destruct (find_closest_fold key target_value (first :: l)
                (first, Rabs (key first - target_value)) eq_refl)
      as [H1 [H2 [_ H4]]].
    split.
    + destruct H2 as [H2 | H2]; [left; symmetry; exact H2 | exact H2].
    + intros o Ho. eapply Rle_trans; [| apply H4; exact Ho].
      right. symmetry. exact H1.
Qed.

Lemma last_n_short {A : Type} n (l : list A) :
  (List.length l <= n)%nat -> last_n n l = l.
Proof.
  intros H. unfold last_n. replace (List.length l - n)%nat with 0%nat by lia.
  reflexivity.
Qed.

Lemma last_n_length {A : Type} n (l : list A) :
  List.length (last_n n l) = Nat.min n (List.length l).
Proof. unfold last_n. rewrite length_skipn. lia. Qed.

Lemma last_n_app_drop {A : Type} n (a c : list A) :
  (n <= List.length c)%nat -> last_n n (a ++ c) = last_n n c.
Proof.
  intros H. unfold last_n. rewrite length_app, skipn_app.
  rewrite skipn_all2 by lia. cbn [app]. f_equal. lia.
Qed.

Lemma last_n_app_last_n {A : Type} n (a b : list A) :
  last_n n (last_n n a ++ b) = last_n n (a ++ b).
Proof.
  destruct (Nat.le_gt_cases (List.length a) n) as [Hle | Hgt].
  - rewrite (last_n_short n a Hle). reflexivity.
  - rewrite <- (firstn_skipn (List.length a - n) a) at 2.
    rewrite <- app_assoc. unfold last_n at 2.
    symmetry. apply last_n_app_drop.
    rewrite length_app, length_skipn. lia.
Qed.

Lemma push_close_last_n h x :
  (List.length h <= 252)%nat ->
  IronCondor.push_close h x = last_n 252 (h ++ [x]).
Proof.
  intros Hlen. unfold IronCondor.push_close, last_n.
  rewrite length_app. cbn [List.length].
  destruct (Nat.ltb_spec 252 (List.length h + 1)) as [Hbig | Hsmall].
  - replace (List.length h + 1 - 252)%nat with 1%nat by lia.
    destruct h; reflexivity.
  - replace (List.length h + 1 - 252)%nat with 0%nat by lia. reflexivity.
Qed.

Lemma next_close_hist p st bar st' log :
  IronCondor.next p st bar = Ok (st', log) ->
  IronCondor.close_hist st'
  = IronCondor.push_close (IronCondor.close_hist st) (IronCondor.bar_close bar).
Proof.
  intros H. apply next_inv in H. destruct H as [st1 [Hu [Hc _]]].
  apply update_volatility_inv in Hu. destruct Hu as [Hw _].
  rewrite Hc. exact Hw.
Qed.

Lemma run_close_hist p bars :
  forall st st',
    (List.length (IronCondor.close_hist st) <= 252)%nat ->
    IronCondor.run p st bars = Ok st' ->
    IronCondor.close_hist st'
    = last_n 252 (IronCondor.close_hist st ++ map IronCondor.bar_close bars).
Proof.
  induction bars as [| bar bars IH]; intros st st' Hlen H; cbn [IronCondor.run] in H.
  - injection H as <-. cbn [map]. rewrite app_nil_r.
    symmetry. apply last_n_short. exact Hlen.
  - destruct (IronCondor.next p st bar) as [[st1 lines] |] eqn:Hn;
      cbn [bind] in H; [| discriminate].
    apply next_close_hist in Hn.
    rewrite (push_close_last_n _ _ Hlen) in Hn.
    rewrite (IH st1 st'); [| rewrite Hn, last_n_length; lia | exact H].
    rewrite Hn, last_n_app_last_n. cbn [map].
    rewrite <- app_assoc. reflexivity.
Qed.

Lemma run_single_bar p st bar st1 lines :
  IronCondor.next p st bar = Ok (st1, lines) ->
  IronCondor.run p st [bar] = Ok st1.
Proof. intros H. cbn [IronCondor.run]. rewrite H. reflexivity. Qed.

Lemma first_bar_run :
  exists st,
    IronCondor.run IronCondor.default_params IronCondor.init [jump_bar_example] = Ok st.
Proof.
  destruct (update_volatility_total IronCondor.init jump_bar_example) as [st1 Hst1].
  - cbn. repeat constructor. lra.
  - cbn. lra.
  - cbn. lia.
  - pose proof (update_volatility_inv _ _ _ Hst1) as Hinv.
    cbv zeta in Hinv. destruct Hinv as [_ [[Hact _] [_ [_ [Hrank _]]]]].
    exists st1. eapply run_single_bar. apply (next_idle _ _ _ st1 Hst1).
    + rewrite Hact. reflexivity.
    + rewrite Hrank by (cbn; lia). cbn. lra.
Qed.

(** X14. The close window is a sliding window: after any run of bars from
    the initial state it holds exactly the last 252 closes fed, oldest
    first, so never more than 252. *)
Theorem close_window_is_last_252
    (p : IronCondor.Params) (bars : list IronCondor.Bar) (st : IronCondor.State) :
  IronCondor.run p IronCondor.init bars = Ok st ->
  IronCondor.close_hist st = last_n 252 (map IronCondor.bar_close bars) /\
  (List.length (IronCondor.close_hist st) <= 252)%nat.
Proof.
  intros H.
  pose proof (run_close_hist p bars IronCondor.init st ltac:(cbn; lia) H) as Hw.
  cbn [IronCondor.close_hist IronCondor.init app] in Hw.
  split; [exact Hw |]. rewrite Hw, last_n_length. lia.
Qed.

Lemma close_window_is_last_252_witness :
  exists st,
    IronCondor.run IronCondor.default_params IronCondor.init [jump_bar_example] = Ok st /\
    IronCondor.close_hist st = last_n 252 (map IronCondor.bar_close [jump_bar_example]) /\
    (List.length (IronCondor.close_hist st) <= 252)%nat.
Proof.
  destruct first_bar_run as [st H]. exists st. split; [exact H |].
  exact (close_window_is_last_252 _ _ _ H).
Defined.

Lemma same_position_refl st : same_position st st.
Proof. repeat split. Qed.

Lemma same_position_trans st1 st2 st3 :
  same_position st1 st2 -> same_position st2 st3 -> same_position st1 st3.
Proof.
  unfold same_position. intros H1 H2.
  destruct H1 as (a1 & a2 & a3 & a4 & a5 & a6 & a7 & a8 & a9 & a10 & a11).
  destruct H2 as (b1 & b2 & b3 & b4 & b5 & b6 & b7 & b8 & b9 & b10 & b11).
  repeat split; congruence.
Qed.

(** Updating the readings leaves the position fields alone. *)
Lemma update_volatility_position st bar st1 :
  IronCondor.update_volatility st bar = Ok st1 -> same_position st st1.
Proof.
  unfold IronCondor.update_volatility. intros H.
  set (s0 := IronCondor.set_close_hist st _) in H.
  assert (H0 : same_position st s0) by (repeat split).
  assert (Hhv : forall s s', IronCondor.calculate_historical_volatility s = Ok s' ->
                             same_position s s').
  { intros s s' Hs. apply calculate_historical_volatility_inv in Hs.
    destruct Hs as [[_ ->] | [_ ->]]; repeat split. }
  assert (Hest : forall s s', IronCondor.estimate_implied_volatility s bar = Ok s' ->
                              same_position s s').
  { intros s s' Hs. unfold IronCondor.estimate_implied_volatility in Hs.
    returns_inv Hs; subst; repeat split. }
  destruct (20 <=? List.length (IronCondor.close_hist s0))%nat.
  - destruct (IronCondor.calculate_historical_volatility s0) as [s1 |] eqn:E1;
      cbn [bind] in H; [| discriminate].
    eapply same_position_trans; [exact H0 |].
    eapply same_position_trans; [apply Hhv; exact E1 | apply Hest; exact H].
  - cbn [bind] in H.
    eapply same_position_trans; [exact H0 | apply Hest; exact H].
Qed.

Lemma idle_position_same st st' :
  idle_position st -> same_position st st' -> idle_position st'.
Proof. unfold idle_position. apply same_position_trans. Qed.

Lemma open_position_same st st' :
  open_position st -> same_position st st' -> open_position st'.
Proof.
  unfold open_position, same_position.
  intros (o1 & o2 & (d & e & o3 & o4) & o5 & o6)
         (a1 & a2 & a3 & a4 & a5 & a6 & a7 & a8 & a9 & a10 & a11).
  split; [congruence |]. split; [congruence |].
  split; [exists d, e; split; congruence |].
  split; [rewrite a11; exact o5 | rewrite a9; exact o6].
Qed.

Lemma py_max_int_ge_1 z : (1 <= py_max_int 1 z)%Z.
Proof. unfold py_max_int. destruct (Z.ltb_spec 1 z); lia. Qed.

Section IronCondorPosition.
Import IronCondor.

(** Monitoring either keeps the state or closes the position. *)
Lemma manage_iron_condor_position p st current_date current_price st' log :
  manage_iron_condor p st current_date current_price = Ok (st', log) ->
  st' = st \/ idle_position st'.
Proof.
  unfold manage_iron_condor. intros H.
  destruct (position_status st current_date current_price)
    as [[[days_left current_profit] profit_pct] |]; cbn [bind] in H;
    [| discriminate].
  destruct (exit_decision p st days_left current_profit profit_pct);
    injection H as <- _; [right | left; reflexivity].
  repeat split.
Qed.

(** The entry step either keeps the state or records a position with a
    positive credit: the return on risk is at least 0.15 only with a
    positive margin. *)
Lemma consider_new_iron_condor_position p st current_date current_price value st' log :
  consider_new_iron_condor p st current_date current_price value = Ok (st', log) ->
  st' = st \/ open_position st'.
Proof.
  unfold consider_new_iron_condor. intros H.
  returns_inv H; subst; try (left; reflexivity).
  right. unfold open_position.
  cbn [set_position active_options option_type entry_date expiry_date
       entry_credit max_profit].
  match goal with
  | Hq : (?x <? 0.15) = false |- _ =>
    assert (Hror : 0.15 <= x) by (destruct (Rltb_spec x 0.15); [discriminate | lra])
  end.
  match goal with
  | Hm : (if 0 <? ?m then py_div ?c ?m else Ok 0) = Ok ?r |- _ =>
    assert (Hc : 0 < c);
      [ destruct (Rltb_spec 0 m) as [Hmp | Hmp];
        [ apply py_div_inv in Hm; destruct Hm as [-> _];
          assert (Hge : 0.15 * m <= c / m * m) by (apply Rmult_le_compat_r; lra);
          replace (c / m * m) with c in Hge by (field; lra); nra
        | injection Hm as <-; lra ]
      | ]
  end.
  split; [reflexivity |]. split; [reflexivity |].
  split; [eexists; eexists; split; reflexivity |].
  split.
  - exact Hc.
  - match goal with
    | |- 0 < _ * IZR (py_max_int 1 ?z) * 100 =>
      pose proof (py_max_int_ge_1 z) as Hn; apply IZR_le in Hn
    end.
    apply Rmult_lt_0_compat; [| lra].
    apply Rmult_lt_0_compat; lra.
Qed.

Lemma next_position p st bar st' log :
  next p st bar = Ok (st', log) ->
  same_position st st' \/ idle_position st' \/ open_position st'.
Proof.
  unfold next. intros H.
  destruct (update_volatility st bar) as [st1 |] eqn:Hu; cbn [bind] in H;
    [| discriminate].
  apply update_volatility_position in Hu.
  assert (Hconsider :
    forall r, consider_new_iron_condor p st1 (bar_date bar) (bar_close bar)
                (bar_value bar) = r ->
              bind r (fun x => match x with (s, lines) => Ok (s, LogMarket (bar_close bar) (hv_20 st1) (iv_estimate st1) (iv_rank st1) (bar_atr bar) :: lines) end) = Ok (st', log) ->
              same_position st st' \/ idle_position st' \/ open_position st').
  { intros r Hr Hb. destruct r as [[st2 lines] |]; cbn [bind] in Hb; [| discriminate].
    injection Hb as <- _.
    apply consider_new_iron_condor_position in Hr.
    destruct Hr as [-> | Ho]; [left; exact Hu | right; right; exact Ho]. }
  destruct (active_options st1) as [[|] |].
  - destruct (manage_iron_condor p st1 (bar_date bar) (bar_close bar))
      as [[st2 lines] |] eqn:Hm; cbn [bind] in H; [| discriminate].
    injection H as <- _.
    apply manage_iron_condor_position in Hm.
    destruct Hm as [-> | Hi]; [left; exact Hu | right; left; exact Hi].
  - eapply Hconsider; [reflexivity | exact H].
  - eapply Hconsider; [reflexivity | exact H].
Qed.

Lemma run_position p bars : forall st st',
  idle_position st \/ open_position st ->
  run p st bars = Ok st' ->
  idle_position st' \/ open_position st'.
Proof.
  induction bars as [| bar bars IH]; intros st st' Hst H; cbn [run] in H.
  - injection H as <-. exact Hst.
  - destruct (next p st bar) as [[st1 lines] |] eqn:Hn; cbn [bind] in H;
      [| discriminate].
    apply (IH st1 st'); [| exact H].
    apply next_position in Hn.
    destruct Hn as [Hs | Hio]; [| exact Hio].
    destruct Hst as [Hi | Ho];
      [left; eapply idle_position_same | right; eapply open_position_same];
      eassumption.
Qed.
End IronCondorPosition.

(** X15. The position record is always consistent: after any run of bars
    from the initial state the strategy either holds no position, with
    every position field as [__init__] set it, or holds an iron condor with
    an entry date, an expiry date, a positive entry credit and a positive
    maximum profit. *)
Theorem position_idle_or_open
    (p : IronCondor.Params) (bars : list IronCondor.Bar) (st : IronCondor.State) :
  IronCondor.run p IronCondor.init bars = Ok st ->
  idle_position st \/ open_position st.
Proof.
  apply run_position. left. apply same_position_refl.
Qed.

Lemma position_idle_or_open_witness :
  exists st,
    IronCondor.run IronCondor.default_params IronCondor.init [jump_bar_example] = Ok st /\
    (idle_position st \/ open_position st).
Proof.
  destruct first_bar_run as [st H]. exists st. split; [exact H |].
  exact (position_idle_or_open _ _ _ H).
Defined.

Lemma push_close_length h x :
  (List.length h <= 252)%nat ->
  List.length (IronCondor.push_close h x) = Nat.min 252 (List.length h + 1).
Proof.
  intros H. rewrite push_close_last_n by exact H.
  rewrite last_n_length, length_app. reflexivity.
Qed.

Lemma run_short_idle p bars : forall st st',
  0 < IronCondor.iv_rank_min p ->
  idle_position st -> IronCondor.iv_rank st = 0 ->
  (List.length (IronCondor.close_hist st) + List.length bars < 252)%nat ->
  IronCondor.run p st bars = Ok st' ->
  idle_position st' /\ IronCondor.iv_rank st' = 0.
Proof.
  induction bars as [| bar bars IH]; intros st st' Hmin Hidle Hrank Hlen H;
    cbn [IronCondor.run] in H.
  - injection H as <-. split; assumption.
  - cbn [List.length] in Hlen.
    destruct (IronCondor.next p st bar) as [[st2 lines] |] eqn:Hn;
      cbn [bind] in H; [| discriminate].
    assert (Hst2 : idle_position st2 /\ IronCondor.iv_rank st2 = 0 /\
                   List.length (IronCondor.close_hist st2)
                   = S (List.length (IronCondor.close_hist st))).
    { unfold IronCondor.next in Hn.
      destruct (IronCondor.update_volatility st bar) as [st1 |] eqn:Hu;
        cbn [bind] in Hn; [| discriminate].
      pose proof (update_volatility_position _ _ _ Hu) as Hpos.
      pose proof (update_volatility_inv _ _ _ Hu) as Hinv. cbv zeta in Hinv.
      destruct Hinv as [Hw [_ [_ [_ [Hr _]]]]].
      assert (Hwl : List.length (IronCondor.close_hist st1)
                    = S (List.length (IronCondor.close_hist st))).
      { rewrite Hw, push_close_length by lia. lia. }
      rewrite <- Hw in Hr. specialize (Hr ltac:(lia)).
      assert (Hidle1 : idle_position st1) by (eapply idle_position_same; eassumption).
      assert (Hact : IronCondor.active_options st1 = None).
      { destruct Hidle1 as [Ha _]. exact Ha. }
      rewrite Hact in Hn. unfold IronCondor.consider_new_iron_condor in Hn.
      assert (Hr1 : IronCondor.iv_rank st1 = 0) by congruence.
      rewrite Rltb_true in Hn by (rewrite Hr1; exact Hmin).
      cbn [bind] in Hn. injection Hn as <- _.
      repeat split; try assumption; apply Hidle1. }
    destruct Hst2 as [Hi2 [Hr2 Hl2]].
    apply (IH st2 st'); try assumption. lia.
Qed.

(** X16. No entry before a full year of closes: with a positive IV-rank
    threshold (0.3 by default), a run of fewer than 252 bars from the
    initial state never opens a position; the IV rank is still 0 and every
    position field is as [__init__] set it. *)
Theorem no_entry_before_full_year
    (p : IronCondor.Params) (bars : list IronCondor.Bar) (st : IronCondor.State) :
  0 < IronCondor.iv_rank_min p ->
  (List.length bars < 252)%nat ->
  IronCondor.run p IronCondor.init bars = Ok st ->
  idle_position st /\ IronCondor.iv_rank st = 0.
Proof.
  intros Hmin Hlen H.
  apply (run_short_idle p bars IronCondor.init st); try assumption.
  - apply same_position_refl.
  - reflexivity.
Qed.

Lemma no_entry_before_full_year_witness :
  exists st,
    IronCondor.run IronCondor.default_params IronCondor.init [jump_bar_example] = Ok st /\
    idle_position st /\ IronCondor.iv_rank st = 0.
Proof.
  destruct first_bar_run as [st H]. exists st. split; [exact H |].
  apply (no_entry_before_full_year IronCondor.default_params [jump_bar_example] st).
  - cbn. lra.
  - cbn. lia.
  - exact H.
Defined.

(** Case analysis on a computation known to raise: every [bind], [if]
    and [match] on the way is split; what is left names the call that
    raised. *)
Ltac raises_inv H :=
  repeat
    match type of H with
    | Raise _ = Raise _ => injection H as H
    | Ok _ = Raise _ => discriminate H
    | bind ?m _ = Raise _ =>
      let E := fresh "E" in
      destruct m eqn:E; cbn [bind] in H
    | (if ?c then _ else _) = Raise _ =>
      let E := fresh "E" in destruct c eqn:E
    | match ?x with _ => _ end = Raise _ =>
      let E := fresh "E" in destruct x eqn:E
    end.

Lemma py_div_raise a b e : py_div a b = Raise e -> e = ZeroDivisionError.
Proof. unfold py_div. destruct (Req_dec_T b 0); congruence. Qed.

Lemma math_log_raise x e : math_log x = Raise e -> e = ValueError.
Proof. unfold math_log. destruct (0 <? x); congruence. Qed.

Lemma math_sqrt_raise x e : math_sqrt x = Raise e -> e = ValueError.
Proof. unfold math_sqrt. destruct (0 <=? x); congruence. Qed.

Lemma mapM_raise {A B : Type} (f : A -> result B) (l : list A) e :
  mapM f l = Raise e -> exists a, In a l /\ f a = Raise e.
Proof.
  induction l as [| a l IH]; cbn [mapM]; intros H; [discriminate |].
  destruct (f a) as [b |] eqn:Hb; cbn [bind] in H.
  - destruct (mapM f l) as [bs |]; cbn [bind] in H; [discriminate |].
    destruct (IH H) as [a' [Hin Ha']]. exists a'. split; [right |]; assumption.
  - exists a. split; [left; reflexivity | congruence].
Qed.

(** The failures of the float arithmetic: a zero divisor, or a logarithm
    or square root outside its domain. *)
Ltac arithmetic_error :=
  match goal with
  | E : py_div _ _ = Raise _ |- _ =>
    apply py_div_raise in E; subst; left; reflexivity
  | E : math_log _ = Raise _ |- _ =>
    apply math_log_raise in E; subst; right; reflexivity
  | E : math_sqrt _ = Raise _ |- _ =>
    apply math_sqrt_raise in E; subst; right; reflexivity
  end.

Section IronCondorRaises.
Import IronCondor.

Lemma daily_returns_raise h e :
  (20 <= List.length h)%nat ->
  daily_returns h = Raise e -> e = ZeroDivisionError \/ e = ValueError.
Proof.
  intros Hlen H. unfold daily_returns in H.
  apply mapM_raise in H. destruct H as [i [Hi H]]. apply in_seq in Hi.
  rewrite !neg_index_ok in H by lia. cbn [bind] in H.
  raises_inv H; subst; arithmetic_error.
Qed.

Lemma calculate_historical_volatility_raise st e :
  calculate_historical_volatility st = Raise e ->
  e = ZeroDivisionError \/ e = ValueError.
Proof.
  unfold calculate_historical_volatility.
  destruct (Nat.ltb_spec (List.length (close_hist st)) 20) as [Hlt | Hge];
    [discriminate |].
  intros H.
  destruct (daily_returns (close_hist st)) as [rets | e0] eqn:Hr; cbn [bind] in H.
  - raises_inv H; subst; arithmetic_error.
  - injection H as <-. eapply daily_returns_raise; eassumption.
Qed.

Lemma estimate_implied_volatility_raise st bar e :
  estimate_implied_volatility st bar = Raise e ->
  e = ZeroDivisionError \/ e = ValueError.
Proof.
  unfold estimate_implied_volatility. intros H.
  raises_inv H; subst; arithmetic_error.
Qed.

Lemma update_volatility_raise st bar e :
  update_volatility st bar = Raise e ->
  e = ZeroDivisionError \/ e = ValueError.
Proof.
  unfold update_volatility. intros H.
  destruct (20 <=? List.length (close_hist (set_close_hist st _)))%nat.
  - destruct (calculate_historical_volatility _) as [s1 | e0] eqn:E1;
      cbn [bind] in H.
    + eapply estimate_implied_volatility_raise; exact H.
    + injection H as <-. eapply calculate_historical_volatility_raise; exact E1.
  - cbn [bind] in H. eapply estimate_implied_volatility_raise; exact H.
Qed.

Lemma subscript_closest_raise underlying_price chain key target e :
  map Contract.strike (calls chain) = chain_strikes underlying_price ->
  map Contract.strike (puts chain) = chain_strikes underlying_price ->
  (subscript (find_closest_option (puts chain) key target) = Raise e -> False) /\
  (subscript (find_closest_option (calls chain) key target) = Raise e -> False).
Proof.
  intros Hcs Hps. destruct (chain_sides_nonempty _ _ Hcs Hps) as [Hc Hp].
  split; intros H.
  - destruct (find_closest_option_nonempty (puts chain) key target Hp) as [c Hcl].
    rewrite Hcl in H. discriminate.
  - destruct (find_closest_option_nonempty (calls chain) key target Hc) as [c Hcl].
    rewrite Hcl in H. discriminate.
Qed.

(** With an expiry date recorded, monitoring never raises. *)
Lemma manage_iron_condor_total p st current_date current_price expiry :
  expiry_date st = Some expiry ->
  exists st' log, manage_iron_condor p st current_date current_price = Ok (st', log).
Proof.
  intros He.
  destruct (position_status_total st current_date current_price expiry He)
    as [cp [pp Hps]].
  rewrite (manage_iron_condor_decision _ _ _ _ _ _ _ Hps).
  destruct (exit_decision p st _ cp pp); eexists; eexists; reflexivity.
Qed.

Lemma consider_new_iron_condor_raise p st current_date current_price value e :
  consider_new_iron_condor p st current_date current_price value = Raise e ->
  e = ZeroDivisionError.
Proof.
  unfold consider_new_iron_condor. intros H.
  raises_inv H; subst;
    try match goal with
        | E : py_div _ _ = Raise _ |- _ => apply py_div_raise in E; exact E
        | E : (if ?c then py_div _ _ else Ok _) = Raise _ |- _ =>
          destruct c; [apply py_div_raise in E; exact E | discriminate E]
        end;
    exfalso;
    match goal with
    | Es : simulate_option_chain ?u ?d ?v ?r = Raise _ |- _ =>
      destruct (simulate_option_chain_total u d v r) as [c [Hc _]]; congruence
    | Es : simulate_option_chain ?u ?d ?v ?r = Ok ?c |- _ =>
      destruct (simulate_option_chain_total u d v r) as [c' [Hc [Hcs Hps]]];
      rewrite Es in Hc; injection Hc as <-;
      match goal with
      | Eq : subscript (find_closest_option _ ?key ?target) = Raise ?e0 |- _ =>
        destruct (subscript_closest_raise u c key target e0 Hcs Hps) as [Hp' Hc'];
        first [exact (Hp' Eq) | exact (Hc' Eq)]
      end
    end.
Qed.

Lemma next_raise p st bar e :
  idle_position st \/ open_position st ->
  next p st bar = Raise e ->
  e = ZeroDivisionError \/ e = ValueError.
Proof.
  intros Hst H. unfold next in H.
  destruct (update_volatility st bar) as [st1 | e0] eqn:Hu; cbn [bind] in H.
  - pose proof (update_volatility_position _ _ _ Hu) as Hpos.
    assert (Hst1 : idle_position st1 \/ open_position st1).
    { destruct Hst; [left; eapply idle_position_same
                    | right; eapply open_position_same]; eassumption. }
    assert (Hconsider :
      forall r, consider_new_iron_condor p st1 (bar_date bar) (bar_close bar)
                  (bar_value bar) = r ->
        bind r (fun x => match x with (s, lines) => Ok (s, LogMarket (bar_close bar) (hv_20 st1) (iv_estimate st1) (iv_rank st1) (bar_atr bar) :: lines) end) = Raise e ->
        e = ZeroDivisionError \/ e = ValueError).
    { intros r Hr Hb. destruct r as [[s lines] | e1]; cbn [bind] in Hb;
        [discriminate |].
      injection Hb as <-. left. eapply consider_new_iron_condor_raise; exact Hr. }
    destruct (active_options st1) as [[|] |] eqn:Hact.
    + exfalso. destruct Hst1 as [Hi | Ho].
      * destruct Hi as [Ha _]. rewrite Hact in Ha. discriminate.
      * destruct Ho as (_ & _ & (d & x & _ & Hx) & _).
        destruct (manage_iron_condor_total p st1 (bar_date bar) (bar_close bar) x Hx)
          as [s [lines Hm]].
        rewrite Hm in H. discriminate.
    + eapply Hconsider; [reflexivity | exact H].
    + eapply Hconsider; [reflexivity | exact H].
  - injection H as <-. eapply update_volatility_raise; exact Hu.
Qed.

Lemma run_raise p bars : forall st e,
  idle_position st \/ open_position st ->
  run p st bars = Raise e ->
  e = ZeroDivisionError \/ e = ValueError.
Proof.
  induction bars as [| bar bars IH]; intros st e Hst H; cbn [run] in H;
    [discriminate |].
  destruct (next p st bar) as [[st1 lines] | e0] eqn:Hn; cbn [bind] in H.
  - apply (IH st1 e); [| exact H].
    apply next_position in Hn.
    destruct Hn as [Hs | Hio]; [| exact Hio].
    destruct Hst as [Hi | Ho];
      [left; eapply idle_position_same | right; eapply open_position_same];
      eassumption.
  - injection H as <-. eapply next_raise; eassumption.
Qed.
End IronCondorRaises.

(** X17. A run of the strategy from its initial state fails only on float
    arithmetic: whatever the bars, it either returns or raises
    [ZeroDivisionError] or [ValueError]. The subtraction of a missing
    expiry date, the subscript of a missing contract and an index outside
    the close window are never reached. *)
Theorem run_fails_only_on_arithmetic
    (p : IronCondor.Params) (bars : list IronCondor.Bar) :
  match IronCondor.run p IronCondor.init bars with
  | Ok _ => True
  | Raise e => e = ZeroDivisionError \/ e = ValueError
  end.
Proof.
  destruct (IronCondor.run p IronCondor.init bars) as [st | e] eqn:H; [exact I |].
  eapply run_raise; [| exact H]. left. apply same_position_refl.
Qed.

(* ------------------------------------------------------------------ *)
(** ** The volatility readings along a run *)

Lemma push_close_length_ge h x :
  (List.length h <= List.length (IronCondor.push_close h x))%nat.
Proof.
  unfold IronCondor.push_close.
  destruct (252 <? List.length (h ++ [x]))%nat.
  - destruct h as [| y h']; cbn [app tl List.length]; [lia |].
    rewrite length_app. cbn [List.length]. lia.
  - rewrite length_app. cbn [List.length]. lia.
Qed.

Lemma population_std_nonneg l : 0 <= population_std l.
Proof. unfold population_std. apply sqrt_pos. Qed.

Lemma window_volatility_nonneg w : 0 <= window_volatility w.
Proof.
  unfold window_volatility. destruct (20 <=? List.length w)%nat; [| lra].
  apply Rmult_le_pos; [apply population_std_nonneg | apply sqrt_pos].
Qed.

Lemma nth_last_n (n i : nat) (l : list R) :
  (1 <= i <= n)%nat -> (i <= List.length l)%nat ->
  nth (List.length (last_n n l) - i) (last_n n l) 0 = nth (List.length l - i) l 0.
Proof.
  intros Hi Hl. rewrite last_n_length. unfold last_n.
  rewrite nth_skipn. f_equal. lia.
Qed.

Lemma log_returns_20_last_n n l :
  (21 <= n)%nat -> (20 <= List.length l)%nat ->
  log_returns_20 (last_n n l) = log_returns_20 l.
Proof.
  intros Hn Hl. unfold log_returns_20. apply map_ext_in.
  intros i Hi. apply in_seq in Hi.
  rewrite !nth_last_n by lia. reflexivity.
Qed.

Lemma window_volatility_last_n n l :
  (21 <= n)%nat -> window_volatility (last_n n l) = window_volatility l.
Proof.
  intros Hn. unfold window_volatility. rewrite last_n_length.
  destruct (Nat.leb_spec 20 (List.length l)) as [Hl | Hl].
  - destruct (Nat.leb_spec 20 (Nat.min n (List.length l))); [| lia].
    rewrite log_returns_20_last_n by assumption. reflexivity.
  - destruct (Nat.leb_spec 20 (Nat.min n (List.length l))); [lia | reflexivity].
Qed.

Lemma next_hv_20 p st bar st' log :
  IronCondor.hv_20 st = window_volatility (IronCondor.close_hist st) ->
  IronCondor.next p st bar = Ok (st', log) ->
  IronCondor.hv_20 st' = window_volatility (IronCondor.close_hist st').
Proof.
  intros Hst H. apply next_inv in H. destruct H as [st1 [Hu [Hc [Hh _]]]].
  rewrite Hc, Hh.
  apply update_volatility_inv in Hu. cbv zeta in Hu.
  destruct Hu as [Hw [_ [Hlt [Hge _]]]]. rewrite Hw.
  unfold window_volatility.
  destruct (Nat.leb_spec 20
              (List.length (IronCondor.push_close (IronCondor.close_hist st)
                                                  (IronCondor.bar_close bar))))
    as [Hl | Hl].
  - apply Hge. exact Hl.
  - rewrite (Hlt Hl), Hst. unfold window_volatility.
    pose proof (push_close_length_ge (IronCondor.close_hist st)
                                     (IronCondor.bar_close bar)).
    destruct (Nat.leb_spec 20 (List.length (IronCondor.close_hist st)));
      [lia | reflexivity].
Qed.

Lemma run_hv_20 p bars : forall st st',
  IronCondor.hv_20 st = window_volatility (IronCondor.close_hist st) ->
  IronCondor.run p st bars = Ok st' ->
  IronCondor.hv_20 st' = window_volatility (IronCondor.close_hist st').
Proof.
  induction bars as [| bar bars IH]; intros st st' Hst H; cbn [IronCondor.run] in H.
  - injection H as <-. exact Hst.
  - destruct (IronCondor.next p st bar) as [[st1 lines] |] eqn:Hn;
      cbn [bind] in H; [| discriminate].
    apply (IH st1 st'); [| exact H]. eapply next_hv_20; eassumption.
Qed.

Lemma run_from_init_hv_20 p bars st :
  IronCondor.run p IronCondor.init bars = Ok st ->
  IronCondor.hv_20 st = window_volatility (map IronCondor.bar_close bars).
Proof.
  intros H.
  rewrite (run_hv_20 p bars IronCondor.init st); [| | exact H].
  - rewrite (run_close_hist p bars IronCondor.init st ltac:(cbn; lia) H).
    cbn [IronCondor.close_hist IronCondor.init app].
    apply window_volatility_last_n. lia.
  - cbn. unfold window_volatility. cbn. reflexivity.
Qed.

(** A run of fewer than 252 bars with positive closes always returns,
    when the IV-rank threshold is positive: nothing but the readings is
    computed. *)
Lemma run_short_total p bars : forall st,
  0 < IronCondor.iv_rank_min p ->
  idle_position st -> IronCondor.iv_rank st = 0 ->
  Forall (fun x => 0 < x) (IronCondor.close_hist st) ->
  Forall (fun b => 0 < IronCondor.bar_close b) bars ->
  (List.length (IronCondor.close_hist st) + List.length bars < 252)%nat ->
  exists st', IronCondor.run p st bars = Ok st'.
Proof.
  induction bars as [| bar bars IH]; intros st Hmin Hidle Hrank Hpos Hbars Hlen;
    cbn [IronCondor.run].
  - eexists; reflexivity.
  - cbn [List.length] in Hlen.
    inversion Hbars as [| b bs Hb Hbs]; subst.
    assert (Hw : IronCondor.push_close (IronCondor.close_hist st)
                                       (IronCondor.bar_close bar)
                 = IronCondor.close_hist st ++ [IronCondor.bar_close bar]).
    { rewrite push_close_last_n by lia. apply last_n_short.
      rewrite length_app. cbn [List.length]. lia. }
    destruct (update_volatility_total st bar) as [st1 Hst1].
    + rewrite Hw. apply Forall_app. split; [exact Hpos | repeat constructor; exact Hb].
    + lra.
    + rewrite Hw, length_app. cbn [List.length]. lia.
    + pose proof (update_volatility_position _ _ _ Hst1) as Hp1.
      pose proof (update_volatility_inv _ _ _ Hst1) as Hinv. cbv zeta in Hinv.
      destruct Hinv as [Hc [_ [_ [_ [Hr _]]]]].
      rewrite Hw in Hc, Hr. rewrite length_app in Hr. cbn [List.length] in Hr.
      specialize (Hr ltac:(lia)).
      assert (Hidle1 : idle_position st1) by (eapply idle_position_same; eassumption).
      rewrite (next_idle p st bar st1 Hst1).
      * cbn [bind]. apply IH; try assumption.
        -- congruence.
        -- rewrite Hc. apply Forall_app.
           split; [exact Hpos | repeat constructor; exact Hb].
        -- rewrite Hc, length_app. cbn [List.length]. lia.
      * destruct Hidle1 as [Ha _]. exact Ha.
      * rewrite Hr, Hrank. exact Hmin.
Qed.

Lemma quiet_run_returns n :
  (n < 252)%nat ->
  exists st,
    IronCondor.run IronCondor.default_params IronCondor.init
                   (repeat quiet_bar_example n) = Ok st.
Proof.
  intros Hn. apply run_short_total.
  - cbn. lra.
  - apply same_position_refl.
  - reflexivity.
  - constructor.
  - apply Forall_forall. intros b Hb. apply repeat_spec in Hb. subst. cbn. lra.
  - rewrite repeat_length. cbn. lia.
Qed.

(** X18. The stored historical volatility is a function of the closes
    fed: after any run of bars from the initial state it is 0 while fewer
    than 20 bars were seen, and otherwise the population standard
    deviation of the 19 log returns between the last 20 closes, times
    sqrt(252); in particular it is never negative. *)
Theorem historical_volatility_of_run
    (p : IronCondor.Params) (bars : list IronCondor.Bar) (st : IronCondor.State) :
  IronCondor.run p IronCondor.init bars = Ok st ->
  IronCondor.hv_20 st = window_volatility (map IronCondor.bar_close bars) /\
  0 <= IronCondor.hv_20 st.
Proof.
  intros H. pose proof (run_from_init_hv_20 p bars st H) as Hhv.
  split; [exact Hhv |]. rewrite Hhv. apply window_volatility_nonneg.
Qed.

Lemma historical_volatility_of_run_witness :
  exists st,
    IronCondor.run IronCondor.default_params IronCondor.init
                   (repeat quiet_bar_example 20) = Ok st /\
    IronCondor.hv_20 st
    = window_volatility (map IronCondor.bar_close (repeat quiet_bar_example 20)) /\
    0 <= IronCondor.hv_20 st.
Proof.
  destruct (quiet_run_returns 20 ltac:(lia)) as [st H].
  exists st. split; [exact H |].
  exact (historical_volatility_of_run _ _ _ H).
Defined.

Lemma py_sum_zero l : Forall (fun x => x = 0) l -> py_sum l = 0.
Proof.
  induction 1 as [| x l Hx _ IH]; [reflexivity |].
  rewrite py_sum_cons, Hx, IH. lra.
Qed.

Lemma population_std_zero l : Forall (fun x => x = 0) l -> population_std l = 0.
Proof.
  intros H. unfold population_std, sum_sq_dev, mean.
  rewrite (py_sum_zero l H).
  rewrite py_sum_zero.
  - unfold Rdiv. rewrite Rmult_0_l. apply sqrt_0.
  - apply Forall_forall. intros y Hy. apply in_map_iff in Hy.
    destruct Hy as [x [<- Hx]]. rewrite Forall_forall in H.
    rewrite (H x Hx). unfold Rdiv. rewrite Rmult_0_l. cbn [pow]. ring.
Qed.

Lemma log_returns_20_flat w c :
  0 < c ->
  (forall i, (1 <= i <= 20)%nat -> nth (List.length w - i) w 0 = c) ->
  Forall (fun x => x = 0) (log_returns_20 w).
Proof.
  intros Hc Hflat. unfold log_returns_20. apply Forall_forall.
  intros y Hy. apply in_map_iff in Hy. destruct Hy as [i [<- Hi]].
  apply in_seq in Hi. rewrite !Hflat by lia.
  replace (c / c) with 1 by (field; lra). apply ln_1.
Qed.

(** X19. Flat prices give zero historical volatility: after a run of at
    least 20 bars whose last 20 closes are one and the same positive price,
    the stored 20-period historical volatility is 0. *)
Theorem flat_closes_zero_volatility
    (p : IronCondor.Params) (bars : list IronCondor.Bar) (st : IronCondor.State)
    (c : R) :
  0 < c ->
  (20 <= List.length bars)%nat ->
  (forall i, (1 <= i <= 20)%nat ->
     nth (List.length bars - i) (map IronCondor.bar_close bars) 0 = c) ->
  IronCondor.run p IronCondor.init bars = Ok st ->
  IronCondor.hv_20 st = 0.
Proof.
  intros Hc Hlen Hflat H.
  rewrite (run_from_init_hv_20 p bars st H).
  unfold window_volatility. rewrite length_map.
  destruct (Nat.leb_spec 20 (List.length bars)); [| lia].
  rewrite population_std_zero; [ring |].
  apply (log_returns_20_flat _ c Hc). rewrite length_map. exact Hflat.
Qed.

Lemma flat_closes_zero_volatility_witness :
  exists st,
    IronCondor.run IronCondor.default_params IronCondor.init
                   (repeat quiet_bar_example 20) = Ok st /\
    IronCondor.hv_20 st = 0.
Proof.
  destruct (quiet_run_returns 20 ltac:(lia)) as [st H].
  exists st. split; [exact H |].
  apply (flat_closes_zero_volatility IronCondor.default_params
           (repeat quiet_bar_example 20) st 100).
  - lra.
  - rewrite repeat_length. lia.
  - intros i Hi. rewrite repeat_length, map_repeat.
    apply nth_repeat_lt. lia.
  - exact H.
Defined.

Lemma run_app p bars1 bars2 : forall st,
  IronCondor.run p st (bars1 ++ bars2)
  = bind (IronCondor.run p st bars1) (fun st1 => IronCondor.run p st1 bars2).
Proof.
  induction bars1 as [| bar bars1 IH]; intros st; cbn [app IronCondor.run bind];
    [reflexivity |].
  destruct (IronCondor.next p st bar) as [[st1 lines] |]; cbn [bind];
    [apply IH | reflexivity].
Qed.

(** What [estimate_implied_volatility] stores as the estimate inside an
    update. *)
Lemma update_volatility_iv_estimate st bar st1 :
  IronCondor.update_volatility st bar = Ok st1 ->
  (20 <= List.length (IronCondor.push_close (IronCondor.close_hist st)
                                            (IronCondor.bar_close bar)))%nat ->
  IronCondor.iv_estimate st1
  = IronCondor.bar_atr bar / IronCondor.bar_close bar * sqrt 252 * 0.5
    + IronCondor.hv_20 st1 * 0.5.
Proof.
  unfold IronCondor.update_volatility. intros H Hlen.
  cbn [IronCondor.close_hist IronCondor.set_close_hist] in H.
  destruct (Nat.leb_spec 20
              (List.length (IronCondor.push_close (IronCondor.close_hist st)
                                                  (IronCondor.bar_close bar))))
    as [_ | Hlt]; [| lia].
  destruct (IronCondor.calculate_historical_volatility _) as [s1 |] eqn:Hhv;
    cbn [bind] in H; [| discriminate].
  apply calculate_historical_volatility_inv in Hhv.
  cbn [IronCondor.close_hist IronCondor.set_close_hist] in Hhv.
  destruct Hhv as [[Hlt _] | [_ ->]]; [lia |].
  unfold IronCondor.estimate_implied_volatility in H.
  cbn [IronCondor.close_hist IronCondor.set_close_hist IronCondor.set_hv_20] in H.
  destruct (Nat.ltb_spec
              (List.length (IronCondor.push_close (IronCondor.close_hist st)
                                                  (IronCondor.bar_close bar))) 20)
    as [Hlt | _]; [lia |].
  destruct (py_div (IronCondor.bar_atr bar) (IronCondor.bar_close bar))
    as [atr_vol |] eqn:Hq; cbn [bind] in H; [| discriminate].
  apply py_div_inv in Hq. destruct Hq as [-> _].
  destruct (math_sqrt 252) as [annual |] eqn:Ha; cbn [bind] in H; [| discriminate].
  apply math_sqrt_inv in Ha. destruct Ha as [-> _].
  returns_inv H; subst; reflexivity.
Qed.

(** X20. The implied-volatility estimate is an equal blend: after a run
    whose last bar is at least the 20th, the stored estimate is half the
    annualised ATR-to-price ratio of that bar plus half the stored
    historical volatility. *)
Theorem implied_volatility_blend
    (p : IronCondor.Params) (bars : list IronCondor.Bar) (bar : IronCondor.Bar)
    (st : IronCondor.State) :
  (19 <= List.length bars)%nat ->
  IronCondor.run p IronCondor.init (bars ++ [bar]) = Ok st ->
  IronCondor.iv_estimate st
  = IronCondor.bar_atr bar / IronCondor.bar_close bar * sqrt 252 * 0.5
    + IronCondor.hv_20 st * 0.5.
Proof.
  intros Hlen H. rewrite run_app in H.
  destruct (IronCondor.run p IronCondor.init bars) as [st0 |] eqn:H0;
    cbn [bind] in H; [| discriminate].
  cbn [IronCondor.run] in H.
  destruct (IronCondor.next p st0 bar) as [[st2 lines] |] eqn:Hn;
    cbn [bind] in H; [| discriminate].
  injection H as <-.
  apply next_inv in Hn. destruct Hn as [st1 [Hu [_ [Hh [Hi _]]]]].
  rewrite Hi, Hh. apply (update_volatility_iv_estimate _ _ _ Hu).
  pose proof (run_close_hist p bars IronCondor.init st0 ltac:(cbn; lia) H0) as Hw.
  cbn [IronCondor.close_hist IronCondor.init app] in Hw.
  assert (Hl0 : List.length (IronCondor.close_hist st0)
                = Nat.min 252 (List.length bars)).
  { rewrite Hw, last_n_length, length_map. reflexivity. }
  rewrite push_close_length by lia. lia.
Qed.

Lemma implied_volatility_blend_witness :
  exists st,
    IronCondor.run IronCondor.default_params IronCondor.init
                   (repeat quiet_bar_example 19 ++ [quiet_bar_example]) = Ok st /\
    IronCondor.iv_estimate st
    = IronCondor.bar_atr quiet_bar_example / IronCondor.bar_close quiet_bar_example
      * sqrt 252 * 0.5
      + IronCondor.hv_20 st * 0.5.
Proof.
  destruct (quiet_run_returns 20 ltac:(lia)) as [st H].
  change (repeat quiet_bar_example 20)
    with (quiet_bar_example :: repeat quiet_bar_example 19) in H.
  rewrite repeat_cons in H.
  exists st. split; [exact H |].
  apply (implied_volatility_blend IronCondor.default_params
           (repeat quiet_bar_example 19) quiet_bar_example st).
  - rewrite repeat_length. lia.
  - exact H.
Defined.

(** X21. The warm-up always completes: with a positive IV-rank threshold,
    a run of fewer than 252 bars whose closes are all positive returns,
    holding every close fed and no position. *)
Theorem warm_up_returns
    (p : IronCondor.Params) (bars : list IronCondor.Bar) :
  0 < IronCondor.iv_rank_min p ->
  (List.length bars < 252)%nat ->
  Forall (fun b => 0 < IronCondor.bar_close b) bars ->
  exists st,
    IronCondor.run p IronCondor.init bars = Ok st /\
    IronCondor.close_hist st = map IronCondor.bar_close bars /\
    IronCondor.active_options st = None.
Proof.
  intros Hmin Hlen Hpos.
  destruct (run_short_total p bars IronCondor.init Hmin (same_position_refl _)
              eq_refl (Forall_nil _) Hpos ltac:(cbn; lia)) as [st H].
  exists st. split; [exact H |]. split.
  - rewrite (run_close_hist p bars IronCondor.init st ltac:(cbn; lia) H).
    cbn [IronCondor.close_hist IronCondor.init app].
    apply last_n_short. rewrite length_map. lia.
  - destruct (run_short_idle p bars IronCondor.init st Hmin
                (same_position_refl _) eq_refl ltac:(cbn; lia) H) as [[Ha _] _].
    exact Ha.
Qed.

Lemma warm_up_returns_witness :
  exists st,
    IronCondor.run IronCondor.default_params IronCondor.init
                   (repeat quiet_bar_example 30) = Ok st /\
    IronCondor.close_hist st
    = map IronCondor.bar_close (repeat quiet_bar_example 30) /\
    IronCondor.active_options st = None.
Proof.
  apply (warm_up_returns IronCondor.default_params (repeat quiet_bar_example 30)).
  - cbn. lra.
  - rewrite repeat_length. lia.
  - apply Forall_forall. intros b Hb. apply repeat_spec in Hb. subst. cbn. lra.
Defined.

(* ================================================================== *)
(** * Further properties: the put seller's lifecycle *)
(* ================================================================== *)

Section PutSellingLifecycle.
Import PutSelling.

Lemma cash_added_app e1 e2 : cash_added (e1 ++ e2) = cash_added e1 ++ cash_added e2.
Proof. unfold cash_added. apply flat_map_app. Qed.

Lemma cash_added_entries lines : cash_added (map LogEntry lines) = [].
Proof. induction lines as [| l lines IH]; [reflexivity | exact IH]. Qed.

(** What [consider_new_position] leaves alone, and what it sets. *)
Lemma consider_new_position_inv p st m current_price st' lines :
  consider_new_position p st m current_price = Ok (st', lines) ->
  trades st' = trades st /\
  trade_count st' = trade_count st /\
  winning_trades st' = winning_trades st /\
  losing_trades st' = losing_trades st /\
  equity_curve st' = equity_curve st /\
  returns st' = returns st /\
  dates st' = dates st /\
  (st' = st \/
   (active_option st' = Some true /\ option_type st' = SHORT_PUT /\
    entry_date st' = Some (today m) /\
    expiry_date st' = Some (Date.add_days (today m) (days_to_expiry p)))).
Proof.
  unfold consider_new_position. intros H.
  returns_inv H; subst; cbn; repeat split; auto;
    right; repeat split.
Qed.

(** The outcomes of [manage_active_position]: the position is kept as it
    is, or one trade is recorded, its total profit is added to the cash
    and the position is reset. *)
Lemma manage_active_position_inv p st current_date current_price st' events :
  manage_active_position p st current_date current_price = Ok (st', events) ->
  (st' = st /\ cash_added events = []) \/
  exists profit profit_pct days_held,
    st' = reset_position (record_trade st current_date profit profit_pct days_held) /\
    cash_added events = [profit * IZR (num_contracts st) * 100] /\
    ((0 < days_to_expiry p)%Z -> 0 <= current_price -> profit <= entry_price st).
Proof.
  unfold manage_active_position. intros H.
  destruct (option_type st); try (injection H as <- <-; left; split; reflexivity).
  destruct (expiry_date st) as [expiry |]; cbn [bind] in H; [| discriminate].
  destruct (Z.leb_spec (Date.days_between expiry current_date) 0) as [Hexp | Hleft].
  - destruct (Rltb_spec (strike_price st) current_price) as [Hotm | Hitm];
      cbn [bind] in H.
    + injection H as <- <-. right.
      exists (entry_price st), 1.0, (days_to_expiry p).
      split; [reflexivity |]. split; [reflexivity |]. intros _ _. lra.
    + destruct (py_div _ (entry_price st)) as [profit_pct |]; cbn [bind] in H;
        [| discriminate].
      injection H as <- <-. right.
      exists (entry_price st - (strike_price st - current_price)), profit_pct,
             (days_to_expiry p).
      split; [reflexivity |]. split; [reflexivity |]. intros _ _. lra.
  - destruct (py_div (IZR (Date.days_between expiry current_date))
                     (IZR (days_to_expiry p))) as [time_factor |] eqn:Htf;
      cbn [bind] in H; [| discriminate].
    apply py_div_inv in Htf. destruct Htf as [-> _].
    destruct (py_div _ (entry_price st)) as [profit_pct |]; cbn [bind] in H;
      [| discriminate].
    destruct (profit_target_pct p <=? profit_pct).
    + destruct (entry_date st) as [entry |]; cbn [bind] in H; [| discriminate].
      injection H as <- <-. right.
      eexists. exists profit_pct, (Date.days_between current_date entry).
      split; [reflexivity |]. split; [reflexivity |].
      intros Hdte Hprice.
      assert (Hi : 0 <= py_max 0 (strike_price st - current_price)).
      { rewrite py_max_Rmax. apply Rmax_l. }
      assert (Ht : 0 <= IZR (Date.days_between expiry current_date)
                        / IZR (days_to_expiry p)).
      { apply Rmult_le_pos.
        - apply IZR_le. lia.
        - left. apply Rinv_0_lt_compat. apply IZR_lt. exact Hdte. }
      assert (Hv : 0 <= 0.8 * (IZR (Date.days_between expiry current_date)
                               / IZR (days_to_expiry p)) * (current_price * 0.05)).
      { apply Rmult_le_pos; [apply Rmult_le_pos; [lra | exact Ht] | lra]. }
      lra.
    + injection H as <- <-. left. split; reflexivity.
Qed.

Lemma reset_record_fields st d profit pct days :
  let st' := reset_position (record_trade st d profit pct days) in
  active_option st' = None /\ option_type st' = NONE /\
  equity_curve st' = equity_curve st /\ returns st' = returns st /\
  dates st' = dates st /\
  trade_count st' = (trade_count st + 1)%Z /\
  exists t,
    trades st' = trades st ++ [t] /\
    trade_profit t = profit /\
    trade_premium t = entry_price st /\
    trade_total_profit t = profit * IZR (num_contracts st) * 100 /\
    winning_trades st'
    = (winning_trades st + if is_winner t then 1 else 0)%Z /\
    losing_trades st'
    = (losing_trades st + if is_winner t then 0 else 1)%Z.
Proof.
  cbn. repeat split. eexists. split; [reflexivity |].
  unfold is_winner. cbn. repeat split; destruct (0 <? profit); lia.
Qed.

(** One bar: the tracking series grow by one entry, and either the trade
    list is unchanged or one trade is appended. *)
Lemma next_inv_put p st m current_price st' events :
  next p st m current_price = Ok (st', events) ->
  equity_curve st' = equity_curve st ++ [value m] /\
  dates st' = dates st ++ [today m] /\
  (equity_curve st = [] -> returns st' = returns st) /\
  (forall previous, last (equity_curve st) 0 = previous -> equity_curve st <> [] ->
     returns st' = returns st ++ [value m / previous - 1]) /\
  ((trades st' = trades st /\ cash_added events = [] /\
    trade_count st' = trade_count st /\
    winning_trades st' = winning_trades st /\
    losing_trades st' = losing_trades st /\
    (put_position_consistent st -> put_position_consistent st')) \/
   (exists t,
      trades st' = trades st ++ [t] /\
      cash_added events = [trade_total_profit t] /\
      trade_count st' = (trade_count st + 1)%Z /\
      winning_trades st' = (winning_trades st + if is_winner t then 1 else 0)%Z /\
      losing_trades st' = (losing_trades st + if is_winner t then 0 else 1)%Z /\
      active_option st' = None /\ option_type st' = NONE /\
      ((0 < days_to_expiry p)%Z -> 0 <= current_price ->
       trade_profit t <= trade_premium t))).
Proof.
  unfold next. intros H.
  destruct (if (1 <? List.length (equity_curve st ++ [value m]))%nat then _ else _)
    as [rets |] eqn:Hrets; cbn [bind] in H; [| discriminate].
  set (st0 := set_tracking st (equity_curve st ++ [value m]) rets
                           (dates st ++ [today m])) in H.
  assert (Hret_empty : equity_curve st = [] -> rets = returns st).
  { intros He. rewrite He in Hrets. cbn in Hrets. congruence. }
  assert (Hret_next : forall previous,
             last (equity_curve st) 0 = previous -> equity_curve st <> [] ->
             rets = returns st ++ [value m / previous - 1]).
  { intros previous Hprev Hne.
    rewrite length_app in Hrets. cbn [List.length] in Hrets.
    destruct (Nat.ltb_spec 1 (List.length (equity_curve st) + 1)) as [_ | Hbad].
    2:{ destruct (equity_curve st); [congruence | cbn in Hbad; lia]. }
    destruct (neg_index (equity_curve st ++ [value m]) 1) as [a |] eqn:Ha;
      cbn [bind] in Hrets; [| discriminate].
    destruct (neg_index (equity_curve st ++ [value m]) 2) as [b |] eqn:Hb;
      cbn [bind] in Hrets; [| discriminate].
    destruct (py_div a b) as [q |] eqn:Hq; cbn [bind] in Hrets; [| discriminate].
    apply neg_index_inv in Ha. apply neg_index_inv in Hb.
    apply py_div_inv in Hq. destruct Hq as [-> _].
    injection Hrets as <-.
    rewrite length_app in Ha, Hb. cbn [List.length] in Ha, Hb.
    assert (Ea : a = value m).
    { rewrite Ha. rewrite app_nth2 by lia.
      replace (List.length (equity_curve st) + 1 - 1 - List.length (equity_curve st))%nat
        with 0%nat by lia. reflexivity. }
    assert (Eb : b = previous).
    { rewrite Hb, <- Hprev.
      destruct (exists_last Hne) as [l' [x Hl]]. rewrite Hl.
      rewrite last_last, length_app. cbn [List.length].
      rewrite <- app_assoc. rewrite app_nth2 by lia.
      replace (List.length l' + 1 + 1 - 2 - List.length l')%nat with 0%nat by lia.
      reflexivity. }
    rewrite Ea, Eb. reflexivity. }
  assert (Hcons0 : put_position_consistent st -> put_position_consistent st0).
  { intros Hc. exact Hc. }
  destruct (active_option st0) as [b |] eqn:Hact.
  - destruct (manage_active_position p st0 (today m) current_price)
      as [[st1 ev1] |] eqn:Hm; cbn [bind] in H; [| discriminate].
    injection H as <- <-.
    apply manage_active_position_inv in Hm.
    destruct Hm as [[-> Hev] | (profit & pct & days & -> & Hev & Hcap)].
    + cbn [equity_curve dates returns st0 set_tracking].
      split; [reflexivity |]. split; [reflexivity |].
      split; [exact Hret_empty |]. split; [exact Hret_next |].
      left. cbn [cash_added flat_map app]. fold (cash_added ev1). rewrite Hev.
      repeat split. exact Hcons0.
    + destruct (reset_record_fields st0 (today m) profit pct days)
        as (Ha & Ht & He & Hr & Hd & Hc & t & Htr & Hp & Hprem & Htot & Hw & Hl).
      rewrite He, Hd, Hr. cbn [equity_curve dates returns st0 set_tracking].
      split; [reflexivity |]. split; [reflexivity |].
      split; [exact Hret_empty |]. split; [exact Hret_next |].
      right. exists t. cbn [cash_added flat_map app]. fold (cash_added ev1).
      rewrite Hev, Htot.
      split; [exact Htr |]. split; [reflexivity |]. split; [exact Hc |].
      split; [exact Hw |]. split; [exact Hl |]. split; [exact Ha |].
      split; [exact Ht |]. intros Hdte Hprice. rewrite Hp, Hprem.
      apply Hcap; assumption.
  - destruct (consider_new_position p st0 m current_price)
      as [[st1 lines] |] eqn:Hc; cbn [bind] in H; [| discriminate].
    injection H as <- <-.
    apply consider_new_position_inv in Hc.
    destruct Hc as (Htr & Hcnt & Hw & Hl & He & Hr & Hd & Hpos).
    rewrite He, Hd, Hr. cbn [equity_curve dates returns st0 set_tracking].
    split; [reflexivity |]. split; [reflexivity |].
    split; [exact Hret_empty |]. split; [exact Hret_next |].
    left. cbn [cash_added flat_map app]. fold (cash_added (map LogEntry lines)).
    rewrite cash_added_entries.
    split; [exact Htr |]. split; [reflexivity |]. split; [exact Hcnt |].
    split; [exact Hw |]. split; [exact Hl |].
    intros Hcons. destruct Hpos as [-> | (Ha & Ht & Hen & Hex)].
    + exact (Hcons0 Hcons).
    + right. split; [exact Ha |]. split; [exact Ht |].
      eexists. eexists. split; eassumption.
Qed.
End PutSellingLifecycle.

Section PutSellingRun.
Import PutSelling.

Lemma simple_returns_snoc l x :
  l <> [] ->
  simple_returns (l ++ [x]) = simple_returns l ++ [x / last l 0 - 1].
Proof.
  induction l as [| a l IH]; [congruence | intros _].
  destruct l as [| b l']; [reflexivity |].
  change (simple_returns ((a :: b :: l') ++ [x]))
    with ((b / a - 1) :: simple_returns ((b :: l') ++ [x])).
  rewrite IH by discriminate. reflexivity.
Qed.

Lemma simple_returns_length l :
  List.length (simple_returns l) = (List.length l - 1)%nat.
Proof.
  induction l as [| a l IH]; [reflexivity |].
  destruct l as [| b l']; [reflexivity |].
  change (simple_returns (a :: b :: l'))
    with ((b / a - 1) :: simple_returns (b :: l')).
  cbn [List.length] in *. rewrite IH. lia.
Qed.

(** A run of bars from any state: the trades appended, the cash added
    and the counters move together. *)
Lemma run_next_ledger p bars : forall st st' events,
  run_next p st bars = Ok (st', events) ->
  exists new,
    trades st' = trades st ++ new /\
    cash_added events = map trade_total_profit new /\
    trade_count st' = (trade_count st + Z.of_nat (List.length new))%Z /\
    winning_trades st'
    = (winning_trades st + Z.of_nat (List.length (filter is_winner new)))%Z /\
    losing_trades st'
    = (losing_trades st
       + Z.of_nat (List.length (filter (fun t => negb (is_winner t)) new)))%Z /\
    ((0 < days_to_expiry p)%Z -> Forall (fun b => 0 <= bar_price b) bars ->
     Forall (fun t => trade_profit t <= trade_premium t) new) /\
    (put_position_consistent st -> put_position_consistent st').
Proof.
  induction bars as [| bar bars IH]; intros st st' events H; cbn [run_next] in H.
  - injection H as <- <-. exists []. rewrite app_nil_r. cbn.
    repeat split; auto; lia.
  - destruct (next p st (bar_market bar) (bar_price bar)) as [[st1 ev1] |] eqn:Hn;
      cbn [bind] in H; [| discriminate].
    destruct (run_next p st1 bars) as [[st2 ev2] |] eqn:Hr; cbn [bind] in H;
      [| discriminate].
    injection H as <- <-.
    destruct (IH _ _ _ Hr) as (new & Ht & Hc & Hn1 & Hw & Hl & Hcap & Hpos).
    apply next_inv_put in Hn.
    destruct Hn as (_ & _ & _ & _ &
                    [(Ht1 & Hc1 & Hn2 & Hw1 & Hl1 & Hpos1)
                    | (t & Ht1 & Hc1 & Hn2 & Hw1 & Hl1 & Ha & Hty & Hcap1)]).
    + exists new. rewrite cash_added_app, Hc1, Ht, Ht1, Hn1, Hn2, Hw, Hw1, Hl, Hl1.
      repeat split; auto.
      intros Hdte Hbars. inversion Hbars; subst. auto.
    + exists (t :: new).
      rewrite cash_added_app, Hc1, Hc, Ht, Ht1, Hn1, Hn2, Hw, Hw1, Hl, Hl1.
      rewrite <- app_assoc. cbn [app map filter List.length].
      split; [reflexivity |]. split; [reflexivity |].
      split; [lia |].
      split; [destruct (is_winner t); cbn [negb List.length]; lia |].
      split; [destruct (is_winner t); cbn [negb List.length]; lia |].
      split.
      * intros Hdte Hbars. inversion Hbars; subst. constructor; auto.
      * intros _. apply Hpos. left. split; assumption.
Qed.

(** The tracking series along a run. *)
Lemma run_next_tracking p bars : forall st st' events,
  run_next p st bars = Ok (st', events) ->
  equity_curve st <> [] ->
  returns st = 0 :: simple_returns (equity_curve st) ->
  equity_curve st' = equity_curve st ++ map (fun b => value (bar_market b)) bars /\
  dates st' = dates st ++ map (fun b => today (bar_market b)) bars /\
  returns st' = 0 :: simple_returns (equity_curve st').
Proof.
  induction bars as [| bar bars IH]; intros st st' events H Hne Hret;
    cbn [run_next] in H.
  - injection H as <- <-. cbn [map]. rewrite !app_nil_r. auto.
  - destruct (next p st (bar_market bar) (bar_price bar)) as [[st1 ev1] |] eqn:Hn;
      cbn [bind] in H; [| discriminate].
    destruct (run_next p st1 bars) as [[st2 ev2] |] eqn:Hr; cbn [bind] in H;
      [| discriminate].
    injection H as <- <-.
    apply next_inv_put in Hn. destruct Hn as (He & Hd & _ & Hnext & _).
    specialize (Hnext _ eq_refl Hne).
    destruct (IH _ _ _ Hr) as (He2 & Hd2 & Hr2).
    + rewrite He. destruct (equity_curve st); discriminate.
    + rewrite Hnext, He, Hret, simple_returns_snoc by exact Hne. reflexivity.
    + rewrite He2, Hd2, He, Hd, <- !app_assoc. cbn [map app].
      split; [reflexivity |]. split; [reflexivity |].
      rewrite Hr2, He2, He, <- app_assoc. reflexivity.
Qed.

Lemma start_consistent value date : put_position_consistent (start init value date).
Proof. left. split; reflexivity. Qed.

Lemma consider_new_position_commit p st m current_price :
  sma m < current_price ->
  let strike := current_price * (1 - put_delta p) in
  let premium := current_price * 0.2 * 1.0 * put_delta p in
  (strike - premium) * 100 <> 0 ->
  let contracts :=
    py_max_int 1 (Int_part (value m * risk_percentage p / ((strike - premium) * 100))) in
  strike * IZR contracts * 100 <= cash m ->
  consider_new_position p st m current_price
  = Ok (mkState (Some true) SHORT_PUT premium strike
          (Some (Date.add_days (today m) (days_to_expiry p)))
          (Some (today m)) contracts (trades st)
          (total_premium st + premium * IZR contracts)
          (trade_count st) (winning_trades st) (losing_trades st)
          (equity_curve st) (returns st) (dates st),
        [LogSell contracts strike premium]).
Proof.
  intros Htrend strike premium Hrisk contracts Hcash.
  unfold consider_new_position.
  rewrite (Rltb_true _ _ Htrend).
  fold strike. fold premium.
  rewrite py_div_ok by exact Hrisk. cbn [bind].
  unfold math_floor. fold contracts.
  rewrite (Rleb_true _ _ Hcash). reflexivity.
Qed.

Ltac put_state_simpl :=
  cbn [active_option option_type entry_price strike_price expiry_date entry_date
       num_contracts trades total_premium trade_count winning_trades
       losing_trades equity_curve returns dates set_tracking start init
       reset_position sma cash value today bar_market bar_price
       default_params ma_period put_delta days_to_expiry risk_percentage
       profit_target_pct entry_bar_example expiry_bar_example
       downtrend_bar_example bind app List.length
       Nat.ltb Nat.leb neg_index Nat.sub nth_error map].

(** A put is sold on the first bar and expires worthless on the second:
    one winning trade is recorded. *)
Lemma put_cycle_example_run :
  exists st events,
    run default_params 100000 (Date.mk 2024 1 12)
        [entry_bar_example; expiry_bar_example] = Ok (st, events) /\
    List.length (trades st) = 1%nat /\
    cash_added events = [100 * 0.2 * 1.0 * 0.3 * 1 * 100].
Proof.
  eexists. eexists. split.
  - unfold run. cbn [run_next].
    (* the bar of the entry *)
    unfold next at 1. put_state_simpl.
    rewrite py_div_ok by lra. put_state_simpl.
    rewrite consider_new_position_commit.
    2:{ cbn. lra. }
    2:{ cbn. lra. }
    2:{ cbv zeta. put_state_simpl.
        replace (Int_part _) with 0%Z by (apply Int_part_spec; lra).
        cbn. lra. }
    put_state_simpl.
    replace (Int_part _) with 0%Z by (apply Int_part_spec; lra).
    cbn [py_max_int Z.ltb Z.compare]. put_state_simpl.
    (* the bar of the expiry *)
    unfold next at 1. put_state_simpl.
    rewrite py_div_ok by lra. put_state_simpl.
    unfold manage_active_position. put_state_simpl.
    replace (Date.days_between (Date.add_days (Date.mk 2024 1 15) 30) (Date.mk 2024 2 14))
      with 0%Z by (vm_compute; reflexivity).
    cbn [Z.leb Z.compare].
    rewrite Rltb_true by lra. put_state_simpl.
    reflexivity.
  - cbn. split; reflexivity.
Qed.
End PutSellingRun.

Section PutSellingFailures.
Import PutSelling.

Lemma consider_new_position_raise p st m current_price e :
  consider_new_position p st m current_price = Raise e -> e = ZeroDivisionError.
Proof.
  unfold consider_new_position. intros H.
  raises_inv H; subst.
  match goal with
  | Hdiv : py_div _ _ = Raise _ |- _ => apply py_div_raise in Hdiv; exact Hdiv
  end.
Qed.

Lemma manage_active_position_raise p st current_date current_price e :
  put_position_consistent st ->
  manage_active_position p st current_date current_price = Raise e ->
  e = ZeroDivisionError.
Proof.
  intros Hc H.
  destruct Hc as [[_ Hty] | (_ & Hty & entry & expiry & Hen & Hex)];
    unfold manage_active_position in H; rewrite Hty in H; [discriminate |].
  rewrite Hex, Hen in H. cbn [bind] in H.
  raises_inv H; subst;
    try match goal with
        | Hif : (if _ then _ else _) = Raise _ |- _ => raises_inv Hif; subst
        end;
    match goal with
    | Hdiv : py_div _ _ = Raise _ |- _ => apply py_div_raise in Hdiv; exact Hdiv
    end.
Qed.

Lemma next_raise_put p st m current_price e :
  put_position_consistent st ->
  next p st m current_price = Raise e -> e = ZeroDivisionError.
Proof.
  intros Hc H. unfold next in H.
  destruct (if (1 <? List.length (equity_curve st ++ [value m]))%nat then _ else _)
    as [rets | e0] eqn:Hrets; cbn [bind] in H.
  - set (st0 := set_tracking st (equity_curve st ++ [value m]) rets
                             (dates st ++ [today m])) in H.
    assert (Hc0 : put_position_consistent st0) by exact Hc.
    destruct (active_option st0).
    + destruct (manage_active_position p st0 (today m) current_price)
        as [[st1 ev1] | e1] eqn:Hm; cbn [bind] in H; [discriminate |].
      injection H as <-. eapply manage_active_position_raise; eassumption.
    + destruct (consider_new_position p st0 m current_price)
        as [[st1 lines] | e1] eqn:Hm; cbn [bind] in H; [discriminate |].
      injection H as <-. eapply consider_new_position_raise; eassumption.
  - injection H as <-.
    destruct (Nat.ltb_spec 1 (List.length (equity_curve st ++ [value m])))
      as [Hlen | Hlen]; [| discriminate].
    rewrite !neg_index_ok in Hrets by lia. cbn [bind] in Hrets.
    raises_inv Hrets; subst.
    match goal with
    | Hdiv : py_div _ _ = Raise _ |- _ => apply py_div_raise in Hdiv; exact Hdiv
    end.
Qed.

Lemma run_next_raise p bars : forall st e,
  put_position_consistent st ->
  run_next p st bars = Raise e -> e = ZeroDivisionError.
Proof.
  induction bars as [| bar bars IH]; intros st e Hc H; cbn [run_next] in H;
    [discriminate |].
  destruct (next p st (bar_market bar) (bar_price bar)) as [[st1 ev1] | e1] eqn:Hn;
    cbn [bind] in H.
  - destruct (run_next p st1 bars) as [[st2 ev2] | e2] eqn:Hr; cbn [bind] in H;
      [discriminate |].
    injection H as <-. apply (IH st1 e2); [| exact Hr].
    apply next_inv_put in Hn.
    destruct Hn as (_ & _ & _ & _ &
                    [(_ & _ & _ & _ & _ & Hpos)
                    | (t & _ & _ & _ & _ & _ & Ha & Hty & _)]).
    + apply Hpos. exact Hc.
    + left. split; assumption.
  - injection H as <-. eapply next_raise_put; eassumption.
Qed.

Lemma filter_partition_length {A : Type} (f : A -> bool) (l : list A) :
  (List.length (filter f l) + List.length (filter (fun x => negb (f x)) l)
   = List.length l)%nat.
Proof.
  induction l as [| a l IH]; [reflexivity |].
  cbn [filter]. destruct (f a); cbn [negb List.length]; lia.
Qed.

(** With consistent counters the summary of [stop] is always produced. *)
Lemma stop_total st :
  trade_count st = Z.of_nat (List.length (trades st)) ->
  (0 <= winning_trades st <= trade_count st)%Z ->
  exists lines,
    stop st = Ok lines /\
    (forall n win_rate, In (LogWinningTrades n win_rate) lines ->
       0 <= win_rate <= 100) /\
    (forall x, In (LogTotalTradeProfit x) lines ->
       x = py_sum (map trade_total_profit (trades st))).
Proof.
  intros Hcount Hwin. unfold stop.
  destruct (Z.ltb_spec 0 (trade_count st)) as [Hpos | Hzero].
  - assert (Htc : IZR (trade_count st) <> 0) by (apply not_0_IZR; lia).
    rewrite py_div_ok by exact Htc. cbn [bind].
    assert (Hrate : 0 <= IZR (winning_trades st) / IZR (trade_count st) * 100 <= 100).
    { assert (Ht : 0 < IZR (trade_count st)) by (apply IZR_lt; exact Hpos).
      assert (Hw0 : 0 <= IZR (winning_trades st)) by (apply IZR_le; lia).
      assert (Hw1 : IZR (winning_trades st) <= IZR (trade_count st))
        by (apply IZR_le; lia).
      split.
      - apply Rmult_le_pos; [| lra].
        apply Rmult_le_pos; [exact Hw0 |]. left. apply Rinv_0_lt_compat. exact Ht.
      - assert (IZR (winning_trades st) / IZR (trade_count st) <= 1).
        { apply Rmult_le_reg_r with (IZR (trade_count st)); [exact Ht |].
          unfold Rdiv. rewrite Rmult_assoc, Rinv_l by exact Htc. lra. }
        lra. }
    destruct (trades st) as [| t ts] eqn:Etr.
    + cbn [List.length] in Hcount. lia.
    + assert (Hn : INR (List.length (t :: ts)) <> 0)
        by (apply not_0_INR; cbn [List.length]; lia).
      rewrite !py_div_ok by exact Hn. cbn [bind].
      eexists. split; [reflexivity |]. split.
      * intros n w Hin. cbn in Hin.
        repeat (destruct Hin as [Hin | Hin]; [try discriminate |]);
          try contradiction.
        injection Hin as _ <-. exact Hrate.
      * intros x Hin. cbn [app In] in Hin.
        repeat (destruct Hin as [Hin | Hin]; [try discriminate |]);
          try contradiction.
        injection Hin as <-. reflexivity.
  - cbn [bind]. eexists. split; [reflexivity |]. split.
    + intros n w Hin. cbn in Hin.
      repeat (destruct Hin as [Hin | Hin]; [try discriminate |]);
        try contradiction.
    + intros x Hin. cbn in Hin.
      repeat (destruct Hin as [Hin | Hin]; [try discriminate |]);
        try contradiction.
Qed.

Lemma run_counters p value date bars st events :
  run p value date bars = Ok (st, events) ->
  trade_count st = Z.of_nat (List.length (trades st)) /\
  winning_trades st = Z.of_nat (List.length (filter is_winner (trades st))) /\
  losing_trades st
  = Z.of_nat (List.length (filter (fun t => negb (is_winner t)) (trades st))) /\
  cash_added events = map trade_total_profit (trades st).
Proof.
  unfold run. intros H.
  destruct (run_next_ledger _ _ _ _ _ H) as (new & Ht & Hc & Hn & Hw & Hl & _ & _).
  cbn [start init set_tracking trades trade_count winning_trades losing_trades app]
    in Ht, Hn, Hw, Hl.
  rewrite Ht. repeat split; try assumption; lia.
Qed.
End PutSellingFailures.

(** X22. The trade counters never drift from the trade list: after any
    run, [trade_count] is the number of recorded trades, [winning_trades]
    the number of those with a positive profit, [losing_trades] the number
    of the others, and the two add up to [trade_count]. *)
Theorem trade_counters_match_trades
    (p : PutSelling.Params) (value : R) (date : Date.t)
    (bars : list PutSelling.Bar) (st : PutSelling.State)
    (events : list PutSelling.event) :
  PutSelling.run p value date bars = Ok (st, events) ->
  PutSelling.trade_count st = Z.of_nat (List.length (PutSelling.trades st)) /\
  PutSelling.winning_trades st
  = Z.of_nat (List.length (filter is_winner (PutSelling.trades st))) /\
  PutSelling.losing_trades st
  = Z.of_nat (List.length (filter (fun t => negb (is_winner t)) (PutSelling.trades st))) /\
  (PutSelling.winning_trades st + PutSelling.losing_trades st
   = PutSelling.trade_count st)%Z.
Proof.
  intros H. destruct (run_counters _ _ _ _ _ _ H) as (Hc & Hw & Hl & _).
  repeat split; try assumption.
  rewrite Hc, Hw, Hl.
  pose proof (filter_partition_length is_winner (PutSelling.trades st)). lia.
Qed.

Lemma trade_counters_match_trades_witness :
  exists st events,
    PutSelling.run PutSelling.default_params 100000 (Date.mk 2024 1 12)
      [entry_bar_example; expiry_bar_example] = Ok (st, events) /\
    PutSelling.trade_count st = 1%Z /\
    (PutSelling.winning_trades st + PutSelling.losing_trades st
     = PutSelling.trade_count st)%Z.
Proof.
  destruct put_cycle_example_run as (st & events & H & Hlen & _).
  exists st, events. split; [exact H |].
  destruct (trade_counters_match_trades _ _ _ _ _ _ H) as (Hc & _ & _ & Hsum).
  split; [rewrite Hc, Hlen; reflexivity | exact Hsum].
Defined.

(** X23. Every amount credited to the broker is the total profit of a
    recorded trade: over any run, the amounts passed to [broker.add_cash]
    are, in order, the [total_profit] entries of the trade list. *)
Theorem cash_added_is_trade_profit
    (p : PutSelling.Params) (value : R) (date : Date.t)
    (bars : list PutSelling.Bar) (st : PutSelling.State)
    (events : list PutSelling.event) :
  PutSelling.run p value date bars = Ok (st, events) ->
  cash_added events = map PutSelling.trade_total_profit (PutSelling.trades st).
Proof.
  intros H. destruct (run_counters _ _ _ _ _ _ H) as (_ & _ & _ & Hcash).
  exact Hcash.
Qed.

Lemma cash_added_is_trade_profit_witness :
  exists st events,
    PutSelling.run PutSelling.default_params 100000 (Date.mk 2024 1 12)
      [entry_bar_example; expiry_bar_example] = Ok (st, events) /\
    cash_added events = [100 * 0.2 * 1.0 * 0.3 * 1 * 100] /\
    cash_added events = map PutSelling.trade_total_profit (PutSelling.trades st).
Proof.
  destruct put_cycle_example_run as (st & events & H & _ & Hcash).
  exists st, events. split; [exact H |]. split; [exact Hcash |].
  exact (cash_added_is_trade_profit _ _ _ _ _ _ H).
Defined.

(** X24. A short put never earns more than its premium: with a positive
    [days_to_expiry] and non-negative prices, every trade recorded by a run
    has a profit of at most the premium collected at entry. *)
Theorem short_put_profit_capped
    (p : PutSelling.Params) (value : R) (date : Date.t)
    (bars : list PutSelling.Bar) (st : PutSelling.State)
    (events : list PutSelling.event) :
  (0 < PutSelling.days_to_expiry p)%Z ->
  Forall (fun b => 0 <= PutSelling.bar_price b) bars ->
  PutSelling.run p value date bars = Ok (st, events) ->
  Forall (fun t => PutSelling.trade_profit t <= PutSelling.trade_premium t)
         (PutSelling.trades st).
Proof.
  unfold PutSelling.run. intros Hdte Hbars H.
  destruct (run_next_ledger _ _ _ _ _ H) as (new & Ht & _ & _ & _ & _ & Hcap & _).
  cbn [PutSelling.start PutSelling.init PutSelling.set_tracking PutSelling.trades app]
    in Ht.
  rewrite Ht. apply Hcap; assumption.
Qed.

Lemma short_put_profit_capped_witness :
  exists st events,
    PutSelling.run PutSelling.default_params 100000 (Date.mk 2024 1 12)
      [entry_bar_example; expiry_bar_example] = Ok (st, events) /\
    List.length (PutSelling.trades st) = 1%nat /\
    Forall (fun t => PutSelling.trade_profit t <= PutSelling.trade_premium t)
           (PutSelling.trades st).
Proof.
  destruct put_cycle_example_run as (st & events & H & Hlen & _).
  exists st, events. split; [exact H |]. split; [exact Hlen |].
  apply (short_put_profit_capped PutSelling.default_params 100000
           (Date.mk 2024 1 12) [entry_bar_example; expiry_bar_example] st events).
  - cbn. lia.
  - repeat constructor; cbn; lra.
  - exact H.
Defined.

(** X25. The tracking series stay aligned: after [start] and any run of
    bars the equity curve holds the opening value followed by the value
    reported on each bar, the dates likewise, and the returns are 0
    followed by the day-over-day changes of the equity curve; the three
    lists have the same length, one more than the number of bars. *)
Theorem tracking_series_aligned
    (p : PutSelling.Params) (value : R) (date : Date.t)
    (bars : list PutSelling.Bar) (st : PutSelling.State)
    (events : list PutSelling.event) :
  PutSelling.run p value date bars = Ok (st, events) ->
  PutSelling.equity_curve st
  = value :: map (fun b => PutSelling.value (PutSelling.bar_market b)) bars /\
  PutSelling.dates st
  = date :: map (fun b => PutSelling.today (PutSelling.bar_market b)) bars /\
  PutSelling.returns st = 0 :: simple_returns (PutSelling.equity_curve st) /\
  List.length (PutSelling.returns st) = S (List.length bars) /\
  List.length (PutSelling.dates st) = S (List.length bars).
Proof.
  unfold PutSelling.run. intros H.
  destruct (run_next_tracking _ _ _ _ _ H) as (He & Hd & Hr).
  - discriminate.
  - cbn. f_equal. lra.
  - cbn [PutSelling.start PutSelling.init PutSelling.set_tracking
         PutSelling.equity_curve PutSelling.dates app] in He, Hd.
    split; [exact He |]. split; [exact Hd |]. split; [exact Hr |].
    split.
    + rewrite Hr. cbn [List.length]. rewrite simple_returns_length, He.
      cbn [List.length]. rewrite length_map. lia.
    + rewrite Hd. cbn [List.length]. rewrite length_map. reflexivity.
Qed.

Lemma tracking_series_aligned_witness :
  exists st events,
    PutSelling.run PutSelling.default_params 100000 (Date.mk 2024 1 12)
      [entry_bar_example; expiry_bar_example] = Ok (st, events) /\
    PutSelling.equity_curve st = [100000; 100000; 100000] /\
    List.length (PutSelling.returns st) = 3%nat.
Proof.
  destruct put_cycle_example_run as (st & events & H & _ & _).
  exists st, events. split; [exact H |].
  destruct (tracking_series_aligned _ _ _ _ _ _ H) as (He & _ & _ & Hr & _).
  split; [exact He | exact Hr].
Defined.

(** X26. A run of the put seller fails only on a division by zero:
    whatever the bars, it returns or raises [ZeroDivisionError]. The
    subtraction of a missing expiry or entry date and an index outside the
    equity curve are never reached. *)
Theorem put_run_fails_only_on_zero_division
    (p : PutSelling.Params) (value : R) (date : Date.t)
    (bars : list PutSelling.Bar) :
  match PutSelling.run p value date bars with
  | Ok _ => True
  | Raise e => e = ZeroDivisionError
  end.
Proof.
  destruct (PutSelling.run p value date bars) as [r | e] eqn:H; [exact I |].
  unfold PutSelling.run in H.
  eapply run_next_raise; [| exact H]. apply start_consistent.
Qed.

(** X27. The summary of [stop] is always produced after a run: no
    division in it fails, the win rate it logs lies between 0 and 100, and
    the total profit of the trades it logs is the sum of the amounts
    credited to the broker. *)
Theorem stop_after_run
    (p : PutSelling.Params) (value : R) (date : Date.t)
    (bars : list PutSelling.Bar) (st : PutSelling.State)
    (events : list PutSelling.event) :
  PutSelling.run p value date bars = Ok (st, events) ->
  exists lines,
    PutSelling.stop st = Ok lines /\
    (forall n win_rate, In (PutSelling.LogWinningTrades n win_rate) lines ->
       0 <= win_rate <= 100) /\
    (forall x, In (PutSelling.LogTotalTradeProfit x) lines ->
       x = py_sum (cash_added events)).
Proof.
  intros H. destruct (run_counters _ _ _ _ _ _ H) as (Hc & Hw & Hl & Hcash).
  destruct (stop_total st Hc) as (lines & Hs & Hrate & Htotal).
  - rewrite Hw, Hc.
    pose proof (filter_partition_length is_winner (PutSelling.trades st)). lia.
  - exists lines. split; [exact Hs |]. split; [exact Hrate |].
    intros x Hx. rewrite Hcash. apply Htotal. exact Hx.
Qed.

Lemma stop_after_run_witness :
  exists st events lines,
    PutSelling.run PutSelling.default_params 100000 (Date.mk 2024 1 12)
      [entry_bar_example; expiry_bar_example] = Ok (st, events) /\
    PutSelling.stop st = Ok lines /\
    (forall n win_rate, In (PutSelling.LogWinningTrades n win_rate) lines ->
       0 <= win_rate <= 100).
Proof.
  destruct put_cycle_example_run as (st & events & H & _ & _).
  destruct (stop_after_run _ _ _ _ _ _ H) as (lines & Hs & Hrate & _).
  exists st, events, lines. split; [exact H |]. split; [exact Hs | exact Hrate].
Defined.
